(** * ascii_maker (web port): the frame compositor and the tone pipeline

    A shallow embedding of the JavaScript sources
      - [dither.js]     ([floydSteinberg]),
      - [charsets.js]   ([CHARSETS], [charIndexForLuminance],
                         [charForLuminance], [mapArrayToChars],
                         [brailleChar], [brailleFromArray]),
      - [gif-parser.js] ([buildFullFrames], [isGifBuffer],
                         [parseGifFromBuffer]),
      - [processor.js]  ([resizeImageData], [toGrayscale],
                         [adjustBrightnessContrast], [getColorSamples],
                         [getBrailleColorSamples], [processFrame]),
    together with the properties of these functions.

    Conventions of the embedding.
      - A JavaScript number that holds a count, an index or a byte is a [Z]
        or a [nat]; a number that holds a luminance is an exact rational
        [Q]: the rounding of IEEE-754 doubles and of [Float32Array] stores
        is not part of the model.
      - A JavaScript string is the list of its UTF-16 code units.
      - A typed array or an array of rows is a [list]; reads are stdpp
        lookups, in-place writes are [alter]/insert (which, like a typed
        array, ignore an index past the end).
      - A function that can throw returns an [outcome]. *)

From Stdlib Require Import ZArith QArith Qround Qminmax Lqa Lia String Ascii.
From stdpp Require Import list.

Local Open Scope Z_scope.

(** * Part I: the embedding *)

(** ** JavaScript values shared by all modules *)

Module Js.

Inductive error : Type :=
| TypeError
| RangeError
| IndexSizeError
| Error (message : string).

Inductive outcome (A : Type) : Type :=
| Returns (a : A)
| Throws (e : error).
Arguments Returns {A} a.
Arguments Throws {A} e.

#[global] Instance outcome_ret : MRet outcome := fun A a => Returns a.
#[global] Instance outcome_bind : MBind outcome := fun A B k m =>
  match m with
  | Returns a => k a
  | Throws e => Throws e
  end.

(** [for (const a of l) { s = body(s, a) }], leaving at the first throw. *)
Fixpoint for_of {S A : Type} (body : S -> A -> outcome S) (l : list A) (s : S)
  : outcome S :=
  match l with
  | [] => Returns s
  | a :: l' => s' ← body s a; for_of body l' s'
  end.

(** The values of [i] in [for (let i = 0; i < stop; i += step)]. *)
Definition stepping (stop step : nat) : list nat :=
  map (fun k => (k * step)%nat) (seq 0 (Nat.div (stop + (step - 1)) step)).

(** A string, as the list of its UTF-16 code units. *)
Abbreviation str := (list Z) (only parsing).

(** [String.fromCharCode(n)]: one code unit, taken modulo 2^16. *)
Definition fromCharCode (n : Z) : str := [n mod 65536].

(** The code units of an ASCII literal. *)
Definition units (s : string) : str :=
  map (fun a => Z.of_N (N_of_ascii a)) (list_ascii_of_string s).

(** [s[idx]] appended to a string: past the end it is [undefined], which
    concatenation prints. *)
Definition index_as_string (s : str) (idx : Z) : str :=
  match s !! Z.to_nat idx with
  | Some c => [c]
  | None => units "undefined"
  end.

(** [Math.floor] and [Math.round] (ties go up: [floor (x + 1/2)]). *)
Definition floor (x : Q) : Z := Qfloor x.
Definition round (x : Q) : Z := Qfloor (x + (1 # 2)).

(** [Math.max(0.0, Math.min(1.0, v))]. *)
Definition clamp01 (v : Q) : Q := Qmax 0 (Qmin 1 v).

(** Rows of numbers: [Float32Array[]] and [Uint8Array[]]. *)
Abbreviation rows A := (list (list A)) (only parsing).

(** [a[0]?.length || 0]. *)
Definition first_row_length {A} (a : rows A) : nat :=
  match a with
  | [] => 0%nat
  | r :: _ => length r
  end.

(** [a[y][x]] read, [a[y][x] = v] and [a[y][x] += e] on rows of typed
    arrays. The read of a cell that does not exist is given [d]; the loops
    below only read cells of the grid. *)
Definition cell {A} (d : A) (a : rows A) (y x : nat) : A :=
  default d (a !! y ≫= (.!! x)).
Definition assign {A} (a : rows A) (y x : nat) (v : A) : rows A :=
  alter (fun r => <[x := v]> r) y a.
Definition add_assign (a : rows Q) (y x : nat) (e : Q) : rows Q :=
  alter (alter (fun v => (v + e)%Q) x) y a.

(** [target.set(src)] on a typed array: the source is copied to the front
    of the target; a source longer than the target is a [RangeError]. *)
Definition TypedArray_set (target src : list Z) : outcome (list Z) :=
  if (length target <? length src)%nat then Throws RangeError
  else Returns (src ++ drop (length src) target).

End Js.

(** ** dither.js *)

Module Dither.
Import Js.

Definition step_for (levels : Z) : Q :=
  if 1 <? levels then (1 / inject_Z (levels - 1))%Q else 1%Q.

(** One iteration of the inner loop of [floydSteinberg], at cell [(y, x)]. *)
Definition diffuse_at (h w : nat) (step : Q) (img : rows Q) (y x : nat)
  : rows Q :=
  let old := cell 0%Q img y x in
  let newVal := (inject_Z (round (old / step)) * step)%Q in
  let newVal := clamp01 newVal in
  let img := assign img y x newVal in
  let err := (old - newVal)%Q in
  let img :=
    if (x + 1 <? w)%nat then add_assign img y (x + 1) (err * (7 # 16))%Q
    else img in
  if (y + 1 <? h)%nat then
    let img :=
      if 0 <=? Z.of_nat x - 1
      then add_assign img (y + 1) (x - 1) (err * (3 # 16))%Q
      else img in
    let img := add_assign img (y + 1) x (err * (5 # 16))%Q in
    if (x + 1 <? w)%nat then add_assign img (y + 1) (x + 1) (err * (1 # 16))%Q
    else img
  else img.

Definition floydSteinberg (gray : rows Q) (levels : Z) : rows Q :=
  let h := length gray in
  let w := first_row_length gray in
  (* Copy the array *)
  let img := gray in
  let step := step_for levels in
  let img :=
    foldl (fun img y =>
      foldl (fun img x => diffuse_at h w step img y x) img (seq 0 w))
      img (seq 0 h) in
  (* Clamp values *)
  foldl (fun img y =>
    foldl (fun img x => assign img y x (clamp01 (cell 0%Q img y x)))
      img (seq 0 w))
    img (seq 0 h).

(** The call [floydSteinberg(gray, levels)] as an outcome: the function
    validates nothing and has no [throw], and on rows of typed arrays none
    of its reads or writes can throw, so the call returns. *)
Definition floydSteinberg_call (gray : rows Q) (levels : Z)
  : outcome (rows Q) :=
  Returns (floydSteinberg gray levels).

End Dither.

(** ** charsets.js *)

Module Charsets.
Import Js.

(** Ordered dark to light. A name other than the four keys is absent (the
    properties an object inherits from its prototype are left out). *)
Definition CHARSETS (charset : string) : option str :=
  if String.eqb charset "simple" then Some (units " .:-=+*#%@")
  else if String.eqb charset "detailed" then
    Some (units " .`'^" ++ [34] ++ units ",:;Il!i><~+_-?][}{1)(|" ++ [92]
          ++ units "/tfjrxnuvczXYUJCLQ0OZmwqpdbkhao*#MW&8%B@$")
  else if String.eqb charset "blocks" then
    Some [32; 0x2581; 0x2582; 0x2583; 0x2584; 0x2585; 0x2586; 0x2587; 0x2588]
  else if String.eqb charset "braille" then Some [0x2800; 0x2801]
  else None.

(** Map a luminance value (0.0-1.0) to a character index. *)
Definition charIndexForLuminance (charset : string) (luminance : Q)
  : outcome Z :=
  match CHARSETS charset with
  | None => Throws TypeError
  | Some chars =>
      let idx := floor (luminance * inject_Z (Z.of_nat (length chars) - 1)) in
      Returns (Z.max 0 (Z.min idx (Z.of_nat (length chars) - 1)))
  end.

(** Map a luminance value (0.0-1.0) to a character: the code unit at the
    index, [None] for [undefined]. *)
Definition charForLuminance (charset : string) (luminance : Q)
  : outcome (option Z) :=
  idx ← charIndexForLuminance charset luminance;
  match CHARSETS charset with
  | None => Throws TypeError
  | Some chars => Returns (chars !! Z.to_nat idx)
  end.

(** The body of the inner loop of [mapArrayToChars]. *)
Definition append_char (chars : str) (maxIdx : Z) (line : str) (v : Q) : str :=
  let idx := floor (v * inject_Z maxIdx) in
  let idx := Z.max 0 (Z.min idx maxIdx) in
  line ++ index_as_string chars idx.

Definition mapArrayToChars (charset : string) (luminanceRows : rows Q)
  : outcome (list str) :=
  match CHARSETS charset with
  | None => Throws TypeError
  | Some chars =>
      let maxIdx := Z.of_nat (length chars) - 1 in
      Returns
        (foldl (fun lines row =>
           lines ++ [foldl (append_char chars maxIdx) [] row])
           [] luminanceRows)
  end.

Definition BRAILLE_BASE : Z := 0x2800.

Definition BRAILLE_DOT_BITS : list (list Z) :=
  [ [0; 3];  (* row 0 *)
    [1; 4];  (* row 1 *)
    [2; 5];  (* row 2 *)
    [6; 7]   (* row 3 *) ].

Definition dot_bit (row col : nat) : Z :=
  default 0 (BRAILLE_DOT_BITS !! row ≫= (.!! col)).

(** The two nested loops of [brailleChar], [code] being the loop state. *)
Definition brailleCode (dots : rows bool) : Z :=
  foldl (fun code row =>
    foldl (fun code col =>
      if cell false dots row col
      then Z.lor code (Z.shiftl 1 (dot_bit row col))
      else code) code (seq 0 2)) 0 (seq 0 4).

Definition brailleChar (dots : rows bool) : str :=
  fromCharCode (BRAILLE_BASE + brailleCode dots).

(** The padding block of [brailleFromArray]: [newH] rows of [newW] zeros,
    the first [h] of them overwritten with the rows of [binary]. *)
Definition pad (binary : rows Z) (h newH newW : nat) : outcome (rows Z) :=
  mapM (fun y =>
    let row := replicate newW 0 in
    if (y <? h)%nat then TypedArray_set row (default [] (binary !! y))
    else Returns row) (seq 0 newH).

(** The block of dots read at [(y, x)]; [binary[y][x] > 0] is false for a
    column that does not exist. *)
Definition dots_at (binary : rows Z) (y x : nat) : rows bool :=
  [ [0 <? cell 0 binary y x;       0 <? cell 0 binary y (x + 1)];
    [0 <? cell 0 binary (y + 1) x; 0 <? cell 0 binary (y + 1) (x + 1)];
    [0 <? cell 0 binary (y + 2) x; 0 <? cell 0 binary (y + 2) (x + 1)];
    [0 <? cell 0 binary (y + 3) x; 0 <? cell 0 binary (y + 3) (x + 1)] ].

(** The grid the encoding loop of [brailleFromArray] runs on, with its
    height and width. *)
Definition padded_input (binary : rows Z) : outcome (rows Z * nat * nat) :=
  let h := length binary in
  let w := first_row_length binary in
  let padH := ((4 - h mod 4) mod 4)%nat in
  let padW := ((2 - w mod 2) mod 2)%nat in
  if (0 <? padH)%nat || (0 <? padW)%nat then
    let newH := (h + padH)%nat in
    let newW := (w + padW)%nat in
    padded ← pad binary h newH newW;
    Returns (padded, newH, newW)
  else Returns (binary, h, w).

Definition brailleFromArray (binary : rows Z) : outcome (list str) :=
  '(binary, h, w) ← padded_input binary;
  Returns
    (foldl (fun lines y =>
       lines ++ [foldl (fun lineChars x =>
                   lineChars ++ brailleChar (dots_at binary y x))
                   [] (stepping w 2)])
       [] (stepping h 4)).

End Charsets.

(** ** The 2D canvas of the browser

    The drawing surface behind [document.createElement("canvas")] and its
    context, as far as gif-parser.js uses it. A bitmap and an [ImageData] are
    the same record: [width * height] pixels of four bytes, row by row, and
    a bitmap keeps the bytes that are put into it. Coordinates and sizes are
    the unsigned fields of GIF image descriptors, hence [nat]. *)

Module Canvas.
Import Js.

Definition pixel : Type := (Z * Z * Z * Z)%type.

Definition transparent : pixel := (0, 0, 0, 0).

Definition channel (p : pixel) (k : nat) : Z :=
  let '(r, g, b, a) := p in
  match k with
  | 0%nat => r
  | 1%nat => g
  | 2%nat => b
  | _ => a
  end.

Record ImageData : Type := {
  width : nat;
  height : nat;
  data : list Z
}.

Definition byte (d : list Z) (i : nat) : Z := default 0 (d !! i).

Definition pixel_at (img : ImageData) (x y : nat) : pixel :=
  let i := ((y * width img + x) * 4)%nat in
  (byte (data img) i, byte (data img) (i + 1),
   byte (data img) (i + 2), byte (data img) (i + 3)).

(** The bitmap of [w] by [h] pixels whose pixel at [(x, y)] is [f x y]. *)
Definition render (w h : nat) (f : nat -> nat -> pixel) : ImageData :=
  {| width := w;
     height := h;
     data := map (fun i => channel (f ((i / 4) mod w) ((i / 4) / w))%nat
                                   (i mod 4)%nat)
                 (seq 0 (w * h * 4)) |}.

(** Is [(x, y)] inside the rectangle at [(x0, y0)] of size [w] by [h]? *)
Definition inside (x0 y0 w h x y : nat) : bool :=
  (x0 <=? x)%nat && (x <? x0 + w)%nat && (y0 <=? y)%nat && (y <? y0 + h)%nat.

(** A new canvas element of the given size: transparent black. *)
Definition create (w h : nat) : ImageData :=
  render w h (fun _ _ => transparent).

(** [ctx.createImageData(sw, sh)]. *)
Definition createImageData (sw sh : nat) : outcome ImageData :=
  if (sw =? 0)%nat || (sh =? 0)%nat then Throws IndexSizeError
  else Returns (render sw sh (fun _ _ => transparent)).

(** [ctx.getImageData(sx, sy, sw, sh)]: a copy of the rectangle; pixels
    outside the canvas read as transparent black. *)
Definition getImageData (c : ImageData) (sx sy sw sh : nat)
  : outcome ImageData :=
  if (sw =? 0)%nat || (sh =? 0)%nat then Throws IndexSizeError
  else Returns (render sw sh (fun x y =>
         if inside 0 0 (width c) (height c) (sx + x) (sy + y)
         then pixel_at c (sx + x) (sy + y)
         else transparent)).

(** [ctx.putImageData(img, dx, dy)]: the pixels of [img] replace those of
    the canvas. *)
Definition putImageData (c img : ImageData) (dx dy : nat) : ImageData :=
  render (width c) (height c) (fun x y =>
    if inside dx dy (width img) (height img) x y
    then pixel_at img (x - dx) (y - dy)
    else pixel_at c x y).

(** [ctx.clearRect(x0, y0, w, h)]. *)
Definition clearRect (c : ImageData) (x0 y0 w h : nat) : ImageData :=
  render (width c) (height c) (fun x y =>
    if inside x0 y0 w h x y then transparent else pixel_at c x y).

(** [ctx.drawImage(src, dx, dy)] with the default composite operation;
    [blend s d] is what the browser leaves where it draws the source pixel
    [s] over the canvas pixel [d]. *)
Definition drawImage (blend : pixel -> pixel -> pixel)
    (c src : ImageData) (dx dy : nat) : ImageData :=
  render (width c) (height c) (fun x y =>
    if inside dx dy (width src) (height src) x y
    then blend (pixel_at src (x - dx) (y - dy)) (pixel_at c x y)
    else pixel_at c x y).

(** Source-over for the pixels of a decoded GIF, whose alpha is 0 or 255. *)
Definition over (s d : pixel) : pixel :=
  if channel s 3 =? 0 then d else s.

End Canvas.

(** ** gif-parser.js *)

Module GifParser.
Import Js.

(** The frames of [decompressFrames(gif, true)]. *)
Module Raw.
Record Dims : Type := {
  left : nat;
  top : nat;
  width : nat;
  height : nat
}.
Record frame : Type := {
  dims : Dims;
  patch : list Z;
  delay : option Z;       (* [None]: the property is undefined *)
  disposalType : Z
}.
End Raw.

(** The elements of [fullFrames]. *)
Module Full.
Record frame : Type := {
  imageData : Canvas.ImageData;
  delay : Z
}.
End Full.

(** [delay || 100]. *)
Definition or_100 (delay : option Z) : Z :=
  match delay with
  | Some d => if d =? 0 then 100 else d
  | None => 100
  end.

(** [new Uint8Array(buffer, byteOffset, length)]: a view of [length] bytes
    of the buffer, a [RangeError] when the buffer ends before the view. *)
Definition Uint8Array_view (buffer : list Z) (byteOffset length : nat)
  : outcome (list Z) :=
  if (List.length buffer <? byteOffset + length)%nat then Throws RangeError
  else Returns (take length (drop byteOffset buffer)).

(** Check if buffer starts with GIF magic bytes. *)
Definition isGifBuffer (buffer : list Z) : outcome bool :=
  arr ← Uint8Array_view buffer 0 6;
  let magic := arr ≫= fromCharCode in
  Returns (bool_decide (magic = units "GIF87a")
           || bool_decide (magic = units "GIF89a")).

(** What the loop of [buildFullFrames] changes. *)
Record state : Type := {
  ctx : Canvas.ImageData;
  previousImageData : option Canvas.ImageData;
  fullFrames : list Full.frame
}.

Section Compositor.
Variable blend : Canvas.pixel -> Canvas.pixel -> Canvas.pixel.

(** The canvas after [ctx.drawImage(patchCanvas, dims.left, dims.top)]. *)
Definition draw_patch (c : Canvas.ImageData) (frame : Raw.frame)
  : outcome Canvas.ImageData :=
  let dims := Raw.dims frame in
  (* Create ImageData for this patch *)
  patchImageData ← Canvas.createImageData (Raw.width dims) (Raw.height dims);
  patchData ← TypedArray_set (Canvas.data patchImageData) (Raw.patch frame);
  let patchImageData :=
    {| Canvas.width := Canvas.width patchImageData;
       Canvas.height := Canvas.height patchImageData;
       Canvas.data := patchData |} in
  let patchCanvas :=
    Canvas.putImageData
      (Canvas.create (Raw.width dims) (Raw.height dims)) patchImageData 0 0 in
  (* Draw patch onto main canvas at correct position *)
  Returns (Canvas.drawImage blend c patchCanvas (Raw.left dims) (Raw.top dims)).

(** The body of the loop of [buildFullFrames]. *)
Definition compose (width height : nat) (st : state) (frame : Raw.frame)
  : outcome state :=
  let dims := Raw.dims frame in
  c ← draw_patch (ctx st) frame;
  (* Capture the full frame *)
  fullImageData ← Canvas.getImageData c 0 0 width height;
  let frames :=
    fullFrames st ++ [ {| Full.imageData := fullImageData;
                          Full.delay := or_100 (Raw.delay frame) |} ] in
  (* Handle disposal *)
  if Raw.disposalType frame =? 2 then
    Returns {| ctx := Canvas.clearRect c (Raw.left dims) (Raw.top dims)
                        (Raw.width dims) (Raw.height dims);
               previousImageData := previousImageData st;
               fullFrames := frames |}
  else if Raw.disposalType frame =? 3 then
    match previousImageData st with
    | Some previous =>
        Returns {| ctx := Canvas.putImageData c previous 0 0;
                   previousImageData := previousImageData st;
                   fullFrames := frames |}
    | None =>
        Returns {| ctx := c;
                   previousImageData := previousImageData st;
                   fullFrames := frames |}
    end
  else
    previous ← Canvas.getImageData c 0 0 width height;
    Returns {| ctx := c;
               previousImageData := Some previous;
               fullFrames := frames |}.

Definition initial (width height : nat) : state :=
  {| ctx := Canvas.create width height;
     previousImageData := None;
     fullFrames := [] |}.

(** The state of the loop once it has gone through [rawFrames]. *)
Definition run (width height : nat) (rawFrames : list Raw.frame)
  : outcome state :=
  for_of (compose width height) rawFrames (initial width height).

Definition buildFullFrames (rawFrames : list Raw.frame) (width height : nat)
  : outcome (list Full.frame) :=
  st ← run width height rawFrames;
  Returns (fullFrames st).

(** [parseGifBuffer] is the decoder of gifuct-js. *)
Variable parseGifBuffer : list Z -> outcome (list Raw.frame).

Definition parseGifFromBuffer (buffer : list Z)
  : outcome (list Full.frame * nat * nat) :=
  rawFrames ← parseGifBuffer buffer;
  match rawFrames with
  | [] => Throws (Error "No frames found in GIF")
  | first :: _ =>
      let width := Raw.width (Raw.dims first) in
      let height := Raw.height (Raw.dims first) in
      let maxWidth :=
        foldl (fun m f =>
          Nat.max m (Raw.left (Raw.dims f) + Raw.width (Raw.dims f)))
          width rawFrames in
      let maxHeight :=
        foldl (fun m f =>
          Nat.max m (Raw.top (Raw.dims f) + Raw.height (Raw.dims f)))
          height rawFrames in
      frames ← buildFullFrames rawFrames maxWidth maxHeight;
      Returns (frames, maxWidth, maxHeight)
  end.

End Compositor.

End GifParser.

(** ** processor.js *)

Module Processor.
Import Js.

Definition toGrayscale (imageData : Canvas.ImageData) : rows Q :=
  let width := Canvas.width imageData in
  let height := Canvas.height imageData in
  let data := Canvas.data imageData in
  foldl (fun rows y =>
    rows ++ [
      foldl (fun row x =>
        let i := ((y * width + x) * 4)%nat in
        (* Standard luminance formula *)
        let lum :=
          (((299 # 1000) * inject_Z (Canvas.byte data i)
            + (587 # 1000) * inject_Z (Canvas.byte data (i + 1))
            + (114 # 1000) * inject_Z (Canvas.byte data (i + 2)))
           / 255)%Q in
        <[x := lum]> row) (replicate width 0%Q) (seq 0 width) ])
    [] (seq 0 height).

(** The body of the inner loop of [adjustBrightnessContrast]. *)
Definition adjusted (brightness contrast : Z) (val : Q) : Q :=
  (* Brightness: shift *)
  let val :=
    if negb (brightness =? 0) then (val + inject_Z brightness / 100)%Q
    else val in
  (* Contrast: scale around 0.5 *)
  let val :=
    if negb (contrast =? 100) then
      let factor := (inject_Z contrast / 100)%Q in
      ((val - (1 # 2)) * factor + (1 # 2))%Q
    else val in
  clamp01 val.

Definition adjustBrightnessContrast (gray : rows Q) (brightness contrast : Z)
  : rows Q :=
  let h := length gray in
  let w := first_row_length gray in
  let result := gray in
  foldl (fun result y =>
    foldl (fun result x =>
      assign result y x (adjusted brightness contrast (cell 0%Q result y x)))
      result (seq 0 w))
    result (seq 0 h).

(** The settings of [processFrame] and what it returns. *)
Module Settings.
Record t : Type := {
  charset : string;
  colorMode : string;
  dither : bool;
  brightness : Z;
  contrast : Z;
  invert : bool;
  width : nat;
  height : nat
}.
End Settings.

Module Processed.
Record t : Type := {
  lines : list str;
  colors : option (rows (Z * Z * Z));   (* [None]: null *)
  width : nat;
  height : nat
}.
End Processed.

(** [a > b] on numbers. *)
Definition greater (a b : Q) : bool := negb (Qle_bool a b).

(** The invert loop of [processFrame]: [gray[y][x] = 1.0 - gray[y][x]] for
    every [y < gray.length] and [x < gray[y].length]. *)
Definition inverted (gray : rows Q) : rows Q :=
  foldl (fun gray y =>
    foldl (fun gray x => assign gray y x (1 - cell 0%Q gray y x)%Q)
      gray (seq 0 (length (default [] (gray !! y)))))
    gray (seq 0 (length gray)).

(** Convert to binary: one [Uint8Array] per row, 1 where the value is
    greater than 0.5. *)
Definition thresholded (gray : rows Q) : rows Z :=
  map (fun row =>
    foldl (fun binRow x =>
      <[x := if greater (default 0%Q (row !! x)) (1 # 2) then 1 else 0]>
        binRow)
      (replicate (length row) 0) (seq 0 (length row))) gray.

(** Apply invert to colors too. *)
Definition inverted_colors (colorSamples : rows (Z * Z * Z))
  : rows (Z * Z * Z) :=
  foldl (fun colorSamples y =>
    foldl (fun colorSamples x =>
      let '(r, g, b) := cell (0, 0, 0) colorSamples y x in
      assign colorSamples y x (255 - r, 255 - g, 255 - b))
      colorSamples (seq 0 (length (default [] (colorSamples !! y)))))
    colorSamples (seq 0 (length colorSamples)).

Section Pipeline.
(** [resample src width height x y] is the pixel at [(x, y)] of a canvas of
    [width] by [height] after [drawImage(src, 0, 0, width, height)] with
    smoothing: the browser's resampling of the source. *)
Variable resample :
  Canvas.ImageData -> nat -> nat -> nat -> nat -> Canvas.pixel.

(** Resize ImageData to target dimensions using canvas. *)
Definition resizeImageData (imageData : Canvas.ImageData) (width height : nat)
  : outcome Canvas.ImageData :=
  (* Create source canvas *)
  let srcCanvas :=
    Canvas.putImageData
      (Canvas.create (Canvas.width imageData) (Canvas.height imageData))
      imageData 0 0 in
  (* Create dest canvas and draw scaled *)
  let dstCanvas :=
    Canvas.render width height (resample srcCanvas width height) in
  Canvas.getImageData dstCanvas 0 0 width height.

(** Get per-character RGB colors by sampling resized image. *)
Definition getColorSamples (imageData : Canvas.ImageData) (width height : nat)
  : outcome (rows (Z * Z * Z)) :=
  resized ← resizeImageData imageData width height;
  let data := Canvas.data resized in
  Returns
    (foldl (fun colors y =>
       colors ++ [
         foldl (fun row x =>
           let i := ((y * width + x) * 4)%nat in
           row ++ [(Canvas.byte data i, Canvas.byte data (i + 1),
                    Canvas.byte data (i + 2))])
           [] (seq 0 width) ])
       [] (seq 0 height)).

(** Get per-braille-character RGB colors by averaging 2x4 blocks. *)
Definition getBrailleColorSamples (imageData : Canvas.ImageData)
    (width height : nat) : outcome (rows (Z * Z * Z)) :=
  let pixelW := (width * 2)%nat in
  let pixelH := (height * 4)%nat in
  resized ← resizeImageData imageData pixelW pixelH;
  let data := Canvas.data resized in
  Returns
    (foldl (fun colors y =>
       colors ++ [
         foldl (fun row x =>
           let '(rSum, gSum, bSum) :=
             foldl (fun sums dy =>
               foldl (fun '(rSum, gSum, bSum) dx =>
                 let px := (x * 2 + dx)%nat in
                 let py := (y * 4 + dy)%nat in
                 let i := ((py * pixelW + px) * 4)%nat in
                 (rSum + Canvas.byte data i,
                  gSum + Canvas.byte data (i + 1),
                  bSum + Canvas.byte data (i + 2)))
                 sums (seq 0 2))
               (0, 0, 0) (seq 0 4) in
           let count := 8 in (* 2x4 block *)
           row ++ [(round (inject_Z rSum / inject_Z count),
                    round (inject_Z gSum / inject_Z count),
                    round (inject_Z bSum / inject_Z count))])
           [] (seq 0 width) ])
       [] (seq 0 height)).

(** Process a frame through the full pipeline. *)
Definition processFrame (imageData : Canvas.ImageData) (settings : Settings.t)
  : outcome Processed.t :=
  let charset := Settings.charset settings in
  let width := Settings.width settings in
  let height := Settings.height settings in
  let isBraille := String.eqb charset "braille" in
  (* Resize *)
  let resizedWidth := if isBraille then (width * 2)%nat else width in
  let resizedHeight := if isBraille then (height * 4)%nat else height in
  resized ← resizeImageData imageData resizedWidth resizedHeight;
  (* Grayscale *)
  let gray := toGrayscale resized in
  (* Brightness / contrast *)
  let gray :=
    adjustBrightnessContrast gray (Settings.brightness settings)
      (Settings.contrast settings) in
  (* Invert *)
  let gray := if Settings.invert settings then inverted gray else gray in
  plainLines ←
    (if isBraille then
       (* Braille: threshold to binary, optionally with dithering *)
       let gray :=
         if Settings.dither settings then Dither.floydSteinberg gray 2
         else gray in
       Charsets.brailleFromArray (thresholded gray)
     else
       (* Normal charsets *)
       gray ←
         (if Settings.dither settings then
            match Charsets.CHARSETS charset with
            | None => Throws TypeError
            | Some chars =>
                Returns (Dither.floydSteinberg gray (Z.of_nat (length chars)))
            end
          else Returns gray);
       Charsets.mapArrayToChars charset gray);
  (* Color samples *)
  colorSamples ←
    (if negb (String.eqb (Settings.colorMode settings) "none") then
       colorSamples ←
         (if isBraille then getBrailleColorSamples imageData width height
          else getColorSamples imageData width height);
       Returns (Some (if Settings.invert settings
                      then inverted_colors colorSamples
                      else colorSamples))
     else Returns None);
  Returns {| Processed.lines := plainLines;
             Processed.colors := colorSamples;
             Processed.width := width;
             Processed.height := height |}.

End Pipeline.

End Processor.

(** * Part II: properties *)

(** ** Loops over lists *)

Module JsFacts.
Import Js.

Lemma foldl_push {A B} (f : A -> B) (l : list A) (acc : list B) :
  foldl (fun lines a => lines ++ [f a]) acc l = acc ++ map f l.
Proof.
  revert acc; induction l as [|a l IH]; intros acc; simpl.
  - by rewrite app_nil_r.
  - by rewrite IH, <- app_assoc.
Qed.

Lemma foldl_append {A B} (f : A -> list B) (l : list A) (acc : list B) :
  foldl (fun line a => line ++ f a) acc l = acc ++ concat (map f l).
Proof.
  revert acc; induction l as [|a l IH]; intros acc; simpl.
  - by rewrite app_nil_r.
  - by rewrite IH, <- app_assoc.
Qed.

Lemma foldl_agree {A B} (f g : B -> A -> B) (l : list A) (b : B) :
  (forall b' a, a ∈ l -> f b' a = g b' a) -> foldl f b l = foldl g b l.
Proof.
  revert b; induction l as [|a l IH]; intros b Hfg; simpl; [done|].
  rewrite Hfg by constructor.
  apply IH. intros b' a' Ha'. apply Hfg. by constructor.
Qed.

Lemma for_of_app {S A} (body : S -> A -> outcome S) (l1 l2 : list A) (s : S) :
  for_of body (l1 ++ l2) s = (s' ← for_of body l1 s; for_of body l2 s').
Proof.
  revert s; induction l1 as [|a l1 IH]; intros s; simpl; [done|].
  destruct (body s a) as [s'|e]; simpl; [apply IH | done].
Qed.

Lemma mapM_returns {A B} (f : A -> outcome B) (g : A -> B) (l : list A) :
  (forall a, a ∈ l -> f a = Returns (g a)) -> mapM f l = Returns (map g l).
Proof.
  induction l as [|a l IH]; intros Hf; simpl; [done|].
  rewrite Hf by constructor. simpl.
  rewrite IH; [done|]. intros a' Ha'. apply Hf. by constructor.
Qed.

Lemma stepping_exact (n step : nat) :
  (0 < step)%nat ->
  stepping (n * step) step = map (fun k => (k * step)%nat) (seq 0 n).
Proof.
  intros Hstep. unfold stepping. do 2 f_equal.
  symmetry. apply Nat.div_unique with (r := (step - 1)%nat); lia.
Qed.

(** A grid of [h] rows of [w] cells. *)
Definition rect {A} (a : rows A) (h w : nat) : Prop :=
  length a = h /\ Forall (fun r => length r = w) a.

Lemma rect_lookup {A} (a : rows A) (h w y : nat) :
  rect a h w -> (y < h)%nat -> exists r, a !! y = Some r /\ length r = w.
Proof.
  intros [Hh Hw] Hy.
  destruct (lookup_lt_is_Some_2 a y ltac:(lia)) as [r Hr].
  exists r. split; [done|].
  by apply (Forall_lookup_1 _ _ _ _ Hw Hr).
Qed.

Lemma rect_first_row {A} (a : rows A) (h w : nat) :
  rect a h w -> (0 < h)%nat -> first_row_length a = w.
Proof.
  intros Hrect Hh. destruct (rect_lookup a h w 0 Hrect Hh) as (r & Hr & Hlen).
  destruct a; simpl in *; congruence.
Qed.

Lemma rect_alter {A} (g : list A -> list A) (a : rows A) (h w y : nat) :
  (forall r, length (g r) = length r) -> rect a h w -> rect (alter g y a) h w.
Proof.
  intros Hg [Hh Hw]. split; [by rewrite length_alter|].
  apply Forall_alter; [done|]. intros r _ Hr. by rewrite Hg.
Qed.

Lemma rect_cell {A} (d : A) (a : rows A) (h w y x : nat) :
  rect a h w -> (y < h)%nat -> (x < w)%nat ->
  (a !! y ≫= (.!! x)) = Some (cell d a y x).
Proof.
  intros Hrect Hy Hx. unfold cell.
  destruct (rect_lookup a h w y Hrect Hy) as (r & -> & Hr). simpl.
  destruct (lookup_lt_is_Some_2 r x ltac:(lia)) as [v ->]. done.
Qed.

(** [a[y][x] = f(a[y][x])] alters the cell. *)
Lemma insert_self {A} (f : A -> A) (d : A) (r : list A) (x : nat) :
  <[x := f (default d (r !! x))]> r = alter f x r.
Proof.
  revert x; induction r as [|v r IH]; intros [|x]; simpl; try done.
  f_equal. apply IH.
Qed.

Lemma assign_self {A} (f : A -> A) (d : A) (a : rows A) (y x : nat) :
  assign a y x (f (cell d a y x)) = alter (alter f x) y a.
Proof.
  unfold assign, cell. apply list_alter_ext; [|done].
  intros r Hr. rewrite Hr. simpl. apply insert_self.
Qed.

Lemma alter_past_end {A} (f : A -> A) (l : list A) (i : nat) :
  (length l <= i)%nat -> alter f i l = l.
Proof.
  revert i; induction l as [|v l IH]; intros [|i] Hi; simpl in *;
    try done; try lia.
  f_equal. apply IH. lia.
Qed.

(** A loop that alters the elements at [0 .. length l - 1] in turn. *)
Lemma foldl_alter_prefix {A} (g : A -> A) (l : list A) (n : nat) :
  foldl (fun l i => alter g i l) l (seq 0 n)
  = (g <$> take n l) ++ drop n l.
Proof.
  induction n as [|n IH]; [by rewrite drop_0|].
  rewrite seq_S, foldl_snoc, IH. simpl.
  destruct (l !! n) as [v|] eqn:Hv.
  - rewrite alter_app_r_alt
      by (rewrite length_fmap, length_take; apply lookup_lt_Some in Hv; lia).
    rewrite length_fmap, length_take.
    apply lookup_lt_Some in Hv as Hlt.
    replace (n - n `min` length l)%nat with 0%nat by lia.
    rewrite (drop_S _ _ _ Hv). simpl.
    rewrite (take_S_r _ _ _ Hv), fmap_app, <- app_assoc. done.
  - apply lookup_ge_None in Hv.
    rewrite !take_ge, !drop_ge, !app_nil_r by lia.
    apply alter_past_end. rewrite length_fmap. lia.
Qed.

Lemma foldl_alter_all {A} (g : A -> A) (l : list A) :
  foldl (fun l i => alter g i l) l (seq 0 (length l)) = g <$> l.
Proof.
  rewrite foldl_alter_prefix, take_ge, drop_ge, app_nil_r by lia. done.
Qed.

(** A loop that alters one element over and over alters it once. *)
Lemma foldl_alter_at {A B} (G : B -> A -> A) (y : nat) (l : list A)
    (xs : list B) :
  foldl (fun l x => alter (G x) y l) l xs
  = alter (fun r => foldl (fun r x => G x r) r xs) y l.
Proof.
  revert l; induction xs as [|x xs IH]; intros l; simpl.
  - symmetry. by apply list_alter_id.
  - rewrite IH, list_alter_alter_eq. done.
Qed.

(** The loop [for y < h, for x < w: a[y][x] = f(a[y][x])] on a grid. *)
Lemma cellwise_loop {A} (f : A -> A) (d : A) (a : rows A) (h w : nat) :
  rect a h w ->
  foldl (fun a y =>
    foldl (fun a x => assign a y x (f (cell d a y x))) a (seq 0 w))
    a (seq 0 h)
  = map (map f) a.
Proof.
  intros [Hh Hw].
  rewrite (foldl_agree _
             (fun a y => alter (fun r => foldl (fun r x => alter f x r) r
                                           (seq 0 w)) y a)).
  2:{ intros a' y _.
      rewrite (foldl_agree _ (fun a x => alter (alter f x) y a))
        by (intros; apply assign_self).
      apply foldl_alter_at. }
  rewrite <- Hh, foldl_alter_all.
  apply Forall_fmap_ext_1. eapply Forall_impl; [exact Hw|].
  intros r Hr. simpl in Hr. rewrite <- Hr. apply foldl_alter_all.
Qed.

End JsFacts.

(** ** dither.js *)

Module DitherFacts.
Import Js Dither JsFacts.

(** The error diffusion of the specification, cell by cell. *)

Definition quantize (step old : Q) : Q :=
  clamp01 (inject_Z (round (old / step)) * step).

Definition in_bounds (h w : nat) (y x : Z) : bool :=
  (0 <=? y) && (y <? Z.of_nat h) && (0 <=? x) && (x <? Z.of_nat w).

(** [grid[y][x] += e   (if y, x in bounds)]. *)
Definition add_in_bounds (h w : nat) (grid : rows Q) (y x : Z) (e : Q)
  : rows Q :=
  if in_bounds h w y x then add_assign grid (Z.to_nat y) (Z.to_nat x) e
  else grid.

Definition diffuse_cell (h w : nat) (step : Q) (grid : rows Q)
    (c : nat * nat) : rows Q :=
  let y := Z.of_nat c.1 in
  let x := Z.of_nat c.2 in
  let old := cell 0%Q grid c.1 c.2 in
  let quantized := quantize step old in
  let grid := assign grid c.1 c.2 quantized in
  let err := (old - quantized)%Q in
  let grid := add_in_bounds h w grid y (x + 1) (err * (7 # 16))%Q in
  let grid := add_in_bounds h w grid (y + 1) (x - 1) (err * (3 # 16))%Q in
  let grid := add_in_bounds h w grid (y + 1) x (err * (5 # 16))%Q in
  add_in_bounds h w grid (y + 1) (x + 1) (err * (1 # 16))%Q.

(** The cells in raster order: row after row, each from left to right. *)
Definition raster (h w : nat) : list (nat * nat) :=
  mjoin ((fun y => (fun x => (y, x)) <$> seq 0 w) <$> seq 0 h).

(** One pass in raster order, then the clamp of every cell. *)
Definition diffuse (step : Q) (grid : rows Q) : rows Q :=
  let h := length grid in
  let w := first_row_length grid in
  map (map clamp01) (foldl (diffuse_cell h w step) grid (raster h w)).

Lemma clamp01_range (v : Q) : (0 <= clamp01 v <= 1)%Q.
Proof.
  unfold clamp01. split.
  - apply Q.le_max_l.
  - apply Q.max_lub; [discriminate | apply Q.le_min_l].
Qed.

Lemma foldl_join {A B} (f : B -> A -> B) (ls : list (list A)) (b : B) :
  foldl f b (mjoin ls) = foldl (foldl f) b ls.
Proof.
  revert b; induction ls as [|l ls IH]; intros b; simpl; [done|].
  by rewrite foldl_app, IH.
Qed.

Lemma foldl_invariant {A B} (I : B -> Prop) (f : B -> A -> B) (l : list A)
    (b : B) :
  I b -> (forall b' a, I b' -> I (f b' a)) -> I (foldl f b l).
Proof.
  revert b; induction l as [|a l IH]; intros b Hb Hf; simpl; [done|].
  apply IH; [by apply Hf | done].
Qed.

Lemma raster_lookup (h w i : nat) :
  (i < h * w)%nat -> raster h w !! i = Some ((i / w)%nat, (i mod w)%nat).
Proof.
  intros Hi. assert (0 < w)%nat as Hw by lia.
  pose proof (Nat.div_mod_eq i w) as Hdm.
  pose proof (Nat.mod_upper_bound i w ltac:(lia)) as Hmod.
  assert (i / w < h)%nat as Hdiv by (apply Nat.Div0.div_lt_upper_bound; lia).
  unfold raster.
  replace i with ((i / w) * w + i mod w)%nat at 1 by lia.
  apply join_lookup_Some_same_length'; [|done|].
  - rewrite Forall_fmap. apply Forall_forall. intros y _. simpl.
    by rewrite length_fmap, length_seq.
  - eexists. rewrite list_lookup_fmap, lookup_seq_lt by done. simpl.
    split; [done|].
    by rewrite list_lookup_fmap, lookup_seq_lt.
Qed.

Lemma diffuse_at_cell (h w : nat) (step : Q) (img : rows Q) (y x : nat) :
  (y < h)%nat -> (x < w)%nat ->
  diffuse_at h w step img y x = diffuse_cell h w step img (y, x).
Proof.
  intros Hy Hx. unfold diffuse_at, diffuse_cell, add_in_bounds, in_bounds,
    quantize. cbn [fst snd].
  replace (Z.to_nat (Z.of_nat y)) with y by lia.
  replace (Z.to_nat (Z.of_nat y + 1)) with (y + 1)%nat by lia.
  replace (Z.to_nat (Z.of_nat x)) with x by lia.
  replace (Z.to_nat (Z.of_nat x + 1)) with (x + 1)%nat by lia.
  replace (Z.to_nat (Z.of_nat x - 1)) with (x - 1)%nat by lia.
  destruct (Nat.ltb_spec (x + 1) w), (Nat.ltb_spec (y + 1) h),
    (Z.leb_spec 0 (Z.of_nat x - 1));
    repeat match goal with
           | |- context [Z.leb ?a ?b] =>
               destruct (Z.leb_spec a b); try lia
           | |- context [Z.ltb ?a ?b] =>
               destruct (Z.ltb_spec a b); try lia
           end; reflexivity.
Qed.

Lemma add_assign_rect (a : rows Q) (h w y x : nat) (e : Q) :
  rect a h w -> rect (add_assign a y x e) h w.
Proof. apply rect_alter. intros r. apply length_alter. Qed.

Lemma assign_rect {A} (a : rows A) (h w y x : nat) (v : A) :
  rect a h w -> rect (assign a y x v) h w.
Proof. apply rect_alter. intros r. apply length_insert. Qed.

Lemma diffuse_at_rect (h w : nat) (step : Q) (img : rows Q) (y x : nat) :
  rect img h w -> rect (diffuse_at h w step img y x) h w.
Proof.
  intros Hrect. unfold diffuse_at.
  repeat match goal with
         | |- context [if ?b then _ else _] => destruct b
         end;
    repeat first [apply add_assign_rect | apply assign_rect]; done.
Qed.

(** The first loop nest of [floydSteinberg] is the pass in raster order. *)
Lemma diffusion_loop (h w : nat) (step : Q) (img : rows Q) :
  foldl (fun img y =>
    foldl (fun img x => diffuse_at h w step img y x) img (seq 0 w))
    img (seq 0 h)
  = foldl (diffuse_cell h w step) img (raster h w).
Proof.
  unfold raster. rewrite foldl_join, foldl_fmap.
  apply foldl_agree. intros img' y Hy%elem_of_seq.
  rewrite foldl_fmap. apply foldl_agree. intros img'' x Hx%elem_of_seq.
  apply diffuse_at_cell; lia.
Qed.

Lemma floydSteinberg_diffuse (gray : rows Q) (levels : Z) (h w : nat) :
  rect gray h w -> first_row_length gray = w ->
  floydSteinberg gray levels = diffuse (step_for levels) gray
  /\ rect (floydSteinberg gray levels) h w.
Proof.
  intros Hrect Hw. unfold floydSteinberg, diffuse.
  destruct Hrect as [Hh Hrows]. rewrite Hw, Hh.
  assert (rect (foldl (fun img y =>
            foldl (fun img x => diffuse_at h w (step_for levels) img y x)
              img (seq 0 w)) gray (seq 0 h)) h w) as HD.
  { apply foldl_invariant; [done|]. intros img y Himg.
    apply foldl_invariant; [done|]. intros img' x Himg'.
    by apply diffuse_at_rect. }
  rewrite (cellwise_loop clamp01 0%Q _ h w HD).
  rewrite diffusion_loop in *. split; [done|].
  destruct HD as [HDh HDw]. split; [by rewrite length_map|].
  rewrite Forall_forall. intros r Hr%list_elem_of_In.
  apply in_map_iff in Hr. destruct Hr as (r' & <- & Hr'%list_elem_of_In).
  rewrite length_map. rewrite Forall_forall in HDw. by apply HDw.
Qed.

(** C1. On a grid of [h] rows of [w] cells and for [levels >= 1],
    [floydSteinberg] is one pass over the cells in row-major order (the
    [i]-th cell visited is [(i / w, i mod w)]) on a copy of the input,
    which at each cell stores [clamp (round (old / step) * step, 0, 1)] with
    [step = 1 / (levels - 1)] for [levels > 1] and [step = 1] for
    [levels = 1], and adds [err * 7/16], [err * 3/16], [err * 5/16] and
    [err * 1/16] of [err = old - quantized] to the right, down-left, down
    and down-right neighbours that are in bounds; the pass is followed by a
    clamp, so that every cell of the result lies in [0, 1]. *)
Theorem floydSteinberg_diffuses (gray : rows Q) (levels : Z) (h w : nat) :
  rect gray h w -> first_row_length gray = w -> 1 <= levels ->
  (1 < levels ->
     floydSteinberg gray levels
     = diffuse (1 / inject_Z (levels - 1))%Q gray)
  /\ (levels = 1 -> floydSteinberg gray levels = diffuse 1%Q gray)
  /\ (forall i, (i < h * w)%nat ->
        raster h w !! i = Some ((i / w)%nat, (i mod w)%nat))
  /\ rect (floydSteinberg gray levels) h w
  /\ (forall y x, (y < h)%nat -> (x < w)%nat ->
        exists v,
          (floydSteinberg gray levels !! y ≫= (.!! x)) = Some v
          /\ (0 <= v <= 1)%Q).
Proof.
  intros Hrect Hw Hlevels.
  destruct (floydSteinberg_diffuse gray levels h w Hrect Hw) as [Heq Hr].
  split; [|split; [|split; [|split]]].
  - intros H1. rewrite Heq. unfold step_for.
    by destruct (Z.ltb_spec 1 levels); [|lia].
  - intros ->. by rewrite Heq.
  - intros i Hi. by apply raster_lookup.
  - done.
  - intros y x Hy Hx.
    exists (cell 0%Q (floydSteinberg gray levels) y x).
    split; [by apply (rect_cell _ _ h w)|].
    rewrite Heq. unfold diffuse, cell.
    change map with (@fmap list _).
    rewrite list_lookup_fmap.
    destruct (foldl _ gray _ !! y) as [r|]; simpl; [|by split].
    rewrite list_lookup_fmap.
    destruct (r !! x) as [v|]; simpl; [apply clamp01_range | by split].
Qed.

(** Two levels on a grid of 1/2: a checkerboard. *)
Example floydSteinberg_checkerboard :
  floydSteinberg [[(1 # 2); (1 # 2)]; [(1 # 2); (1 # 2)]]%Q 2
  = [[1; 0]; [0; 1]]%Q.
Proof. reflexivity. Qed.

(** The theorem at a 2 by 2 grid of 1/2 and two levels. *)
Definition half_grid : rows Q :=
  [[(1 # 2)%Q; (1 # 2)%Q]; [(1 # 2)%Q; (1 # 2)%Q]].

Lemma floydSteinberg_diffuses_witness :
  rect half_grid 2 2 /\ first_row_length half_grid = 2%nat /\ 1 <= 2
  /\ floydSteinberg half_grid 2 = diffuse (1 / inject_Z (2 - 1))%Q half_grid
  /\ rect (floydSteinberg half_grid 2) 2 2.
Proof.
  assert (Hrect : rect half_grid 2 2)
    by (split; [reflexivity | repeat constructor]).
  assert (Hlevels : 1 <= 2) by lia.
  split; [exact Hrect|]. split; [reflexivity|]. split; [exact Hlevels|].
  destruct (floydSteinberg_diffuses half_grid 2 2 2 Hrect eq_refl Hlevels)
    as (Hmany & _ & _ & Hshape & _).
  split; [apply Hmany; lia | exact Hshape].
Defined.

(** C10, as the claim states it, fails: with [levels = 0] the call does not
    fail, it returns a grid. *)
Lemma floydSteinberg_accepts_levels_0 :
  0 < 1
  /\ floydSteinberg_call [[(1 # 2)%Q]] 0 = Returns [[1%Q]]
  /\ ~ (exists e, floydSteinberg_call [[(1 # 2)%Q]] 0 = Throws e).
Proof.
  split; [lia|]. split; [reflexivity|].
  intros [e He]. discriminate He.
Qed.

(** C10, amended. Called with [levels < 1], [floydSteinberg] does not fail:
    it takes [step = 1], as it does for [levels = 1], and returns the grid
    it returns for [levels = 1]. *)
Theorem floydSteinberg_levels_below_1 (gray : rows Q) (levels : Z) :
  levels < 1 ->
  step_for levels = 1%Q
  /\ floydSteinberg_call gray levels = Returns (floydSteinberg gray 1).
Proof.
  intros Hlevels.
  assert (step_for levels = 1%Q) as Hstep
    by (unfold step_for; destruct (Z.ltb_spec 1 levels); [lia | done]).
  split; [done|].
  unfold floydSteinberg_call, floydSteinberg. by rewrite Hstep.
Qed.

(** The amended claim at [levels = -3]. *)
Lemma floydSteinberg_levels_below_1_witness :
  -3 < 1
  /\ floydSteinberg_call [[(1 # 4)%Q; (3 # 4)%Q]] (-3)
     = Returns (floydSteinberg [[(1 # 4)%Q; (3 # 4)%Q]] 1).
Proof.
  assert (H : -3 < 1) by lia.
  split; [exact H|].
  exact (proj2 (floydSteinberg_levels_below_1 _ (-3) H)).
Defined.

End DitherFacts.

(** ** charsets.js *)

Module CharsetsFacts.
Import Js Charsets JsFacts.

Definition b2z (b : bool) : Z := if b then 1 else 0.

(** The bitmask the packing rule assigns to a block of dots. *)
Definition bitmask (d00 d01 d10 d11 d20 d21 d30 d31 : bool) : Z :=
  b2z d00 * 2 ^ 0 + b2z d01 * 2 ^ 3
  + b2z d10 * 2 ^ 1 + b2z d11 * 2 ^ 4
  + b2z d20 * 2 ^ 2 + b2z d21 * 2 ^ 5
  + b2z d30 * 2 ^ 6 + b2z d31 * 2 ^ 7.

Lemma brailleCode_range (dots : rows bool) : 0 <= brailleCode dots < 256.
Proof.
  unfold brailleCode. cbn [foldl seq].
  repeat match goal with
         | |- context [cell false dots ?r ?c] =>
             destruct (cell false dots r c)
         end; vm_compute; split; congruence.
Qed.

Lemma brailleChar_unit (dots : rows bool) :
  brailleChar dots = [BRAILLE_BASE + brailleCode dots].
Proof.
  unfold brailleChar, fromCharCode. f_equal.
  pose proof (brailleCode_range dots). unfold BRAILLE_BASE.
  apply Z.mod_small. lia.
Qed.

(** C4. A block of 4 rows by 2 columns of dots is encoded as the single code
    unit U+2800 + bitmask, where the dot at (row 0, col 0) is bit 0,
    (0,1) bit 3, (1,0) bit 1, (1,1) bit 4, (2,0) bit 2, (2,1) bit 5,
    (3,0) bit 6 and (3,1) bit 7; no other bit is set. The block with only
    the dots (0,0) and (3,1) gives U+2800 + 0b10000001. *)
Theorem brailleChar_bitmask (d00 d01 d10 d11 d20 d21 d30 d31 : bool) :
  let mask := bitmask d00 d01 d10 d11 d20 d21 d30 d31 in
  brailleChar [[d00; d01]; [d10; d11]; [d20; d21]; [d30; d31]]
    = [0x2800 + mask]
  /\ (Z.testbit mask 0 = d00 /\ Z.testbit mask 3 = d01
      /\ Z.testbit mask 1 = d10 /\ Z.testbit mask 4 = d11
      /\ Z.testbit mask 2 = d20 /\ Z.testbit mask 5 = d21
      /\ Z.testbit mask 6 = d30 /\ Z.testbit mask 7 = d31)
  /\ 0 <= mask < 2 ^ 8
  /\ brailleChar [[true; false]; [false; false]; [false; false]; [false; true]]
     = [0x2800 + 0x81].
Proof.
  destruct d00, d01, d10, d11, d20, d21, d30, d31; vm_compute;
    repeat split; congruence.
Qed.

(** The index the mapping rule assigns to a luminance on a ramp of [len]
    characters: [clamp (floor (v * (len - 1)), 0, len - 1)]. *)
Definition clamp (i lo hi : Z) : Z := Z.max lo (Z.min i hi).
Definition ramp_index (len : Z) (v : Q) : Z :=
  clamp (Qfloor (v * inject_Z (len - 1))) 0 (len - 1).

Lemma ramp_index_range (len : Z) (v : Q) :
  0 < len -> 0 <= ramp_index len v < len.
Proof. unfold ramp_index, clamp. lia. Qed.

Lemma CHARSETS_nonempty (charset : string) (chars : str) :
  CHARSETS charset = Some chars -> (0 < length chars)%nat.
Proof.
  unfold CHARSETS.
  repeat match goal with
         | |- context [String.eqb ?a ?b] => destruct (String.eqb a b)
         end; intros Heq; inversion Heq; subst; vm_compute; lia.
Qed.

(** The character emitted for [v]. *)
Definition ramp_char (chars : str) (v : Q) : Z :=
  default 0 (chars !! Z.to_nat (ramp_index (Z.of_nat (length chars)) v)).

Lemma ramp_char_lookup (chars : str) (v : Q) :
  (0 < length chars)%nat ->
  chars !! Z.to_nat (ramp_index (Z.of_nat (length chars)) v)
  = Some (ramp_char chars v).
Proof.
  intros Hlen. unfold ramp_char.
  pose proof (ramp_index_range (Z.of_nat (length chars)) v ltac:(lia)) as Hr.
  destruct (lookup_lt_is_Some_2 chars
              (Z.to_nat (ramp_index (Z.of_nat (length chars)) v))
              ltac:(lia)) as [c Hc].
  by rewrite Hc.
Qed.

Lemma map_row (chars : str) (row : list Q) :
  (0 < length chars)%nat ->
  foldl (append_char chars (Z.of_nat (length chars) - 1)) [] row
  = map (ramp_char chars) row.
Proof.
  intros Hlen.
  change (append_char chars (Z.of_nat (length chars) - 1))
    with (fun line v =>
            line ++ index_as_string chars
                      (ramp_index (Z.of_nat (length chars)) v)).
  rewrite foldl_append. cbn [app].
  induction row as [|v row IH]; [done|].
  cbn [map concat]. rewrite IH. unfold index_as_string.
  by rewrite ramp_char_lookup.
Qed.

(** C7. For a registered charset with ramp [chars] of length [len], the
    mapper returns one line per row and one character per cell, and the
    character of a cell of luminance [v] is
    [chars[clamp (floor (v * (len - 1)), 0, len - 1)]]. For the 10-character
    ramp "simple", luminance 0 gives [ramp[0]], 1 gives [ramp[9]] and 1/2
    gives [ramp[4]], as [floor (1/2 * 9) = 4]. *)
Theorem mapArrayToChars_ramp (charset : string) (chars : str)
    (luminanceRows : rows Q) :
  CHARSETS charset = Some chars ->
  exists lines,
    mapArrayToChars charset luminanceRows = Returns lines
    /\ length lines = length luminanceRows
    /\ (forall y row, luminanceRows !! y = Some row ->
        exists line,
          lines !! y = Some line
          /\ length line = length row
          /\ forall x v, row !! x = Some v ->
             is_Some (line !! x)
             /\ line !! x
                = chars !! Z.to_nat
                    (clamp (Qfloor (v * inject_Z (Z.of_nat (length chars) - 1)))
                       0 (Z.of_nat (length chars) - 1)))
    /\ (exists ramp c0 c4 c9,
         CHARSETS "simple" = Some ramp
         /\ length ramp = 10%nat
         /\ ramp !! 0%nat = Some c0
         /\ ramp !! 4%nat = Some c4
         /\ ramp !! 9%nat = Some c9
         /\ Qfloor ((1 # 2) * inject_Z 9) = 4
         /\ mapArrayToChars "simple" [[0%Q; 1%Q; (1 # 2)%Q]]
            = Returns [[c0; c9; c4]]).
Proof.
  intros Hset. pose proof (CHARSETS_nonempty _ _ Hset) as Hlen.
  exists (map (map (ramp_char chars)) luminanceRows).
  split; [|split; [|split]].
  - unfold mapArrayToChars. rewrite Hset.
    rewrite foldl_push. cbn [app]. f_equal.
    apply map_ext. intros row. by apply map_row.
  - by rewrite length_map.
  - intros y row Hrow. exists (map (ramp_char chars) row).
    split; [|split].
    + change map with (@fmap list _) at 1. by rewrite list_lookup_fmap, Hrow.
    + by rewrite length_map.
    + intros x v Hv.
      assert (map (ramp_char chars) row !! x = Some (ramp_char chars v)) as ->.
      { change map with (@fmap list _). by rewrite list_lookup_fmap, Hv. }
      split; [by eexists|].
      symmetry. by apply ramp_char_lookup.
  - eexists _, _, _, _. vm_compute. repeat split; reflexivity.
Qed.

(** The theorem at the charset "blocks" and a single cell of luminance 1/2. *)
Lemma mapArrayToChars_ramp_witness :
  CHARSETS "blocks" = Some [32; 0x2581; 0x2582; 0x2583; 0x2584; 0x2585;
                            0x2586; 0x2587; 0x2588]
  /\ exists lines,
       mapArrayToChars "blocks" [[(1 # 2)%Q]] = Returns lines
       /\ length lines = 1%nat.
Proof.
  split; [reflexivity|].
  destruct (mapArrayToChars_ramp "blocks" _ [[(1 # 2)%Q]] eq_refl)
    as (lines & Hlines & Hlength & _).
  exists lines. split; assumption.
Defined.


(** The rows the padding block builds. *)
Definition padded_rows (binary : rows Z) (h w newH newW : nat) : rows Z :=
  map (fun y =>
         if (y <? h)%nat
         then default [] (binary !! y) ++ replicate (newW - w) 0
         else replicate newW 0) (seq 0 newH).

Lemma pad_returns (binary : rows Z) (h w newH newW : nat) :
  rect binary h w -> (w <= newW)%nat ->
  pad binary h newH newW = Returns (padded_rows binary h w newH newW).
Proof.
  intros Hrect Hw. unfold pad, padded_rows.
  apply mapM_returns. intros y _.
  destruct (Nat.ltb_spec y h) as [Hy|Hy]; [|done].
  destruct (rect_lookup _ _ _ _ Hrect Hy) as (r & -> & Hr). simpl.
  unfold TypedArray_set. rewrite length_replicate, Hr.
  destruct (Nat.ltb_spec newW w); [lia|].
  by rewrite drop_replicate.
Qed.

Lemma padded_rows_rect (binary : rows Z) (h w newH newW : nat) :
  rect binary h w -> (w <= newW)%nat ->
  rect (padded_rows binary h w newH newW) newH newW.
Proof.
  intros Hrect Hw. unfold padded_rows. split.
  - by rewrite length_map, length_seq.
  - rewrite Forall_forall. intros r Hin. apply list_elem_of_In in Hin.
    apply in_map_iff in Hin. destruct Hin as (y & <- & _).
    destruct (Nat.ltb_spec y h) as [Hy|Hy].
    + destruct (rect_lookup _ _ _ _ Hrect Hy) as (r & -> & Hr). simpl.
      rewrite length_app, length_replicate. lia.
    + by rewrite length_replicate.
Qed.

Lemma padded_rows_cell (binary : rows Z) (h w newH newW y x : nat) :
  rect binary h w -> (h <= newH)%nat ->
  cell 0 (padded_rows binary h w newH newW) y x
  = if (y <? h)%nat && (x <? w)%nat then cell 0 binary y x else 0.
Proof.
  intros Hrect Hh. unfold cell, padded_rows.
  change map with (@fmap list _). rewrite list_lookup_fmap.
  destruct (Nat.ltb_spec y h) as [Hy|Hy]; simpl.
  - rewrite lookup_seq_lt by lia. simpl.
    destruct (Nat.ltb_spec y h); [|lia].
    destruct (rect_lookup _ _ _ _ Hrect Hy) as (r & -> & Hr). simpl.
    destruct (Nat.ltb_spec x w) as [Hx|Hx].
    + by rewrite lookup_app_l by lia.
    + rewrite lookup_app_r by lia.
      destruct (replicate (newW - w) 0 !! (x - length r)%nat) as [z|] eqn:Hz;
        [|done].
      apply lookup_replicate in Hz. by destruct Hz as [-> _].
  - destruct (seq 0 newH !! y) as [y'|] eqn:Hy'; simpl; [|done].
    apply lookup_seq in Hy'. destruct Hy' as [-> _]. simpl.
    destruct (Nat.ltb_spec y h); [lia|].
    destruct (replicate newW 0 !! x) as [z|] eqn:Hz; [|done].
    apply lookup_replicate in Hz. by destruct Hz as [-> _].
Qed.

Lemma pad_amount (n m : nat) :
  (0 < m)%nat ->
  let p := ((m - n mod m) mod m)%nat in
  ((n + p) mod m = 0 /\ p < m /\ (p = 0 <-> n mod m = 0))%nat.
Proof.
  intros Hm p. subst p.
  pose proof (Nat.mod_upper_bound n m ltac:(lia)) as Hr.
  pose proof (Nat.div_mod_eq n m) as Hn.
  destruct (Nat.eq_dec (n mod m)%nat 0%nat) as [H0|H0].
  - rewrite H0, Nat.sub_0_r, Nat.Div0.mod_same, Nat.add_0_r. lia.
  - rewrite (Nat.mod_small (m - n mod m) m) by lia.
    split; [|lia].
    symmetry. apply Nat.mod_unique with (q := S (n / m)%nat); lia.
Qed.

Lemma concat_units {A B} (f : A -> B) (l : list A) :
  concat (map (fun a => [f a]) l) = map f l.
Proof. induction l as [|a l IH]; simpl; [done | by rewrite IH]. Qed.

(** The lines the encoding loop produces from a grid of [4 * n] rows and
    [2 * m] columns. *)
Lemma encode_lines (binary : rows Z) (n m : nat) :
  foldl (fun lines y =>
    lines ++ [foldl (fun lineChars x =>
                lineChars ++ brailleChar (dots_at binary y x))
                [] (stepping (m * 2) 2)])
    [] (stepping (n * 4) 4)
  = map (fun i =>
      map (fun j =>
        BRAILLE_BASE + brailleCode (dots_at binary (i * 4) (j * 2)))
        (seq 0 m)) (seq 0 n).
Proof.
  rewrite foldl_push. cbn [app].
  rewrite !stepping_exact by lia. rewrite map_map.
  apply map_ext. intros i.
  rewrite foldl_append. cbn [app].
  rewrite map_map.
  rewrite (map_ext _ (fun j => [BRAILLE_BASE
              + brailleCode (dots_at binary (i * 4) (j * 2))]))
    by (intros j; apply brailleChar_unit).
  apply concat_units.
Qed.

Lemma padded_input_pads (binary : rows Z) (h w : nat) :
  rect binary h w -> first_row_length binary = w ->
  (h mod 4 <> 0 \/ w mod 2 <> 0)%nat ->
  exists newH newW,
    padded_input binary
    = Returns (padded_rows binary h w newH newW, newH, newW)
    /\ (newH mod 4 = 0 /\ h <= newH < h + 4)%nat
    /\ (newW mod 2 = 0 /\ w <= newW < w + 2)%nat.
Proof.
  intros Hrect Hw Hpad.
  destruct (pad_amount h 4 ltac:(lia)) as (HH1 & HH2 & HH3).
  destruct (pad_amount w 2 ltac:(lia)) as (HW1 & HW2 & HW3).
  exists (h + (4 - h mod 4) mod 4)%nat, (w + (2 - w mod 2) mod 2)%nat.
  split; [|lia].
  unfold padded_input. rewrite Hw. destruct Hrect as [Hh Hrows].
  rewrite Hh.
  replace ((0 <? (4 - h mod 4) mod 4)%nat || (0 <? (2 - w mod 2) mod 2)%nat)
    with true.
  2:{ symmetry. apply orb_true_iff. rewrite !Nat.ltb_lt. lia. }
  rewrite (pad_returns binary h w _ _ (conj Hh Hrows)) by lia.
  reflexivity.
Qed.

(** C6. A grid of [h] rows and [w] columns with [h] not a multiple of 4 or
    [w] not a multiple of 2 is padded to the next multiples [newH] and
    [newW]: every cell of the input keeps its coordinates, every other cell
    of the padded grid is 0 and reads as an unset dot, and the encoder
    returns [newH / 4] lines of [newW / 2] braille characters, each the
    packing of its block of the padded grid. A grid of 5 rows and 3 columns
    is padded to 8 by 4 and gives 2 lines of 2 characters. *)
Theorem brailleFromArray_pads (binary : rows Z) (h w : nat) :
  rect binary h w -> first_row_length binary = w ->
  (h mod 4 <> 0 \/ w mod 2 <> 0)%nat ->
  exists padded newH newW lines,
    padded_input binary = Returns (padded, newH, newW)
    /\ (newH mod 4 = 0 /\ h <= newH < h + 4)%nat
    /\ (newW mod 2 = 0 /\ w <= newW < w + 2)%nat
    /\ rect padded newH newW
    /\ (forall y x,
         cell 0 padded y x
         = if (y <? h)%nat && (x <? w)%nat then cell 0 binary y x else 0)
    /\ (forall y x, (y < newH)%nat -> (x < newW)%nat ->
         (h <= y \/ w <= x)%nat ->
         (padded !! y ≫= (.!! x)) = Some 0
         /\ (0 <? cell 0 padded y x) = false)
    /\ brailleFromArray binary = Returns lines
    /\ length lines = (newH / 4)%nat
    /\ (forall i, (i < newH / 4)%nat ->
         exists line,
           lines !! i = Some line
           /\ length line = (newW / 2)%nat
           /\ forall j, (j < newW / 2)%nat ->
              line !! j
              = Some (BRAILLE_BASE
                      + brailleCode (dots_at padded (i * 4) (j * 2))))
    /\ (h = 5%nat -> w = 3%nat ->
        newH = 8%nat /\ newW = 4%nat /\ length lines = 2%nat
        /\ Forall (fun line => length line = 2%nat) lines).
Proof.
  intros Hrect Hw Hpad.
  destruct (padded_input_pads binary h w Hrect Hw Hpad)
    as (newH & newW & Hin & HnewH & HnewW).
  set (padded := padded_rows binary h w newH newW) in *.
  assert (Hprect : rect padded newH newW)
    by (apply padded_rows_rect; [done | lia]).
  assert (Hcell : forall y x,
             cell 0 padded y x
             = if (y <? h)%nat && (x <? w)%nat then cell 0 binary y x else 0)
    by (intros; apply padded_rows_cell; [done | lia]).
  set (n := (newH / 4)%nat). set (m := (newW / 2)%nat).
  assert (HnH : newH = (n * 4)%nat).
  { pose proof (Nat.div_mod_eq newH 4). subst n. lia. }
  assert (HmW : newW = (m * 2)%nat).
  { pose proof (Nat.div_mod_eq newW 2). subst m. lia. }
  set (lines := map (fun i =>
                  map (fun j =>
                    BRAILLE_BASE
                    + brailleCode (dots_at padded (i * 4) (j * 2)))
                    (seq 0 m)) (seq 0 n)).
  assert (Hlen : length lines = n)
    by (subst lines; by rewrite length_map, length_seq).
  assert (Hline : forall i, (i < n)%nat ->
            lines !! i
            = Some (map (fun j =>
                      BRAILLE_BASE
                      + brailleCode (dots_at padded (i * 4) (j * 2)))
                      (seq 0 m))).
  { intros i Hi. subst lines. change map with (@fmap list _) at 1.
    rewrite list_lookup_fmap, lookup_seq_lt by done. reflexivity. }
  exists padded, newH, newW, lines.
  repeat match goal with |- _ /\ _ => split end; try done; try lia.
  - intros y x Hy Hx Hout.
    assert (Hz : cell 0 padded y x = 0).
    { rewrite Hcell.
      destruct (Nat.ltb_spec y h), (Nat.ltb_spec x w); simpl; try done; lia. }
    split; [|by rewrite Hz].
    destruct (rect_lookup _ _ _ _ Hprect Hy) as (r & Hr & Hrlen).
    unfold cell in Hz. rewrite Hr in *. simpl in *.
    destruct (lookup_lt_is_Some_2 r x ltac:(lia)) as [z Hzz].
    rewrite Hzz in *. simpl in Hz. by subst z.
  - unfold brailleFromArray. rewrite Hin. simpl.
    f_equal. rewrite HnH, HmW. apply encode_lines.
  - intros i Hi. eexists. split; [by apply Hline|].
    split; [by rewrite length_map, length_seq|].
    intros j Hj. change map with (@fmap list _).
    rewrite list_lookup_fmap, lookup_seq_lt by done. reflexivity.
  - intros -> ->.
    assert (newH = 8%nat) as HH8.
    { destruct HnewH as [Hmod Hb].
      assert (newH = 5 \/ newH = 6 \/ newH = 7 \/ newH = 8)%nat
        as [-> | [-> | [-> | ->]]] by lia; simpl in Hmod; lia. }
    assert (newW = 4%nat) as HW4.
    { destruct HnewW as [Hmod Hb].
      assert (newW = 3 \/ newW = 4)%nat as [-> | ->] by lia;
        simpl in Hmod; lia. }
    split; [done|]. split; [done|]. split.
    + subst n. rewrite Hlen, HH8. reflexivity.
    + rewrite Forall_forall. intros line Hl. apply list_elem_of_In in Hl.
      subst lines. apply in_map_iff in Hl. destruct Hl as (i & <- & _).
      rewrite length_map, length_seq. subst m. rewrite HW4. reflexivity.
Qed.

Definition five_by_three : rows Z :=
  [[1; 0; 1]; [0; 1; 0]; [1; 1; 1]; [0; 0; 0]; [1; 0; 1]].

Example brailleFromArray_five_by_three :
  brailleFromArray five_by_three
  = Returns [[0x2835; 0x2805]; [0x2801; 0x2801]].
Proof. reflexivity. Qed.

(** The theorem at a grid of 5 rows and 3 columns. *)
Lemma brailleFromArray_pads_witness :
  rect five_by_three 5 3
  /\ first_row_length five_by_three = 3%nat
  /\ ((5 mod 4 <> 0)%nat \/ (3 mod 2 <> 0)%nat)
  /\ exists lines,
       brailleFromArray five_by_three = Returns lines
       /\ length lines = 2%nat.
Proof.
  assert (Hrect : rect five_by_three 5 3)
    by (split; [reflexivity | repeat constructor]).
  assert (Hpad : (5 mod 4 <> 0)%nat \/ (3 mod 2 <> 0)%nat)
    by (left; vm_compute; discriminate).
  split; [exact Hrect|]. split; [reflexivity|]. split; [exact Hpad|].
  destruct (brailleFromArray_pads five_by_three 5 3 Hrect eq_refl Hpad)
    as (padded & newH & newW & lines & _ & _ & _ & _ & _ & _ & Hret & _ & _
        & Hfive).
  exists lines. split; [exact Hret|].
  by destruct (Hfive eq_refl eq_refl) as (_ & _ & Hlen & _).
Defined.

End CharsetsFacts.

(** ** The 2D canvas *)

Module CanvasFacts.
Import Js JsFacts Canvas.

(** A bitmap of [w] by [h] pixels. *)
Definition sized (w h : nat) (c : ImageData) : Prop :=
  width c = w /\ height c = h /\ length (data c) = (w * h * 4)%nat.

Lemma index_split (w h x y k : nat) :
  (x < w)%nat -> (y < h)%nat -> (k < 4)%nat ->
  (((y * w + x) * 4 + k) / 4 = y * w + x
   /\ ((y * w + x) * 4 + k) mod 4 = k
   /\ (y * w + x) / w = y
   /\ (y * w + x) mod w = x
   /\ (y * w + x) * 4 + k < w * h * 4)%nat.
Proof.
  intros Hx Hy Hk. repeat split.
  - symmetry. apply Nat.div_unique with (r := k); lia.
  - symmetry. apply Nat.mod_unique with (q := (y * w + x)%nat); lia.
  - symmetry. apply Nat.div_unique with (r := x); lia.
  - symmetry. apply Nat.mod_unique with (q := y); lia.
  - assert (y * w + x < h * w)%nat by nia. lia.
Qed.

Lemma index_join (w h i : nat) :
  (i < w * h * 4)%nat ->
  ((i / 4) mod w < w /\ (i / 4) / w < h
   /\ (((i / 4) / w) * w + (i / 4) mod w) * 4 + i mod 4 = i
   /\ i mod 4 < 4)%nat.
Proof.
  intros Hi. assert (0 < w)%nat as Hw by lia.
  pose proof (Nat.div_mod_eq i 4) as H4.
  pose proof (Nat.mod_upper_bound i 4 ltac:(lia)) as Hm4.
  pose proof (Nat.div_mod_eq (i / 4) w) as Hdw.
  pose proof (Nat.mod_upper_bound (i / 4) w ltac:(lia)) as Hmw.
  repeat split; try lia.
  apply Nat.Div0.div_lt_upper_bound.
  apply Nat.Div0.div_lt_upper_bound. lia.
Qed.

Lemma channels (p : pixel) :
  (channel p 0, channel p 1, channel p 2, channel p 3) = p.
Proof. by destruct p as [[[r g] b] a]. Qed.

Lemma render_sized (w h : nat) (f : nat -> nat -> pixel) :
  sized w h (render w h f).
Proof. unfold sized, render. simpl. by rewrite length_map, length_seq. Qed.

Lemma render_byte (w h : nat) (f : nat -> nat -> pixel) (x y k : nat) :
  (x < w)%nat -> (y < h)%nat -> (k < 4)%nat ->
  byte (data (render w h f)) ((y * w + x) * 4 + k) = channel (f x y) k.
Proof.
  intros Hx Hy Hk.
  destruct (index_split w h x y k Hx Hy Hk) as (E1 & E2 & E3 & E4 & Hlt).
  unfold byte, render. cbn [data]. change map with (@fmap list _).
  rewrite list_lookup_fmap, lookup_seq_lt, Nat.add_0_l by done.
  cbn [fmap option_fmap option_map default id].
  by rewrite E1, E2, E3, E4.
Qed.

Lemma pixel_at_render (w h : nat) (f : nat -> nat -> pixel) (x y : nat) :
  (x < w)%nat -> (y < h)%nat -> pixel_at (render w h f) x y = f x y.
Proof.
  intros Hx Hy. unfold pixel_at.
  change (width (render w h f)) with w.
  rewrite <- (Nat.add_0_r ((y * w + x) * 4)) at 1.
  rewrite !render_byte by (done || lia).
  apply channels.
Qed.

Lemma render_ext (w h : nat) (f g : nat -> nat -> pixel) :
  (forall x y, (x < w)%nat -> (y < h)%nat -> f x y = g x y) ->
  render w h f = render w h g.
Proof.
  intros Hfg. unfold render. f_equal.
  apply map_ext_in. intros i Hi%in_seq.
  destruct (index_join w h i ltac:(lia)) as (Hx & Hy & _).
  by rewrite Hfg.
Qed.

Lemma render_pixels (w h : nat) (c : ImageData) :
  sized w h c -> render w h (pixel_at c) = c.
Proof.
  intros (Hw & Hh & Hlen). destruct c as [cw ch d]. simpl in *. subst cw ch.
  unfold render. f_equal. apply list_eq. intros i.
  change map with (@fmap list _). rewrite list_lookup_fmap.
  destruct (Nat.lt_ge_cases i (w * h * 4)) as [Hi|Hi].
  - rewrite lookup_seq_lt, Nat.add_0_l by done.
    cbn [fmap option_fmap option_map].
    destruct (index_join w h i Hi) as (Hx & Hy & Hjoin & Hk).
    destruct (lookup_lt_is_Some_2 d i ltac:(lia)) as [b Hb].
    rewrite Hb. f_equal. unfold pixel_at, byte. cbn [width data].
    set (j := (((i / 4) / w * w + (i / 4) mod w) * 4)%nat) in *.
    destruct (i mod 4)%nat as [|[|[|[|k]]]] eqn:Hmod; cbn [channel];
      try lia.
    + replace j with i by lia. by rewrite Hb.
    + replace (j + 1)%nat with i by lia. by rewrite Hb.
    + replace (j + 2)%nat with i by lia. by rewrite Hb.
    + replace (j + 3)%nat with i by lia. by rewrite Hb.
  - rewrite lookup_seq_ge by done. simpl.
    symmetry. apply lookup_ge_None. lia.
Qed.

Lemma inside_origin (w h x y : nat) :
  (x < w)%nat -> (y < h)%nat -> inside 0 0 w h x y = true.
Proof.
  intros Hx Hy. unfold inside.
  destruct (Nat.leb_spec 0 x), (Nat.ltb_spec x (0 + w)),
    (Nat.leb_spec 0 y), (Nat.ltb_spec y (0 + h)); simpl; lia || done.
Qed.

(** [getImageData(0, 0, width, height)] copies the whole canvas. *)
Lemma getImageData_all (w h : nat) (c : ImageData) :
  (0 < w)%nat -> (0 < h)%nat -> sized w h c ->
  getImageData c 0 0 w h = Returns c.
Proof.
  intros Hw Hh Hc. unfold getImageData.
  destruct (Nat.eqb_spec w 0), (Nat.eqb_spec h 0); try lia. simpl.
  f_equal. transitivity (render w h (pixel_at c));
    [|by apply render_pixels].
  apply render_ext. intros x y Hx Hy.
  destruct Hc as (-> & -> & _). by rewrite inside_origin.
Qed.

(** [putImageData(img, 0, 0)] with an image of the size of the canvas
    replaces the whole canvas. *)
Lemma putImageData_all (w h : nat) (c img : ImageData) :
  sized w h c -> sized w h img -> putImageData c img 0 0 = img.
Proof.
  intros (Hcw & Hch & _) Himg. unfold putImageData. rewrite Hcw, Hch.
  transitivity (render w h (pixel_at img)); [|by apply render_pixels].
  apply render_ext. intros x y Hx Hy.
  destruct Himg as (-> & -> & _).
  by rewrite inside_origin, !Nat.sub_0_r.
Qed.

Lemma clearRect_sized (w h : nat) (c : ImageData) (x0 y0 rw rh : nat) :
  sized w h c -> sized w h (clearRect c x0 y0 rw rh).
Proof.
  intros (Hw & Hh & _). unfold clearRect. rewrite Hw, Hh.
  apply render_sized.
Qed.

Lemma clearRect_pixel (w h : nat) (c : ImageData) (x0 y0 rw rh x y : nat) :
  sized w h c -> (x < w)%nat -> (y < h)%nat ->
  pixel_at (clearRect c x0 y0 rw rh) x y
  = if inside x0 y0 rw rh x y then transparent else pixel_at c x y.
Proof.
  intros (Hw & Hh & _) Hx Hy. unfold clearRect. rewrite Hw, Hh.
  by rewrite pixel_at_render.
Qed.

Lemma drawImage_sized (blend : pixel -> pixel -> pixel) (w h : nat)
    (c src : ImageData) (dx dy : nat) :
  sized w h c -> sized w h (drawImage blend c src dx dy).
Proof.
  intros (Hw & Hh & _). unfold drawImage. rewrite Hw, Hh.
  apply render_sized.
Qed.

End CanvasFacts.

(** ** gif-parser.js *)

Module GifParserFacts.
Import Js JsFacts CanvasFacts GifParser.

(** A frame as the decoder produces it: a patch of [width * height] RGBA
    pixels, neither dimension being zero. *)
Definition valid (f : Raw.frame) : Prop :=
  (0 < Raw.width (Raw.dims f))%nat
  /\ (0 < Raw.height (Raw.dims f))%nat
  /\ length (Raw.patch f)
     = (Raw.width (Raw.dims f) * Raw.height (Raw.dims f) * 4)%nat.

(** The disposal types for which the loop takes the last branch. *)
Definition keeps (f : Raw.frame) : Prop :=
  Raw.disposalType f <> 2 /\ Raw.disposalType f <> 3.

(** The canvas and the snapshot have the size of the logical screen. *)
Definition consistent (width height : nat) (st : state) : Prop :=
  sized width height (ctx st)
  /\ forall p, previousImageData st = Some p -> sized width height p.

(** The frame pushed for [f] when the canvas shows [drawn]. *)
Definition captured (drawn : Canvas.ImageData) (f : Raw.frame) : Full.frame :=
  {| Full.imageData := drawn; Full.delay := or_100 (Raw.delay f) |}.

Section Compositor.
Variable blend : Canvas.pixel -> Canvas.pixel -> Canvas.pixel.
Variables width height : nat.
Hypothesis width_pos : (0 < width)%nat.
Hypothesis height_pos : (0 < height)%nat.

Lemma initial_consistent : consistent width height (initial width height).
Proof. split; [apply render_sized | done]. Qed.

Lemma draw_patch_returns (c : Canvas.ImageData) (f : Raw.frame) :
  valid f -> sized width height c ->
  exists drawn,
    draw_patch blend c f = Returns drawn /\ sized width height drawn.
Proof.
  intros (Hw & Hh & Hpatch) Hc. unfold draw_patch, Canvas.createImageData.
  destruct (Nat.eqb_spec (Raw.width (Raw.dims f)) 0); [lia|].
  destruct (Nat.eqb_spec (Raw.height (Raw.dims f)) 0); [lia|].
  cbn [orb mbind outcome_bind]. unfold TypedArray_set.
  destruct (render_sized (Raw.width (Raw.dims f)) (Raw.height (Raw.dims f))
              (fun _ _ => Canvas.transparent)) as (_ & _ & Hlen).
  rewrite Hlen, Hpatch, Nat.ltb_irrefl.
  eexists. split; [reflexivity|]. by apply drawImage_sized.
Qed.

(** One turn of the loop: the patch is drawn, the canvas is captured, and
    then the disposal of the frame is applied. *)
Lemma compose_returns (st : state) (f : Raw.frame) :
  valid f -> consistent width height st ->
  exists drawn st',
    draw_patch blend (ctx st) f = Returns drawn
    /\ sized width height drawn
    /\ compose blend width height st f = Returns st'
    /\ consistent width height st'
    /\ fullFrames st' = fullFrames st ++ [captured drawn f]
    /\ (Raw.disposalType f = 2 ->
        ctx st'
        = Canvas.clearRect drawn (Raw.left (Raw.dims f)) (Raw.top (Raw.dims f))
            (Raw.width (Raw.dims f)) (Raw.height (Raw.dims f))
        /\ previousImageData st' = previousImageData st)
    /\ (Raw.disposalType f = 3 ->
        previousImageData st' = previousImageData st
        /\ ctx st' = default drawn (previousImageData st))
    /\ (keeps f -> ctx st' = drawn /\ previousImageData st' = Some drawn).
Proof.
  intros Hf [Hctx Hprev].
  destruct (draw_patch_returns (ctx st) f Hf Hctx) as (drawn & Hdraw & Hd).
  exists drawn. unfold compose. rewrite Hdraw. cbn [mbind outcome_bind].
  rewrite (getImageData_all width height drawn) by done.
  cbn [mbind outcome_bind]. fold (captured drawn f).
  destruct (Z.eqb_spec (Raw.disposalType f) 2) as [H2|H2];
    [|destruct (Z.eqb_spec (Raw.disposalType f) 3) as [H3|H3]].
  - eexists. split; [reflexivity|]. split; [done|]. split; [reflexivity|].
    cbn [ctx previousImageData fullFrames].
    split; [split; [by apply clearRect_sized | done]|].
    split; [reflexivity|].
    split; [done|]. split; [lia|]. intros [? ?]. lia.
  - destruct (previousImageData st) as [p|] eqn:Hp.
    + eexists. split; [reflexivity|]. split; [done|]. split; [reflexivity|].
      cbn [ctx previousImageData fullFrames default].
      rewrite (putImageData_all width height) by auto.
      split; [split; [by apply Hprev | intros ? [= <-]; by apply Hprev]|].
      split; [reflexivity|].
      split; [lia|]. split; [done|]. intros [? ?]. lia.
    + eexists. split; [reflexivity|]. split; [done|]. split; [reflexivity|].
      cbn [ctx previousImageData fullFrames default].
      split; [split; [done | by intros ? [=]]|].
      split; [reflexivity|].
      split; [lia|]. split; [done|]. intros [? ?]. lia.
  - eexists. split; [reflexivity|]. split; [done|]. split; [reflexivity|].
    cbn [ctx previousImageData fullFrames].
    split; [split; [done | by intros p [= <-]]|].
    split; [reflexivity|].
    split; [lia|]. split; [lia|]. done.
Qed.

(** The loop goes through valid frames without throwing; it pushes one
    frame per turn, and it holds a snapshot at the end iff it held one at the
    start or went through a frame that keeps. *)
Lemma loop_returns (frames : list Raw.frame) (st0 : state) :
  consistent width height st0 -> Forall valid frames ->
  exists st outs,
    for_of (compose blend width height) frames st0 = Returns st
    /\ consistent width height st
    /\ fullFrames st = fullFrames st0 ++ outs
    /\ length outs = length frames
    /\ (is_Some (previousImageData st)
        <-> is_Some (previousImageData st0) \/ Exists keeps frames).
Proof.
  revert st0; induction frames as [|f frames IH]; intros st0 Hst0 Hvalid.
  - exists st0, []. split; [done|]. split; [done|].
    split; [by rewrite app_nil_r|]. split; [done|].
    rewrite Exists_nil. tauto.
  - apply Forall_cons in Hvalid as [Hf Hframes].
    destruct (compose_returns st0 f Hf Hst0)
      as (drawn & st1 & _ & _ & Hstep & Hst1 & Hpush & Hd2 & Hd3 & Hkeep).
    destruct (IH st1 Hst1 Hframes) as (st & outs & Hrun & Hst & Hout & Hlen
                                       & Hsnap).
    exists st, (captured drawn f :: outs).
    cbn [for_of]. rewrite Hstep. cbn [mbind outcome_bind].
    split; [done|]. split; [done|].
    split; [by rewrite Hout, Hpush, <- app_assoc|].
    split; [by cbn [length]; rewrite Hlen|].
    rewrite Hsnap, Exists_cons.
    destruct (decide (Raw.disposalType f = 2)) as [E2|N2].
    { destruct (Hd2 E2) as [_ ->]. unfold keeps. intuition lia. }
    destruct (decide (Raw.disposalType f = 3)) as [E3|N3].
    { destruct (Hd3 E3) as [-> _]. unfold keeps. intuition lia. }
    destruct (Hkeep (conj N2 N3)) as [_ ->].
    split; [intros _; right; left; by split | intros _; left; by eexists].
Qed.

(** The turn of the loop for the frame [F] of [pre ++ F :: post]. *)
Lemma turn_at (pre post : list Raw.frame) (F : Raw.frame) :
  Forall valid (pre ++ F :: post) ->
  exists before drawn after outs,
    run blend width height pre = Returns before
    /\ consistent width height before
    /\ (is_Some (previousImageData before) <-> Exists keeps pre)
    /\ draw_patch blend (ctx before) F = Returns drawn
    /\ sized width height drawn
    /\ compose blend width height before F = Returns after
    /\ run blend width height (pre ++ [F]) = Returns after
    /\ buildFullFrames blend (pre ++ F :: post) width height = Returns outs
    /\ length outs = length (pre ++ F :: post)
    /\ outs !! length pre = Some (captured drawn F).
Proof.
  intros Hvalid. apply Forall_app in Hvalid as [Hpre Hrest].
  apply Forall_cons in Hrest as [HF Hpost].
  destruct (loop_returns pre _ initial_consistent Hpre)
    as (before & outs0 & Hrun0 & Hbefore & Hout0 & Hlen0 & Hsnap0).
  destruct (compose_returns before F HF Hbefore)
    as (drawn & after & Hdraw & Hdrawn & Hstep & Hafter & Hpush & _).
  destruct (loop_returns post after Hafter Hpost)
    as (final & outs1 & Hrun1 & _ & Hout1 & Hlen1 & _).
  exists before, drawn, after, (fullFrames final).
  split; [done|]. split; [done|].
  split.
  { rewrite Hsnap0. cbn [initial previousImageData].
    split; [intros [[? [=]]|?]; done | by right]. }
  split; [done|]. split; [done|]. split; [done|].
  split.
  { unfold run. rewrite for_of_app, Hrun0.
    cbn [mbind outcome_bind for_of]. rewrite Hstep. done. }
  split.
  { unfold buildFullFrames, run. rewrite for_of_app, Hrun0.
    cbn [mbind outcome_bind for_of]. rewrite Hstep.
    cbn [mbind outcome_bind]. rewrite Hrun1. done. }
  cbn [initial fullFrames app] in Hout0.
  rewrite Hout1, Hpush, Hout0. split.
  - rewrite !length_app. cbn [length]. lia.
  - rewrite <- app_assoc, lookup_app_r by lia.
    by rewrite Hlen0, Nat.sub_diag.
Qed.

(** A snapshot held at the end of the loop is the canvas as it was drawn
    for the last frame that keeps. *)
Lemma snapshot_is_last_keep (frames : list Raw.frame) (st : state)
    (P : Canvas.ImageData) :
  Forall valid frames ->
  run blend width height frames = Returns st ->
  previousImageData st = Some P ->
  exists l1 K l2 before,
    frames = l1 ++ K :: l2
    /\ keeps K
    /\ Forall (fun f => ~ keeps f) l2
    /\ run blend width height l1 = Returns before
    /\ draw_patch blend (ctx before) K = Returns P.
Proof.
  revert st. induction frames as [|f l IH] using rev_ind;
    intros st Hvalid Hrun HP.
  - injection Hrun as <-. discriminate HP.
  - replace (l ++ [f]) with (l ++ f :: []) in Hvalid by done.
    destruct (turn_at l [] f Hvalid)
      as (before & drawn & after & outs & Hrun0 & Hbefore & _ & Hdraw & _
          & Hstep & Hrun' & _).
    rewrite Hrun' in Hrun. injection Hrun as <-.
    apply Forall_app in Hvalid as [Hl [Hf _]%Forall_cons].
    destruct (compose_returns before f Hf Hbefore)
      as (drawn' & after' & Hdraw' & _ & Hstep' & _ & _ & Hd2 & Hd3 & Hkeep).
    rewrite Hdraw in Hdraw'. injection Hdraw' as <-.
    rewrite Hstep in Hstep'. injection Hstep' as <-.
    assert (Hnot : Raw.disposalType f = 2 \/ Raw.disposalType f = 3 ->
                   previousImageData after = previousImageData before)
      by (intros [E|E]; [by destruct (Hd2 E) | by destruct (Hd3 E)]).
    destruct (decide (Raw.disposalType f = 2 \/ Raw.disposalType f = 3))
      as [Hdisp|Hdisp].
    + rewrite (Hnot Hdisp) in HP.
      destruct (IH before Hl Hrun0 HP)
        as (l1 & K & l2 & b & -> & HK & Hl2 & Hb & HbP).
      exists l1, K, (l2 ++ [f]), b.
      split; [by rewrite <- app_assoc|]. split; [done|].
      split; [|done].
      apply Forall_app. split; [done|].
      constructor; [|constructor]. unfold keeps. lia.
    + assert (Hk : keeps f) by (unfold keeps; lia).
      destruct (Hkeep Hk) as [_ Hsnap]. rewrite Hsnap in HP.
      injection HP as <-.
      exists l, f, [], before. repeat (split; [done|]). done.
Qed.

(** Keep, in the terms of the data model: disposal 0 or 1. *)
Definition Keep (f : Raw.frame) : Prop :=
  Raw.disposalType f = 0 \/ Raw.disposalType f = 1.

(** C2. Let [F] be a frame of a sequence with disposal 2. The frame pushed
    for [F] is the canvas [drawn] with the patch of [F] on it; after that,
    the canvas that the next frame is drawn on is transparent at every pixel
    of the rectangle [(left, top, width, height)] of [F] and equal to [drawn]
    at every other pixel, and the snapshot is the one held before [F]. *)
Theorem restore_background_clears_rectangle (pre post : list Raw.frame)
    (F : Raw.frame) :
  Forall valid (pre ++ F :: post) ->
  Raw.disposalType F = 2 ->
  exists before drawn after outs,
    run blend width height pre = Returns before
    /\ draw_patch blend (ctx before) F = Returns drawn
    /\ buildFullFrames blend (pre ++ F :: post) width height = Returns outs
    /\ outs !! length pre = Some (captured drawn F)
    /\ run blend width height (pre ++ [F]) = Returns after
    /\ sized width height (ctx after)
    /\ (forall x y, (x < width)%nat -> (y < height)%nat ->
         Canvas.pixel_at (ctx after) x y
         = if Canvas.inside (Raw.left (Raw.dims F)) (Raw.top (Raw.dims F))
                (Raw.width (Raw.dims F)) (Raw.height (Raw.dims F)) x y
           then Canvas.transparent
           else Canvas.pixel_at drawn x y)
    /\ previousImageData after = previousImageData before.
Proof.
  intros Hvalid Hdisposal.
  destruct (turn_at pre post F Hvalid)
    as (before & drawn & after & outs & Hrun & Hbefore & _ & Hdraw & Hdrawn
        & Hstep & Hrun' & Hbuild & _ & Hout).
  apply Forall_app in Hvalid as [_ [HF _]%Forall_cons].
  destruct (compose_returns before F HF Hbefore)
    as (drawn' & after' & Hdraw' & _ & Hstep' & [Hctx _] & _ & Hd2 & _).
  rewrite Hdraw in Hdraw'. injection Hdraw' as <-.
  rewrite Hstep in Hstep'. injection Hstep' as <-.
  destruct (Hd2 Hdisposal) as [Hclear Hsnap].
  exists before, drawn, after, outs.
  repeat (split; [done|]). split; [|done].
  intros x y Hx Hy. rewrite Hclear.
  by apply (clearRect_pixel width height).
Qed.

(** C3. Let [F] be a frame of a sequence with disposal 3, the frames before
    it having disposal 0 to 3. The frame pushed for [F] is the canvas [drawn]
    with the patch of [F] on it. A snapshot is held when [F] is reached iff
    an earlier frame has disposal Keep, and it is then the canvas as drawn
    for the last such frame; if one is held, the canvas that the next frame
    is drawn on is that snapshot; if none is, it is [drawn]: the canvas
    before [F] with the patch of [F]. The snapshot itself is left as it
    was. *)
Theorem restore_previous_restores_snapshot (pre post : list Raw.frame)
    (F : Raw.frame) :
  Forall valid (pre ++ F :: post) ->
  Forall (fun f => 0 <= Raw.disposalType f <= 3) pre ->
  Raw.disposalType F = 3 ->
  exists before drawn after outs,
    run blend width height pre = Returns before
    /\ draw_patch blend (ctx before) F = Returns drawn
    /\ buildFullFrames blend (pre ++ F :: post) width height = Returns outs
    /\ outs !! length pre = Some (captured drawn F)
    /\ run blend width height (pre ++ [F]) = Returns after
    /\ (is_Some (previousImageData before) <-> Exists Keep pre)
    /\ (forall P, previousImageData before = Some P ->
        ctx after = P
        /\ exists l1 K l2 st,
             pre = l1 ++ K :: l2
             /\ Keep K
             /\ Forall (fun f => ~ Keep f) l2
             /\ run blend width height l1 = Returns st
             /\ draw_patch blend (ctx st) K = Returns P)
    /\ (previousImageData before = None -> ctx after = drawn)
    /\ previousImageData after = previousImageData before.
Proof.
  intros Hvalid Hrange Hdisposal.
  destruct (turn_at pre post F Hvalid)
    as (before & drawn & after & outs & Hrun & Hbefore & Hsnap & Hdraw
        & Hdrawn & Hstep & Hrun' & Hbuild & _ & Hout).
  pose proof Hvalid as Hvalid'.
  apply Forall_app in Hvalid as [_ [HF _]%Forall_cons].
  destruct (compose_returns before F HF Hbefore)
    as (drawn' & after' & Hdraw' & _ & Hstep' & _ & _ & _ & Hd3 & _).
  rewrite Hdraw in Hdraw'. injection Hdraw' as <-.
  rewrite Hstep in Hstep'. injection Hstep' as <-.
  destruct (Hd3 Hdisposal) as [Hkept Hctx].
  exists before, drawn, after, outs.
  repeat (split; [done|]).
  split; [|split; [|split]].
  - rewrite Hsnap, !Exists_exists. split.
    + intros (f & Hin & Hf). exists f. split; [done|].
      rewrite Forall_forall in Hrange. specialize (Hrange f Hin).
      unfold keeps in Hf. unfold Keep. lia.
    + intros (f & Hin & Hf). exists f. split; [done|].
      unfold keeps. unfold Keep in Hf. lia.
  - intros P HP. split; [by rewrite Hctx, HP|].
    apply Forall_app in Hvalid' as [Hpre _].
    destruct (snapshot_is_last_keep pre before P Hpre Hrun HP)
      as (l1 & K & l2 & st & -> & HK & Hl2 & Hst & HstP).
    exists l1, K, l2, st. split; [done|].
    apply Forall_app in Hrange as [_ [HKr Hl2r]%Forall_cons].
    split; [unfold keeps in HK; unfold Keep; lia|].
    split; [|done].
    rewrite Forall_forall in Hl2, Hl2r |- *. intros f Hin Hf.
    apply (Hl2 f Hin). specialize (Hl2r f Hin).
    unfold keeps. unfold Keep in Hf. lia.
  - intros HP. by rewrite Hctx, HP.
  - done.
Qed.

(** C5. For a sequence of frames whose delay, where there is one, is not
    negative, [buildFullFrames] returns one frame per frame of the sequence;
    the [i]-th is the canvas as drawn for the [i]-th frame, and its delay is
    that of the [i]-th frame when this is positive and 100 when it is zero
    or absent, hence at least 1. *)
Theorem one_frame_each_with_delay (rawFrames : list Raw.frame) :
  Forall valid rawFrames ->
  Forall (fun f => forall d, Raw.delay f = Some d -> 0 <= d) rawFrames ->
  exists outs,
    buildFullFrames blend rawFrames width height = Returns outs
    /\ length outs = length rawFrames
    /\ forall i f, rawFrames !! i = Some f ->
       exists before drawn,
         run blend width height (take i rawFrames) = Returns before
         /\ draw_patch blend (ctx before) f = Returns drawn
         /\ outs !! i
            = Some {| Full.imageData := drawn;
                      Full.delay := match Raw.delay f with
                                    | Some d => if 0 <? d then d else 100
                                    | None => 100
                                    end |}
         /\ 1 <= or_100 (Raw.delay f).
Proof.
  intros Hvalid Hdelay.
  destruct (loop_returns rawFrames _ initial_consistent Hvalid)
    as (final & outs & Hrun & _ & Hout & Hlen & _).
  cbn [initial fullFrames app] in Hout. subst outs.
  exists (fullFrames final).
  split; [by unfold buildFullFrames, run; rewrite Hrun|].
  split; [done|].
  intros i f Hi.
  pose proof (take_drop_middle _ _ _ Hi) as Hsplit.
  pose proof (lookup_lt_Some _ _ _ Hi) as Hlt.
  assert (Or : or_100 (Raw.delay f)
               = match Raw.delay f with
                 | Some d => if 0 <? d then d else 100
                 | None => 100
                 end /\ 1 <= or_100 (Raw.delay f)).
  { rewrite Forall_forall in Hdelay.
    specialize (Hdelay f (list_elem_of_lookup_2 _ _ _ Hi)).
    unfold or_100. destruct (Raw.delay f) as [d|]; [|lia].
    specialize (Hdelay d eq_refl).
    destruct (Z.eqb_spec d 0), (Z.ltb_spec 0 d); lia. }
  destruct Or as [Or Hge].
  rewrite <- Hsplit in Hvalid.
  destruct (turn_at (take i rawFrames) (drop (S i) rawFrames) f Hvalid)
    as (before & drawn & after & outs & Hrun0 & _ & _ & Hdraw & _ & _ & _
        & Hbuild & _ & Hout).
  rewrite Hsplit in Hbuild. unfold buildFullFrames, run in Hbuild.
  rewrite Hrun in Hbuild. injection Hbuild as <-.
  rewrite length_take, Nat.min_l in Hout by lia.
  exists before, drawn.
  split; [done|]. split; [done|]. split; [|done].
  rewrite Hout. unfold captured. by rewrite Or.
Qed.

End Compositor.

(** Frames on a logical screen of 4 by 4: a red patch over the whole
    screen that restores the background, a blue patch of 2 by 2 at (1, 1)
    that keeps, and a red pixel at the origin that restores the previous
    state. *)
Definition red_screen : Raw.frame :=
  {| Raw.dims := {| Raw.left := 0; Raw.top := 0;
                    Raw.width := 4; Raw.height := 4 |};
     Raw.patch := concat (replicate 16 [255; 0; 0; 255]);
     Raw.delay := Some 0;
     Raw.disposalType := 2 |}.
Definition blue_square : Raw.frame :=
  {| Raw.dims := {| Raw.left := 1; Raw.top := 1;
                    Raw.width := 2; Raw.height := 2 |};
     Raw.patch := concat (replicate 4 [0; 0; 255; 255]);
     Raw.delay := Some 50;
     Raw.disposalType := 1 |}.
Definition red_dot : Raw.frame :=
  {| Raw.dims := {| Raw.left := 0; Raw.top := 0;
                    Raw.width := 1; Raw.height := 1 |};
     Raw.patch := [255; 0; 0; 255];
     Raw.delay := None;
     Raw.disposalType := 3 |}.

Lemma red_screen_valid : valid red_screen.
Proof. unfold valid. cbn. repeat split; lia. Defined.
Lemma blue_square_valid : valid blue_square.
Proof. unfold valid. cbn. repeat split; lia. Defined.
Lemma red_dot_valid : valid red_dot.
Proof. unfold valid. cbn. repeat split; lia. Defined.

(** The red screen is captured whole and then cleared, so that the second
    frame shows the blue square on a transparent canvas. *)
Example red_then_blue :
  buildFullFrames Canvas.over [red_screen; blue_square] 4 4
  = Returns
      [ {| Full.imageData := Canvas.render 4 4 (fun _ _ => (255, 0, 0, 255));
           Full.delay := 100 |};
        {| Full.imageData :=
             Canvas.render 4 4 (fun x y =>
               if Canvas.inside 1 1 2 2 x y then (0, 0, 255, 255)
               else Canvas.transparent);
           Full.delay := 50 |} ].
Proof. vm_compute. reflexivity. Qed.

(** C2 at the red screen followed by the blue square. *)
Lemma restore_background_clears_rectangle_witness :
  (0 < 4)%nat
  /\ Forall valid ([] ++ red_screen :: [blue_square])
  /\ Raw.disposalType red_screen = 2
  /\ exists after,
       run Canvas.over 4 4 ([] ++ [red_screen]) = Returns after
       /\ Canvas.pixel_at (ctx after) 2 2 = Canvas.transparent.
Proof.
  assert (H4 : (0 < 4)%nat) by lia.
  assert (Hvalid : Forall valid ([] ++ red_screen :: [blue_square])).
  { constructor; [exact red_screen_valid|].
    constructor; [exact blue_square_valid | constructor]. }
  split; [exact H4|]. split; [exact Hvalid|]. split; [reflexivity|].
  destruct (restore_background_clears_rectangle Canvas.over 4 4 H4 H4
              [] [blue_square] red_screen Hvalid eq_refl)
    as (before & drawn & after & outs & _ & _ & _ & _ & Hrun & _ & Hpixel
        & _).
  exists after. split; [exact Hrun|].
  rewrite (Hpixel 2%nat 2%nat) by lia. reflexivity.
Defined.

(** C3 at the blue square followed by the red dot. *)
Lemma restore_previous_restores_snapshot_witness :
  (0 < 4)%nat
  /\ Forall valid ([blue_square] ++ red_dot :: [])
  /\ Forall (fun f => 0 <= Raw.disposalType f <= 3) [blue_square]
  /\ Raw.disposalType red_dot = 3
  /\ exists before after P,
       run Canvas.over 4 4 [blue_square] = Returns before
       /\ run Canvas.over 4 4 ([blue_square] ++ [red_dot]) = Returns after
       /\ previousImageData before = Some P
       /\ ctx after = P.
Proof.
  assert (H4 : (0 < 4)%nat) by lia.
  assert (Hvalid : Forall valid ([blue_square] ++ red_dot :: [])).
  { constructor; [exact blue_square_valid|].
    constructor; [exact red_dot_valid | constructor]. }
  assert (Hrange : Forall (fun f => 0 <= Raw.disposalType f <= 3)
                     [blue_square]).
  { constructor; [cbn; lia | constructor]. }
  split; [exact H4|]. split; [exact Hvalid|]. split; [exact Hrange|].
  split; [reflexivity|].
  destruct (restore_previous_restores_snapshot Canvas.over 4 4 H4 H4
              [blue_square] [] red_dot Hvalid Hrange eq_refl)
    as (before & drawn & after & outs & Hrun & _ & _ & _ & Hrun' & Hsnap
        & Hsome & _ & _).
  assert (HP : is_Some (previousImageData before)).
  { apply Hsnap. apply Exists_cons. left. right. reflexivity. }
  destruct HP as [P HP].
  exists before, after, P.
  split; [exact Hrun|]. split; [exact Hrun'|]. split; [exact HP|].
  exact (proj1 (Hsome P HP)).
Defined.

(** C5 at the red screen followed by the blue square. *)
Lemma one_frame_each_with_delay_witness :
  (0 < 4)%nat
  /\ Forall valid [red_screen; blue_square]
  /\ Forall (fun f => forall d, Raw.delay f = Some d -> 0 <= d)
       [red_screen; blue_square]
  /\ exists outs,
       buildFullFrames Canvas.over [red_screen; blue_square] 4 4
       = Returns outs
       /\ length outs = 2%nat.
Proof.
  assert (H4 : (0 < 4)%nat) by lia.
  assert (Hvalid : Forall valid [red_screen; blue_square]).
  { constructor; [exact red_screen_valid|].
    constructor; [exact blue_square_valid | constructor]. }
  assert (Hdelay : Forall (fun f => forall d, Raw.delay f = Some d -> 0 <= d)
                     [red_screen; blue_square]).
  { constructor; [cbn; intros d [= <-]; lia|].
    constructor; [cbn; intros d [= <-]; lia | constructor]. }
  split; [exact H4|]. split; [exact Hvalid|]. split; [exact Hdelay|].
  destruct (one_frame_each_with_delay Canvas.over 4 4 H4 H4
              [red_screen; blue_square] Hvalid Hdelay)
    as (outs & Hbuild & Hlen & _).
  exists outs. split; [exact Hbuild | exact Hlen].
Defined.

(** C9, as the claim states it, fails: [buildFullFrames] called with no
    frame does not fail, it returns an empty list. *)
Lemma buildFullFrames_accepts_no_frame :
  buildFullFrames Canvas.over [] 4 4 = Returns []
  /\ ~ (exists e, buildFullFrames Canvas.over [] 4 4 = Throws e).
Proof.
  split; [reflexivity|]. intros [e He]. discriminate He.
Qed.

(** C9, amended. The empty sequence is rejected by [parseGifFromBuffer]:
    when the decoder returns no frame it throws the error "No frames found
    in GIF" before [buildFullFrames] is called, and nothing is returned.
    [buildFullFrames] itself, called with no frame, returns the empty
    list. *)
Theorem no_frames_found
    (blend : Canvas.pixel -> Canvas.pixel -> Canvas.pixel)
    (parseGifBuffer : list Z -> outcome (list Raw.frame)) (buffer : list Z) :
  parseGifBuffer buffer = Returns [] ->
  parseGifFromBuffer blend parseGifBuffer buffer
  = Throws (Error "No frames found in GIF")
  /\ forall width height,
       buildFullFrames blend [] width height = Returns [].
Proof.
  intros Hparse. unfold parseGifFromBuffer. rewrite Hparse. done.
Qed.

(** The amended claim for a decoder that finds no frame. *)
Lemma no_frames_found_witness :
  (fun _ : list Z => Returns (@nil Raw.frame)) [71; 73; 70] = Returns []
  /\ parseGifFromBuffer Canvas.over (fun _ => Returns []) [71; 73; 70]
     = Throws (Error "No frames found in GIF").
Proof.
  split; [reflexivity|].
  exact (proj1 (no_frames_found Canvas.over (fun _ => Returns [])
                  [71; 73; 70] eq_refl)).
Defined.

End GifParserFacts.

(** ** processor.js *)

Module ProcessorFacts.
Import Js JsFacts CanvasFacts Processor.

(** The luminance of a pixel: (0.299 R + 0.587 G + 0.114 B) / 255. *)
Definition luminance (p : Canvas.pixel) : Q :=
  let '(r, g, b, _) := p in
  (((299 # 1000) * inject_Z r + (587 # 1000) * inject_Z g
    + (114 # 1000) * inject_Z b) / 255)%Q.

(** The two steps of the tone adjustment, each skipped at its neutral
    value. *)
Definition brightness_step (brightness : Z) (v : Q) : Q :=
  if decide (brightness = 0) then v else (v + inject_Z brightness / 100)%Q.
Definition contrast_step (contrast : Z) (v : Q) : Q :=
  if decide (contrast = 100) then v
  else ((v - (1 # 2)) * (inject_Z contrast / 100) + (1 # 2))%Q.

Lemma foldl_insert_prefix {A} (g : nat -> A) (r : list A) (n : nat) :
  (n <= length r)%nat ->
  foldl (fun row x => <[x := g x]> row) r (seq 0 n)
  = (g <$> seq 0 n) ++ drop n r.
Proof.
  induction n as [|n IH]; intros Hn; [by rewrite drop_0|].
  rewrite seq_S, foldl_snoc, IH, fmap_app, <- app_assoc by lia.
  destruct (lookup_lt_is_Some_2 r n ltac:(lia)) as [v Hv].
  rewrite insert_app_r_alt by (rewrite length_fmap, length_seq; lia).
  rewrite length_fmap, length_seq, Nat.sub_diag, (drop_S _ _ _ Hv).
  reflexivity.
Qed.

Lemma toGrayscale_rows (imageData : Canvas.ImageData) :
  toGrayscale imageData
  = map (fun y =>
      map (fun x => luminance (Canvas.pixel_at imageData x y))
        (seq 0 (Canvas.width imageData)))
      (seq 0 (Canvas.height imageData)).
Proof.
  unfold toGrayscale. rewrite foldl_push. cbn [app].
  apply map_ext. intros y.
  rewrite foldl_insert_prefix by (by rewrite length_replicate).
  rewrite drop_replicate, Nat.sub_diag, app_nil_r. reflexivity.
Qed.

Lemma adjusted_steps (brightness contrast : Z) (v : Q) :
  adjusted brightness contrast v
  = clamp01 (contrast_step contrast (brightness_step brightness v)).
Proof.
  unfold adjusted, contrast_step, brightness_step.
  destruct (Z.eqb_spec brightness 0), (Z.eqb_spec contrast 100);
    repeat case_decide; try lia; reflexivity.
Qed.

Lemma clamp01_in_range (v : Q) : (0 <= v <= 1)%Q -> (clamp01 v == v)%Q.
Proof.
  intros [H0 H1]. unfold clamp01.
  rewrite Q.max_r by (apply Q.min_glb; [discriminate | done]).
  by apply Q.min_r.
Qed.

(** C8. The grayscale of the pixel [(R, G, B, A)] is
    [(0.299 R + 0.587 G + 0.114 B) / 255]. The tone adjustment maps every
    cell [v] of a grid to the clamp to [0, 1] of the contrast step
    [(v' - 0.5) * (contrast / 100) + 0.5] (skipped for contrast 100) of the
    brightness step [v' = v + brightness / 100] (skipped for brightness 0),
    in that order; for brightness 0 and contrast 100 a cell in [0, 1] keeps
    its value. *)
Theorem grayscale_then_brightness_contrast
    (imageData : Canvas.ImageData) (x y : nat)
    (gray : rows Q) (brightness contrast : Z) (h w : nat) :
  sized (Canvas.width imageData) (Canvas.height imageData) imageData ->
  (x < Canvas.width imageData)%nat -> (y < Canvas.height imageData)%nat ->
  rect gray h w -> first_row_length gray = w ->
  (toGrayscale imageData !! y ≫= (.!! x))
  = Some (luminance (Canvas.pixel_at imageData x y))
  /\ adjustBrightnessContrast gray brightness contrast
     = map (map (fun v =>
         clamp01 (contrast_step contrast (brightness_step brightness v))))
         gray
  /\ (forall v, contrast_step 100 (brightness_step 0 v) = v)
  /\ (forall i j v,
        (gray !! i ≫= (.!! j)) = Some v -> (0 <= v <= 1)%Q ->
        exists v',
          (adjustBrightnessContrast gray 0 100 !! i ≫= (.!! j)) = Some v'
          /\ (v' == v)%Q).
Proof.
  intros _ Hx Hy Hrect Hw.
  assert (Hadjust : forall b c,
            adjustBrightnessContrast gray b c
            = map (map (fun v =>
                clamp01 (contrast_step c (brightness_step b v)))) gray).
  { intros b c. unfold adjustBrightnessContrast.
    destruct Hrect as [Hh Hrows]. rewrite Hw, Hh.
    rewrite (cellwise_loop (adjusted b c) 0%Q gray h w) by done.
    apply map_ext. intros r. apply map_ext. intros v.
    apply adjusted_steps. }
  split; [|split; [|split]].
  - rewrite toGrayscale_rows. change map with (@fmap list _).
    rewrite list_lookup_fmap, lookup_seq_lt by done.
    cbn [fmap option_fmap option_map mbind option_bind].
    rewrite list_lookup_fmap, lookup_seq_lt by done. reflexivity.
  - apply Hadjust.
  - intros v. reflexivity.
  - intros i j v Hv Hrange. rewrite Hadjust.
    change map with (@fmap list _). rewrite list_lookup_fmap.
    destruct (gray !! i) as [r|]; [|discriminate].
    cbn [fmap option_fmap option_map mbind option_bind] in *.
    rewrite list_lookup_fmap, Hv.
    eexists. split; [reflexivity|].
    by apply clamp01_in_range.
Qed.

(** The theorem at an image of one white and one red pixel and a grid of
    two cells. *)
Definition white_red : Canvas.ImageData :=
  {| Canvas.width := 2; Canvas.height := 1;
     Canvas.data := [255; 255; 255; 255; 255; 0; 0; 255] |}.
Definition two_cells : rows Q := [[(1 # 4)%Q; (3 # 4)%Q]].

Lemma grayscale_then_brightness_contrast_witness :
  sized 2 1 white_red
  /\ (1 < 2)%nat /\ (0 < 1)%nat
  /\ rect two_cells 1 2 /\ first_row_length two_cells = 2%nat
  /\ (toGrayscale white_red !! 0%nat ≫= (.!! 1%nat))
     = Some (luminance (255, 0, 0, 255))
  /\ adjustBrightnessContrast two_cells 0 100 = map (map clamp01) two_cells.
Proof.
  assert (Hsized : sized 2 1 white_red) by (repeat split).
  assert (Hx : (1 < 2)%nat) by lia.
  assert (Hy : (0 < 1)%nat) by lia.
  assert (Hrect : rect two_cells 1 2)
    by (split; [reflexivity | constructor; [reflexivity | constructor]]).
  split; [exact Hsized|]. split; [exact Hx|]. split; [exact Hy|].
  split; [exact Hrect|]. split; [reflexivity|].
  destruct (grayscale_then_brightness_contrast white_red 1 0 two_cells 0 100
              1 2 Hsized Hx Hy Hrect eq_refl) as (Hgray & Hadjust & _ & _).
  split; [exact Hgray | exact Hadjust].
Defined.

End ProcessorFacts.

(** * Part III: further properties *)

(** ** charsets.js: the ramp index *)

Module RampFacts.
Import Js Charsets JsFacts CharsetsFacts.

Lemma floor_scaled_mono (v1 v2 : Q) (m : Z) :
  (v1 <= v2)%Q -> 0 <= m ->
  floor (v1 * inject_Z m) <= floor (v2 * inject_Z m).
Proof.
  intros Hv Hm. unfold floor. apply Qfloor_resp_le.
  apply Qmult_le_compat_r; [done|].
  change 0%Q with (inject_Z 0). by rewrite <- Zle_Qle.
Qed.

Lemma floor_scaled_nonpos (v : Q) (m : Z) :
  (v <= 0)%Q -> 0 <= m -> floor (v * inject_Z m) <= 0.
Proof.
  intros Hv Hm.
  pose proof (floor_scaled_mono v 0 m Hv Hm) as H.
  unfold floor in *. rewrite Qmult_0_l in H. exact H.
Qed.

Lemma floor_scaled_top (v : Q) (m : Z) :
  (1 <= v)%Q -> 0 <= m -> m <= floor (v * inject_Z m).
Proof.
  intros Hv Hm.
  pose proof (floor_scaled_mono 1 v m Hv Hm) as H.
  unfold floor in *. rewrite Qmult_1_l, Qfloor_Z in H. exact H.
Qed.

(** X1. For a registered charset the index of a luminance is an index of
    the ramp; it does not decrease when the luminance grows; a luminance of
    0 or less has index 0 and a luminance of 1 or more has the last index. *)
Theorem charIndexForLuminance_monotone (charset : string) (chars : str)
    (v1 v2 : Q) :
  CHARSETS charset = Some chars -> (v1 <= v2)%Q ->
  exists i1 i2,
    charIndexForLuminance charset v1 = Returns i1
    /\ charIndexForLuminance charset v2 = Returns i2
    /\ 0 <= i1 /\ i1 <= i2 /\ i2 < Z.of_nat (length chars)
    /\ ((v1 <= 0)%Q -> i1 = 0)
    /\ ((1 <= v2)%Q -> i2 = Z.of_nat (length chars) - 1).
Proof.
  intros Hset Hv. pose proof (CHARSETS_nonempty _ _ Hset) as Hlen.
  unfold charIndexForLuminance. rewrite Hset.
  set (m := Z.of_nat (length chars) - 1). assert (0 <= m) as Hm by lia.
  pose proof (floor_scaled_mono v1 v2 m Hv Hm) as Hmono.
  eexists _, _. split; [reflexivity|]. split; [reflexivity|].
  split; [lia|]. split; [lia|]. split; [lia|]. split.
  - intros H0. pose proof (floor_scaled_nonpos v1 m H0 Hm). lia.
  - intros H1. pose proof (floor_scaled_top v2 m H1 Hm). lia.
Qed.

Lemma charIndexForLuminance_monotone_witness :
  CHARSETS "simple" = Some (units " .:-=+*#%@")
  /\ ((1 # 4) <= (3 # 4))%Q
  /\ exists i1 i2,
       charIndexForLuminance "simple" (1 # 4) = Returns i1
       /\ charIndexForLuminance "simple" (3 # 4) = Returns i2
       /\ i1 <= i2.
Proof.
  assert (Hv : ((1 # 4) <= (3 # 4))%Q) by (vm_compute; discriminate).
  split; [reflexivity|]. split; [exact Hv|].
  destruct (charIndexForLuminance_monotone "simple" _ (1 # 4) (3 # 4)
              eq_refl Hv) as (i1 & i2 & H1 & H2 & _ & Hle & _).
  exists i1, i2. split; [exact H1|]. split; [exact H2 | exact Hle].
Defined.

(** X2. For a registered charset, the character that [mapArrayToChars]
    writes for a cell is the character [charForLuminance] returns for the
    luminance of that cell. *)
Theorem mapArrayToChars_charForLuminance (charset : string) (chars : str)
    (luminanceRows : rows Q) (y x : nat) (row : list Q) (v : Q) :
  CHARSETS charset = Some chars ->
  luminanceRows !! y = Some row -> row !! x = Some v ->
  exists lines c,
    mapArrayToChars charset luminanceRows = Returns lines
    /\ charForLuminance charset v = Returns (Some c)
    /\ (lines !! y ≫= (.!! x)) = Some c.
Proof.
  intros Hset Hrow Hv. pose proof (CHARSETS_nonempty _ _ Hset) as Hlen.
  exists (map (map (ramp_char chars)) luminanceRows), (ramp_char chars v).
  split; [|split].
  - unfold mapArrayToChars. rewrite Hset, foldl_push. cbn [app]. f_equal.
    apply map_ext. intros r. by apply map_row.
  - unfold charForLuminance, charIndexForLuminance. rewrite Hset.
    cbn [mbind outcome_bind]. f_equal.
    by apply ramp_char_lookup.
  - change map with (@fmap list _).
    rewrite list_lookup_fmap, Hrow. cbn [fmap option_fmap option_map mbind
      option_bind]. by rewrite list_lookup_fmap, Hv.
Qed.

Lemma mapArrayToChars_charForLuminance_witness :
  CHARSETS "blocks" = Some [32; 0x2581; 0x2582; 0x2583; 0x2584; 0x2585;
                            0x2586; 0x2587; 0x2588]
  /\ [[(1 # 2)%Q]] !! 0%nat = Some [(1 # 2)%Q]
  /\ [(1 # 2)%Q] !! 0%nat = Some (1 # 2)%Q
  /\ exists c, charForLuminance "blocks" (1 # 2) = Returns (Some c).
Proof.
  split; [reflexivity|]. split; [reflexivity|]. split; [reflexivity|].
  destruct (mapArrayToChars_charForLuminance "blocks" _ [[(1 # 2)%Q]]
              0 0 _ _ eq_refl eq_refl eq_refl) as (lines & c & _ & Hc & _).
  exists c. exact Hc.
Defined.

End RampFacts.

(** ** charsets.js: braille *)

Module BrailleFacts.
Import Js Charsets JsFacts CharsetsFacts.

Lemma brailleCode_testbit (dots : rows bool) (row col : nat) :
  (row < 4)%nat -> (col < 2)%nat ->
  Z.testbit (brailleCode dots) (dot_bit row col) = cell false dots row col.
Proof.
  intros Hrow Hcol. unfold brailleCode. cbn [foldl seq].
  destruct row as [|[|[|[|row]]]]; try lia;
    destruct col as [|[|col]]; try lia;
    destruct (cell false dots 0 0), (cell false dots 0 1),
      (cell false dots 1 0), (cell false dots 1 1),
      (cell false dots 2 0), (cell false dots 2 1),
      (cell false dots 3 0), (cell false dots 3 1); reflexivity.
Qed.

(** X3. [brailleChar] returns a single code unit of the braille block,
    U+2800 to U+28FF, and two blocks of dots with the same character have
    the same eight dots. *)
Theorem brailleChar_injective (dots1 dots2 : rows bool) :
  (exists c, brailleChar dots1 = [c] /\ 0x2800 <= c <= 0x28FF)
  /\ (brailleChar dots1 = brailleChar dots2 ->
      forall row col, (row < 4)%nat -> (col < 2)%nat ->
        cell false dots1 row col = cell false dots2 row col).
Proof.
  split.
  - exists (BRAILLE_BASE + brailleCode dots1).
    split; [apply brailleChar_unit|].
    pose proof (brailleCode_range dots1). unfold BRAILLE_BASE. lia.
  - rewrite !brailleChar_unit. intros [= Hcode] row col Hrow Hcol.
    rewrite <- !brailleCode_testbit by done.
    by replace (brailleCode dots1) with (brailleCode dots2) by lia.
Qed.

Lemma brailleChar_injective_witness :
  brailleChar [[true; false]; [false; false]; [false; false]; [false; true]]
  = brailleChar [[true; false]; [false; false]; [false; false];
                 [false; true]]
  /\ (0 < 4)%nat /\ (0 < 2)%nat
  /\ cell false
       [[true; false]; [false; false]; [false; false]; [false; true]] 0 0
     = true.
Proof.
  assert (H4 : (0 < 4)%nat) by lia. assert (H2 : (0 < 2)%nat) by lia.
  split; [reflexivity|]. split; [exact H4|]. split; [exact H2|].
  exact (proj2 (brailleChar_injective _ _) eq_refl 0%nat 0%nat H4 H2).
Defined.

Lemma rect_cell_outside {A} (d : A) (a : rows A) (h w y x : nat) :
  rect a h w -> (h <= y \/ w <= x)%nat -> cell d a y x = d.
Proof.
  intros [Hh Hw] Hout. unfold cell.
  destruct (a !! y) as [r|] eqn:Hr; [|done]. cbn [mbind option_bind].
  pose proof (lookup_lt_Some _ _ _ Hr).
  pose proof (Forall_lookup_1 _ _ _ _ Hw Hr) as Hlen. simpl in Hlen.
  rewrite lookup_ge_None_2 by lia. done.
Qed.

Lemma dots_at_cell (g : rows Z) (y x row col : nat) :
  (row < 4)%nat -> (col < 2)%nat ->
  cell false (dots_at g y x) row col = (0 <? cell 0 g (y + row) (x + col)).
Proof.
  intros Hrow Hcol.
  destruct row as [|[|[|[|row]]]]; try lia;
    destruct col as [|[|col]]; try lia;
    rewrite ?Nat.add_0_r; reflexivity.
Qed.

Lemma round_up (n k : nat) :
  (0 < k)%nat ->
  (((n + (k - 1)) / k * k) mod k = 0
   /\ n <= (n + (k - 1)) / k * k < n + k)%nat.
Proof.
  intros Hk.
  pose proof (Nat.div_mod_eq (n + (k - 1)) k) as Hdm.
  pose proof (Nat.mod_upper_bound (n + (k - 1)) k ltac:(lia)) as Hm.
  split; [apply Nat.Div0.mod_mul | lia].
Qed.

Lemma multiple_unique (k a b n : nat) :
  (0 < k)%nat -> (a mod k = 0)%nat -> (b mod k = 0)%nat ->
  (n <= a < n + k)%nat -> (n <= b < n + k)%nat -> a = b.
Proof.
  intros Hk Ha Hb Hna Hnb.
  pose proof (Nat.div_mod_eq a k). pose proof (Nat.div_mod_eq b k).
  assert (a / k = b / k)%nat by nia. lia.
Qed.

(** The grid the encoding loop runs on reads like the input, a cell that
    the input does not have reading 0. *)
Lemma padded_input_grid (binary : rows Z) (h w : nat) :
  rect binary h w -> first_row_length binary = w ->
  exists g,
    padded_input binary
    = Returns (g, ((h + 3) / 4 * 4)%nat, ((w + 1) / 2 * 2)%nat)
    /\ forall y x, cell 0 g y x = cell 0 binary y x.
Proof.
  intros Hrect Hw.
  destruct (round_up h 4 ltac:(lia)) as [HH1 HH2].
  destruct (round_up w 2 ltac:(lia)) as [HW1 HW2].
  cbn [Nat.sub] in *.
  destruct (decide (h mod 4 <> 0 \/ w mod 2 <> 0)%nat) as [Hpad|Hpad].
  - destruct (padded_input_pads binary h w Hrect Hw Hpad)
      as (newH & newW & Hin & [Hm4 Hb4] & [Hm2 Hb2]).
    assert (newH = ((h + 3) / 4 * 4)%nat) as <-
      by (apply (multiple_unique 4 _ _ h); done || lia).
    assert (newW = ((w + 1) / 2 * 2)%nat) as <-
      by (apply (multiple_unique 2 _ _ w); done || lia).
    eexists. split; [exact Hin|].
    intros y x. rewrite padded_rows_cell by (done || lia).
    destruct (Nat.ltb_spec y h), (Nat.ltb_spec x w); cbn [andb]; try done;
      symmetry; apply (rect_cell_outside 0 binary h w); done || lia.
  - assert (h mod 4 = 0 /\ w mod 2 = 0)%nat as [Hh4 Hw2] by lia.
    exists binary. split; [|done].
    assert (h = ((h + 3) / 4 * 4)%nat) as <-
      by (apply (multiple_unique 4 _ _ h); done || lia).
    assert (w = ((w + 1) / 2 * 2)%nat) as <-
      by (apply (multiple_unique 2 _ _ w); done || lia).
    unfold padded_input. destruct Hrect as [-> _]. rewrite Hw, Hh4, Hw2.
    reflexivity.
Qed.

(** X4. For a grid of [h] rows of [w] cells, padded or not, the encoder
    returns ceil(h / 4) lines of ceil(w / 2) characters of the braille block;
    in the character at line [i] and column [j], the bit of the dot at
    [(row, col)] is set iff the cell [(4 i + row, 2 j + col)] of the input
    exists and is greater than 0. *)
Theorem brailleFromArray_dots (binary : rows Z) (h w : nat) :
  rect binary h w -> first_row_length binary = w ->
  exists lines,
    brailleFromArray binary = Returns lines
    /\ length lines = ((h + 3) / 4)%nat
    /\ forall i, (i < (h + 3) / 4)%nat ->
       exists line,
         lines !! i = Some line
         /\ length line = ((w + 1) / 2)%nat
         /\ forall j, (j < (w + 1) / 2)%nat ->
            exists c,
              line !! j = Some c
              /\ 0x2800 <= c <= 0x28FF
              /\ forall row col, (row < 4)%nat -> (col < 2)%nat ->
                 Z.testbit (c - 0x2800) (dot_bit row col)
                 = (0 <? cell 0 binary (i * 4 + row) (j * 2 + col)).
Proof.
  intros Hrect Hw.
  destruct (padded_input_grid binary h w Hrect Hw) as (g & Hin & Hcell).
  set (n := ((h + 3) / 4)%nat) in *. set (m := ((w + 1) / 2)%nat) in *.
  exists (map (fun i =>
            map (fun j =>
              BRAILLE_BASE + brailleCode (dots_at g (i * 4) (j * 2)))
              (seq 0 m)) (seq 0 n)).
  split; [|split].
  - unfold brailleFromArray. rewrite Hin. cbn [mbind outcome_bind].
    f_equal. apply encode_lines.
  - by rewrite length_map, length_seq.
  - intros i Hi. eexists. split; [|split].
    + change map with (@fmap list _) at 1.
      rewrite list_lookup_fmap, lookup_seq_lt by done. reflexivity.
    + by rewrite length_map, length_seq.
    + intros j Hj. eexists. split; [|split].
      * change map with (@fmap list _).
        rewrite list_lookup_fmap, lookup_seq_lt by done. reflexivity.
      * pose proof (brailleCode_range (dots_at g (i * 4) (j * 2))).
        unfold BRAILLE_BASE. cbn [Nat.add]. lia.
      * intros row col Hrow Hcol. cbn [Nat.add].
        replace (BRAILLE_BASE + brailleCode (dots_at g (i * 4) (j * 2))
                 - 0x2800)
          with (brailleCode (dots_at g (i * 4) (j * 2)))
          by (unfold BRAILLE_BASE; lia).
        by rewrite brailleCode_testbit, dots_at_cell, Hcell.
Qed.

Definition three_by_three : rows Z := [[1; 0; 1]; [0; 1; 0]; [1; 0; 1]].

Lemma brailleFromArray_dots_witness :
  rect three_by_three 3 3
  /\ first_row_length three_by_three = 3%nat
  /\ exists lines,
       brailleFromArray three_by_three = Returns lines
       /\ length lines = 1%nat.
Proof.
  assert (Hrect : rect three_by_three 3 3)
    by (split; [reflexivity | repeat constructor]).
  split; [exact Hrect|]. split; [reflexivity|].
  destruct (brailleFromArray_dots three_by_three 3 3 Hrect eq_refl)
    as (lines & Hret & Hlen & _).
  exists lines. split; [exact Hret | exact Hlen].
Defined.

Lemma mapM_throws {A B} (f : A -> outcome B) (e : error) (l : list A) :
  Forall (fun a => f a = Throws e \/ exists b, f a = Returns b) l ->
  Exists (fun a => f a = Throws e) l ->
  mapM f l = Throws e.
Proof.
  induction 1 as [|a l Ha Hl IH]; intros Hex; [by apply Exists_nil in Hex|].
  cbn [mapM]. destruct Ha as [-> | [b Hb]]; [done|].
  rewrite Hb. cbn [mbind outcome_bind].
  apply Exists_cons in Hex as [Hbad|Hex]; [congruence|].
  by rewrite IH.
Qed.

(** X17. When the grid has to be padded and one of its rows is longer than
    the padded width (the width of the first row rounded up to an even
    number), [brailleFromArray] throws a [RangeError]. *)
Theorem brailleFromArray_long_row (binary : rows Z) (y : nat) (r : list Z) :
  (length binary mod 4 <> 0 \/ first_row_length binary mod 2 <> 0)%nat ->
  binary !! y = Some r ->
  (first_row_length binary + (2 - first_row_length binary mod 2) mod 2
   < length r)%nat ->
  brailleFromArray binary = Throws RangeError.
Proof.
  intros Hpad Hr Hlong.
  destruct (pad_amount (length binary) 4 ltac:(lia)) as (_ & _ & HH).
  destruct (pad_amount (first_row_length binary) 2 ltac:(lia)) as (_ & _ & HW).
  unfold brailleFromArray, padded_input.
  replace ((0 <? (4 - length binary mod 4) mod 4)%nat
           || (0 <? (2 - first_row_length binary mod 2) mod 2)%nat)
    with true
    by (symmetry; apply orb_true_iff; rewrite !Nat.ltb_lt; lia).
  unfold pad. rewrite (mapM_throws _ RangeError); [done| |].
  - apply Forall_forall. intros y' _.
    destruct (y' <? length binary)%nat; [|right; by eexists].
    unfold TypedArray_set.
    destruct (_ <? _)%nat; [by left | right; by eexists].
  - apply Exists_exists. exists y.
    pose proof (lookup_lt_Some _ _ _ Hr) as Hy.
    split; [apply elem_of_seq; lia|].
    destruct (Nat.ltb_spec y (length binary)); [|lia].
    rewrite Hr. cbn [default]. unfold TypedArray_set.
    rewrite length_replicate. unfold id.
    by destruct (Nat.ltb_spec
      (first_row_length binary + (2 - first_row_length binary mod 2) mod 2)
      (length r)); [|lia].
Qed.

Lemma brailleFromArray_long_row_witness :
  (length [[1]; [1; 1; 1]] mod 4 <> 0
   \/ first_row_length [[1]; [1; 1; 1]] mod 2 <> 0)%nat
  /\ [[1]; [1; 1; 1]] !! 1%nat = Some [1; 1; 1]
  /\ brailleFromArray [[1]; [1; 1; 1]] = Throws RangeError.
Proof.
  assert (Hpad : (length [[1]; [1; 1; 1]] mod 4 <> 0
                  \/ first_row_length [[1]; [1; 1; 1]] mod 2 <> 0)%nat)
    by (left; vm_compute; discriminate).
  assert (Hlong : (first_row_length [[1]; [1; 1; 1]]
                   + (2 - first_row_length [[1]; [1; 1; 1]] mod 2) mod 2
                   < length [1; 1; 1])%nat) by (vm_compute; lia).
  split; [exact Hpad|]. split; [reflexivity|].
  exact (brailleFromArray_long_row [[1]; [1; 1; 1]] 1 [1; 1; 1]
           Hpad eq_refl Hlong).
Defined.

End BrailleFacts.

(** ** dither.js: the values of the result *)

Module LevelsFacts.
Import Js Dither JsFacts DitherFacts.

Lemma cell_alter {A} (d : A) (g : list A -> list A) (a : rows A)
    (y y' x' : nat) :
  y <> y' -> cell d (alter g y a) y' x' = cell d a y' x'.
Proof. intros Hy. unfold cell. by rewrite list_lookup_alter_ne. Qed.

Lemma cell_assign_other {A} (d : A) (a : rows A) (y x y' x' : nat) (v : A) :
  (y <> y' \/ x <> x') -> cell d (assign a y x v) y' x' = cell d a y' x'.
Proof.
  intros Hne. unfold assign.
  destruct (decide (y = y')) as [<-|Hy]; [|by apply cell_alter].
  unfold cell. rewrite list_lookup_alter_eq.
  destruct (a !! y) as [r|]; [|done].
  cbn [fmap option_fmap option_map mbind option_bind].
  rewrite list_lookup_insert_ne by lia. done.
Qed.

Lemma cell_assign_same {A} (d : A) (a : rows A) (h w y x : nat) (v : A) :
  rect a h w -> (y < h)%nat -> (x < w)%nat ->
  cell d (assign a y x v) y x = v.
Proof.
  intros Hrect Hy Hx. unfold assign, cell.
  rewrite list_lookup_alter_eq.
  destruct (rect_lookup a h w y Hrect Hy) as (r & -> & Hr).
  cbn [fmap option_fmap option_map mbind option_bind].
  rewrite list_lookup_insert_eq by lia. done.
Qed.

Lemma cell_add_assign_other (a : rows Q) (y x y' x' : nat) (e : Q) :
  (y <> y' \/ x <> x') ->
  cell 0%Q (add_assign a y x e) y' x' = cell 0%Q a y' x'.
Proof.
  intros Hne. unfold add_assign.
  destruct (decide (y = y')) as [<-|Hy]; [|by apply cell_alter].
  unfold cell. rewrite list_lookup_alter_eq.
  destruct (a !! y) as [r|]; [|done].
  cbn [fmap option_fmap option_map mbind option_bind].
  rewrite list_lookup_alter_ne by lia. done.
Qed.

Lemma cell_add_in_bounds_other (h w : nat) (g : rows Q) (y x : Z)
    (y' x' : nat) (e : Q) :
  (y <> Z.of_nat y' \/ x <> Z.of_nat x') ->
  cell 0%Q (add_in_bounds h w g y x e) y' x' = cell 0%Q g y' x'.
Proof.
  intros Hne. unfold add_in_bounds, in_bounds.
  destruct (Z.leb_spec 0 y), (Z.ltb_spec y (Z.of_nat h)),
    (Z.leb_spec 0 x), (Z.ltb_spec x (Z.of_nat w)); cbn [andb]; try done.
  apply cell_add_assign_other. lia.
Qed.

Lemma add_in_bounds_rect (h w : nat) (g : rows Q) (y x : Z) (e : Q) :
  rect g h w -> rect (add_in_bounds h w g y x e) h w.
Proof.
  intros Hg. unfold add_in_bounds.
  destruct (in_bounds h w y x); [by apply add_assign_rect | done].
Qed.

Lemma diffuse_cell_rect (h w : nat) (step : Q) (g : rows Q) (c : nat * nat) :
  rect g h w -> rect (diffuse_cell h w step g c) h w.
Proof.
  intros Hg. unfold diffuse_cell.
  repeat apply add_in_bounds_rect. by apply assign_rect.
Qed.

(** The step at [(y, x)] leaves the cells before it in raster order as
    they are. *)
Lemma diffuse_cell_before (h w : nat) (step : Q) (g : rows Q)
    (y x y' x' : nat) :
  (y' < y \/ (y' = y /\ x' < x))%nat ->
  cell 0%Q (diffuse_cell h w step g (y, x)) y' x' = cell 0%Q g y' x'.
Proof.
  intros Hbefore. unfold diffuse_cell. cbn [fst snd].
  rewrite !cell_add_in_bounds_other by lia.
  apply cell_assign_other. lia.
Qed.

(** The step at [(y, x)] leaves the quantized value in that cell. *)
Lemma diffuse_cell_here (h w : nat) (step : Q) (g : rows Q) (y x : nat) :
  rect g h w -> (y < h)%nat -> (x < w)%nat ->
  cell 0%Q (diffuse_cell h w step g (y, x)) y x
  = quantize step (cell 0%Q g y x).
Proof.
  intros Hg Hy Hx. unfold diffuse_cell. cbn [fst snd].
  rewrite !cell_add_in_bounds_other by lia.
  by apply (cell_assign_same _ _ h w).
Qed.

Lemma raster_length (h w : nat) : length (raster h w) = (h * w)%nat.
Proof.
  unfold raster. rewrite length_join, <- list_fmap_compose.
  rewrite (sum_list_fmap_same w); [by rewrite length_seq|].
  apply Forall_forall. intros y _. cbn.
  by rewrite length_fmap, length_seq.
Qed.

Lemma raster_index_before (w i n : nat) :
  (0 < w)%nat -> (i < n)%nat ->
  (i / w < n / w \/ (i / w = n / w /\ i mod w < n mod w))%nat.
Proof.
  intros Hw Hin.
  pose proof (Nat.div_mod_eq i w). pose proof (Nat.div_mod_eq n w).
  pose proof (Nat.mod_upper_bound i w ltac:(lia)).
  pose proof (Nat.mod_upper_bound n w ltac:(lia)).
  pose proof (Nat.Div0.div_le_mono i n w ltac:(lia)).
  destruct (decide (i / w = n / w)%nat) as [Heq|Hne]; [right|left]; nia.
Qed.

(** After the first [n] steps of the pass, each of the first [n] cells
    holds a quantized value. *)
Lemma pass_prefix (h w : nat) (step : Q) (gray : rows Q) (n : nat) :
  rect gray h w -> (n <= h * w)%nat ->
  let g := foldl (diffuse_cell h w step) gray (take n (raster h w)) in
  rect g h w
  /\ forall i, (i < n)%nat ->
     exists old, cell 0%Q g (i / w) (i mod w) = quantize step old.
Proof.
  intros Hgray. induction n as [|n IH]; intros Hn; cbn zeta.
  - split; [done | intros i Hi; lia].
  - destruct (IH ltac:(lia)) as [Hg Hcells]. cbn zeta in *.
    assert (0 < w)%nat as Hw by nia.
    rewrite (take_S_r _ _ _ (raster_lookup h w n ltac:(lia))), foldl_snoc.
    set (g := foldl (diffuse_cell h w step) gray (take n (raster h w))) in *.
    split; [by apply diffuse_cell_rect|].
    intros i Hi. destruct (decide (i = n)) as [->|Hne].
    + eexists. apply (diffuse_cell_here h w); [done| |].
      * apply Nat.Div0.div_lt_upper_bound. lia.
      * by apply Nat.mod_upper_bound; lia.
    + destruct (Hcells i ltac:(lia)) as [old Hold]. exists old.
      rewrite diffuse_cell_before; [done|].
      apply raster_index_before; lia.
Qed.

(** Every cell of the grid after the pass holds a quantized value. *)
Lemma pass_quantizes (h w : nat) (step : Q) (gray : rows Q) (y x : nat) :
  rect gray h w -> (y < h)%nat -> (x < w)%nat ->
  exists old,
    cell 0%Q (foldl (diffuse_cell h w step) gray (raster h w)) y x
    = quantize step old.
Proof.
  intros Hgray Hy Hx.
  destruct (pass_prefix h w step gray (h * w) Hgray ltac:(lia)) as [_ Hcells].
  cbn zeta in Hcells. rewrite take_ge in Hcells by (rewrite raster_length; lia).
  assert (y * w + x < h * w)%nat as Hi by nia.
  destruct (Hcells _ Hi) as [old Hold]. exists old.
  replace ((y * w + x) / w)%nat with y in Hold
    by (apply Nat.div_unique with (r := x); lia).
  replace ((y * w + x) mod w)%nat with x in Hold
    by (apply Nat.mod_unique with (q := y); lia).
  exact Hold.
Qed.

Lemma cell_map {A} (f : A -> A) (d : A) (a : rows A) (h w y x : nat) :
  rect a h w -> (y < h)%nat -> (x < w)%nat ->
  cell d (map (map f) a) y x = f (cell d a y x).
Proof.
  intros Hrect Hy Hx. unfold cell.
  destruct (rect_lookup a h w y Hrect Hy) as (r & Hr & Hlen).
  destruct (lookup_lt_is_Some_2 r x ltac:(lia)) as [v Hv].
  change map with (@fmap list _).
  rewrite list_lookup_fmap, Hr.
  cbn [fmap option_fmap option_map mbind option_bind].
  by rewrite list_lookup_fmap, Hv.
Qed.

Lemma clamp01_low (v : Q) : (v <= 0)%Q -> (clamp01 v == 0)%Q.
Proof.
  intros Hv. unfold clamp01. apply Q.max_l.
  apply Qle_trans with v; [apply Q.le_min_r | done].
Qed.

Lemma clamp01_high (v : Q) : (1 <= v)%Q -> (clamp01 v == 1)%Q.
Proof.
  intros Hv. unfold clamp01.
  rewrite Q.max_r by (apply Q.min_glb; [discriminate|];
                      apply Qle_trans with 1%Q; [discriminate | done]).
  by apply Q.min_l.
Qed.

Lemma clamp01_middle (v : Q) : (0 <= v <= 1)%Q -> (clamp01 v == v)%Q.
Proof.
  intros [H0 H1]. unfold clamp01.
  rewrite Q.max_r by (apply Q.min_glb; [discriminate | done]).
  by apply Q.min_r.
Qed.

(** A clamped multiple of [1 / m] is one of the [m + 1] levels. *)
Lemma clamp01_level (k m : Z) :
  0 < m ->
  exists k', 0 <= k' <= m
    /\ (clamp01 (inject_Z k * (1 / inject_Z m)) == inject_Z k' / inject_Z m)%Q.
Proof.
  intros Hm.
  assert (0 < inject_Z m)%Q as Hm'
    by (change 0%Q with (inject_Z 0); by rewrite <- Zlt_Qlt).
  assert (~ inject_Z m == 0)%Q as Hne by (intros E; rewrite E in Hm'; done).
  assert (inject_Z k * (1 / inject_Z m) == inject_Z k / inject_Z m)%Q as Hz
    by (field; done).
  destruct (Z_le_gt_dec k 0) as [Hlow|Hpos];
    [|destruct (Z_le_gt_dec m k) as [Hhigh|Hmid]].
  - exists 0. split; [lia|].
    rewrite clamp01_low; [by field|].
    rewrite Hz. apply Qle_shift_div_r; [done|].
    rewrite Qmult_0_l. change 0%Q with (inject_Z 0). by rewrite <- Zle_Qle.
  - exists m. split; [lia|].
    rewrite clamp01_high; [by field|].
    rewrite Hz. apply Qle_shift_div_l; [done|].
    rewrite Qmult_1_l. by rewrite <- Zle_Qle.
  - exists k. split; [lia|].
    rewrite clamp01_middle; [done|].
    rewrite Hz. split.
    + apply Qle_shift_div_l; [done|].
      rewrite Qmult_0_l. change 0%Q with (inject_Z 0).
      rewrite <- Zle_Qle. lia.
    + apply Qle_shift_div_r; [done|].
      rewrite Qmult_1_l. rewrite <- Zle_Qle. lia.
Qed.

Lemma clamp01_integer (n : Z) :
  clamp01 (clamp01 (inject_Z n * 1)) = 0%Q
  \/ clamp01 (clamp01 (inject_Z n * 1)) = 1%Q.
Proof.
  replace (inject_Z n * 1)%Q with (n # 1)%Q
    by (unfold Qmult, inject_Z; cbn; by rewrite Z.mul_1_r).
  assert (clamp01 (n # 1) = 0%Q \/ clamp01 (n # 1) = 1%Q) as [-> | ->];
    [|by left|by right].
  assert (Qcompare 1 (n # 1) = (1 ?= n)) as H1
    by (unfold Qcompare; cbn [Qnum Qden]; by rewrite !Z.mul_1_r).
  assert (Qcompare 0 (n # 1) = (0 ?= n)) as H0
    by (unfold Qcompare; cbn [Qnum Qden]; by rewrite !Z.mul_1_r).
  unfold clamp01, Qmin, Qmax, GenericMinMax.gmin, GenericMinMax.gmax.
  rewrite H1. destruct (1 ?= n) eqn:E1; [by right | by right |].
  rewrite H0. apply Z.compare_gt_iff in E1.
  destruct (0 ?= n) eqn:E0; [by left | | by left].
  fold (Z.lt 0 n) in E0. exfalso. lia.
Qed.

Lemma step_for_binary (levels : Z) : levels <= 2 -> step_for levels = 1%Q.
Proof.
  intros Hl. unfold step_for.
  destruct (Z.ltb_spec 1 levels); [|done].
  by replace levels with 2 by lia.
Qed.

(** X5. On a grid of [h] rows of [w] cells, every cell of the result of
    [floydSteinberg] is a quantization level: for [levels >= 2] it equals
    [k / (levels - 1)] for an integer [k] from 0 to [levels - 1], and for
    [levels <= 2] it is 0 or 1. *)
Theorem floydSteinberg_levels (gray : rows Q) (levels : Z) (h w y x : nat) :
  rect gray h w -> first_row_length gray = w ->
  (y < h)%nat -> (x < w)%nat ->
  exists v,
    (floydSteinberg gray levels !! y ≫= (.!! x)) = Some v
    /\ (2 <= levels ->
        exists k, 0 <= k <= levels - 1
          /\ (v == inject_Z k / inject_Z (levels - 1))%Q)
    /\ (levels <= 2 -> v = 0%Q \/ v = 1%Q).
Proof.
  intros Hrect Hw Hy Hx.
  destruct (floydSteinberg_diffuse gray levels h w Hrect Hw) as [Heq Hres].
  destruct (pass_quantizes h w (step_for levels) gray y x Hrect Hy Hx)
    as [old Hold].
  assert (Hv : cell 0%Q (floydSteinberg gray levels) y x
               = clamp01 (quantize (step_for levels) old)).
  { rewrite Heq. unfold diffuse. pose proof Hrect as [Hh _].
    rewrite Hw, Hh, <- Hold.
    apply (cell_map _ _ _ h w); [|done|done].
    apply foldl_invariant; [done|]. intros g c Hg.
    by apply diffuse_cell_rect. }
  exists (cell 0%Q (floydSteinberg gray levels) y x).
  split; [by apply (rect_cell _ _ h w)|]. rewrite Hv. unfold quantize. split.
  - intros Hl. unfold step_for. destruct (Z.ltb_spec 1 levels); [|lia].
    destruct (clamp01_level (round (old / (1 / inject_Z (levels - 1))))
                (levels - 1) ltac:(lia)) as (k & Hk & Hq).
    exists k. split; [done|]. rewrite <- Hq.
    apply clamp01_middle, clamp01_range.
  - intros Hl. rewrite (step_for_binary levels Hl). apply clamp01_integer.
Qed.

Lemma floydSteinberg_levels_witness :
  rect half_grid 2 2 /\ first_row_length half_grid = 2%nat
  /\ (1 < 2)%nat /\ (0 < 2)%nat
  /\ exists v, (floydSteinberg half_grid 2 !! 1%nat ≫= (.!! 0%nat)) = Some v
       /\ (v = 0%Q \/ v = 1%Q).
Proof.
  assert (Hrect : rect half_grid 2 2)
    by (split; [reflexivity | repeat constructor]).
  assert (H1 : (1 < 2)%nat) by lia. assert (H0 : (0 < 2)%nat) by lia.
  split; [exact Hrect|]. split; [reflexivity|].
  split; [exact H1|]. split; [exact H0|].
  destruct (floydSteinberg_levels half_grid 2 2 2 1 0 Hrect eq_refl H1 H0)
    as (v & Hv & _ & Hbin).
  exists v. split; [exact Hv|]. apply Hbin. lia.
Defined.

End LevelsFacts.

(** ** dither.js: what the diffusion conserves and what it leaves alone *)

Module DiffusionFacts.
Import Js Dither JsFacts DitherFacts LevelsFacts.

(** The sum of the cells of a grid. *)
Definition row_total (r : list Q) : Q := foldr Qplus 0%Q r.
Definition total (g : rows Q) : Q :=
  foldr (fun r s => (row_total r + s)%Q) 0%Q g.

(** The share of the error of the cell [(y, x)] that lands on a cell of the
    grid. *)
Definition kept (h w y x : nat) : Q :=
  ((if (x + 1 <? w)%nat then 7 # 16 else 0)
   + (if (y + 1 <? h)%nat then
        (if (0 <? x)%nat then 3 # 16 else 0) + (5 # 16)
        + (if (x + 1 <? w)%nat then 1 # 16 else 0)
      else 0))%Q.

Lemma row_total_alter (f : Q -> Q) (r : list Q) (x : nat) (v : Q) :
  r !! x = Some v -> (row_total (alter f x r) == row_total r + (f v - v))%Q.
Proof.
  revert x. induction r as [|u r IH]; intros [|x] Hv; try done.
  - injection Hv as ->. unfold row_total. cbn [alter list_alter foldr]. ring.
  - unfold row_total. cbn [alter list_alter foldr].
    change (foldr Qplus 0%Q (list_alter f x r)) with (row_total (alter f x r)).
    rewrite (IH x Hv). unfold row_total. ring.
Qed.

Lemma row_total_insert (r : list Q) (x : nat) (v v' : Q) :
  r !! x = Some v -> (row_total (<[x := v']> r) == row_total r + (v' - v))%Q.
Proof.
  revert x. induction r as [|u r IH]; intros [|x] Hv; try done.
  - injection Hv as ->. unfold row_total. cbn [insert list_insert foldr].
    ring.
  - unfold row_total. cbn [insert list_insert foldr].
    change (foldr Qplus 0%Q (list_insert x v' r))
      with (row_total (<[x := v']> r)).
    rewrite (IH x Hv). unfold row_total. ring.
Qed.

Lemma total_alter (G : list Q -> list Q) (g : rows Q) (y : nat) (r : list Q) :
  g !! y = Some r ->
  (total (alter G y g) == total g + (row_total (G r) - row_total r))%Q.
Proof.
  revert y. induction g as [|u g IH]; intros [|y] Hr; try done.
  - injection Hr as ->. unfold total. cbn [alter list_alter foldr]. ring.
  - unfold total. cbn [alter list_alter foldr].
    change (foldr (fun r s => (row_total r + s)%Q) 0%Q (list_alter G y g))
      with (total (alter G y g)).
    rewrite (IH y Hr). unfold total. ring.
Qed.

Lemma total_add_assign (g : rows Q) (h w y x : nat) (e : Q) :
  rect g h w -> (y < h)%nat -> (x < w)%nat ->
  (total (add_assign g y x e) == total g + e)%Q.
Proof.
  intros Hg Hy Hx. destruct (rect_lookup g h w y Hg Hy) as (r & Hr & Hlen).
  destruct (lookup_lt_is_Some_2 r x ltac:(lia)) as [v Hv].
  unfold add_assign.
  rewrite (total_alter _ _ _ _ Hr), (row_total_alter _ _ _ _ Hv). ring.
Qed.

Lemma total_assign (g : rows Q) (h w y x : nat) (v' : Q) :
  rect g h w -> (y < h)%nat -> (x < w)%nat ->
  (total (assign g y x v') == total g + (v' - cell 0%Q g y x))%Q.
Proof.
  intros Hg Hy Hx. destruct (rect_lookup g h w y Hg Hy) as (r & Hr & Hlen).
  destruct (lookup_lt_is_Some_2 r x ltac:(lia)) as [v Hv].
  unfold assign, cell.
  rewrite (total_alter _ _ _ _ Hr), (row_total_insert _ _ _ _ Hv), Hr.
  cbn [mbind option_bind]. rewrite Hv. cbn [default id]. ring.
Qed.

(** X18. One step of the diffusion at a cell of the grid changes the sum of
    the grid by the part of the quantization error that falls off the grid:
    the sum drops by the error times one minus the share that lands on
    neighbours. At a cell with all four neighbours (not in the first or
    last column, not in the last row) the shares 7/16, 3/16, 5/16 and 1/16
    add up to the whole error and the sum of the grid is conserved. *)
Theorem diffuse_at_conserves (h w : nat) (step : Q) (img : rows Q)
    (y x : nat) :
  rect img h w -> (y < h)%nat -> (x < w)%nat ->
  (total (diffuse_at h w step img y x)
   == total img
      - (cell 0%Q img y x - quantize step (cell 0%Q img y x))
        * (1 - kept h w y x))%Q
  /\ ((0 < x)%nat -> (x + 1 < w)%nat -> (y + 1 < h)%nat ->
      (total (diffuse_at h w step img y x) == total img)%Q).
Proof.
  intros Himg Hy Hx.
  assert (Hsum : (total (diffuse_at h w step img y x)
                  == total img
                     - (cell 0%Q img y x - quantize step (cell 0%Q img y x))
                       * (1 - kept h w y x))%Q).
  { unfold diffuse_at, kept. fold (quantize step (cell 0%Q img y x)).
    set (old := cell 0%Q img y x). set (q := quantize step old).
    pose proof (assign_rect img h w y x q Himg) as H0.
    pose proof (total_assign img h w y x q Himg Hy Hx) as T0. fold old in T0.
    destruct (Nat.ltb_spec (x + 1) w), (Nat.ltb_spec (y + 1) h),
      (Z.leb_spec 0 (Z.of_nat x - 1)), (Nat.ltb_spec 0 x); try lia;
      repeat (rewrite (total_add_assign _ h w)
                by (repeat apply add_assign_rect; done || lia));
      rewrite T0; ring. }
  split; [exact Hsum|]. intros Hx0 Hx1 Hy1. rewrite Hsum. unfold kept.
  destruct (Nat.ltb_spec (x + 1) w), (Nat.ltb_spec (y + 1) h),
    (Nat.ltb_spec 0 x); try lia. ring.
Qed.

(** Nine cells, the middle one with all four neighbours. *)
Definition nine : rows Q :=
  [[(1 # 4)%Q; (1 # 2)%Q; (3 # 4)%Q];
   [(1 # 3)%Q; (2 # 5)%Q; (2 # 3)%Q];
   [(1 # 8)%Q; (1 # 2)%Q; (7 # 8)%Q]].

Lemma diffuse_at_conserves_witness :
  rect nine 3 3 /\ (1 < 3)%nat
  /\ (total (diffuse_at 3 3 1 nine 1 1) == total nine)%Q.
Proof.
  assert (Hrect : rect nine 3 3)
    by (split; [reflexivity | repeat constructor]).
  assert (H1 : (1 < 3)%nat) by lia.
  split; [exact Hrect|]. split; [exact H1|].
  apply (diffuse_at_conserves 3 3 1 nine 1 1 Hrect H1 H1); lia.
Defined.

(** Two grids with equal cells. *)
Definition same (a b : rows Q) : Prop := Forall2 (Forall2 Qeq) a b.

(** A value that the dithering can return for the given number of levels. *)
Definition level (levels : Z) (v : Q) : Prop :=
  exists k, 0 <= k <= Z.max 1 (levels - 1)
    /\ (v == inject_Z k * step_for levels)%Q.

Lemma same_refl (a : rows Q) : same a a.
Proof.
  apply Forall_Forall2_diag, Forall_forall. intros r _.
  apply Forall_Forall2_diag, Forall_forall. intros v _. reflexivity.
Qed.

Lemma same_trans (a b c : rows Q) : same a b -> same b c -> same a c.
Proof.
  unfold same. intros Hab. revert c.
  induction Hab as [|r1 r2 a b Hr Hab IH]; intros c Hbc;
    inversion Hbc as [|? r3 ? c' Hr' Hbc']; subst; constructor; [|by apply IH].
  clear -Hr Hr'. revert r3 Hr'.
  induction Hr as [|u v r1 r2 Huv Hr IH]; intros r3 Hr';
    inversion Hr' as [|? t ? r3' Hvt Hr'']; subst; constructor;
    [by rewrite Huv | by apply IH].
Qed.

Lemma same_cell (a b : rows Q) (y x : nat) :
  same a b -> (cell 0%Q a y x == cell 0%Q b y x)%Q.
Proof.
  intros Hab. unfold cell.
  destruct (a !! y) as [r|] eqn:Hr.
  - destruct (Forall2_lookup_l _ _ _ _ _ Hab Hr) as (r' & -> & Hrr).
    cbn [mbind option_bind].
    destruct (r !! x) as [v|] eqn:Hv.
    + destruct (Forall2_lookup_l _ _ _ _ _ Hrr Hv) as (v' & -> & Hvv).
      exact Hvv.
    + rewrite (proj2 (lookup_ge_None r' x)); [reflexivity|].
      rewrite <- (Forall2_length _ _ _ Hrr). by apply lookup_ge_None.
  - rewrite (proj2 (lookup_ge_None b y)); [reflexivity|].
    rewrite <- (Forall2_length _ _ _ Hab). by apply lookup_ge_None.
Qed.

Lemma same_row_alter (f : Q -> Q) (r : list Q) (x : nat) :
  (forall v, r !! x = Some v -> (f v == v)%Q) ->
  Forall2 Qeq (alter f x r) r.
Proof.
  revert x. induction r as [|u r IH]; intros [|x] Hf; cbn [alter list_alter].
  - constructor.
  - constructor.
  - constructor; [by apply Hf|].
    apply Forall_Forall2_diag, Forall_forall. intros v _. reflexivity.
  - constructor; [reflexivity|]. apply IH. intros v Hv. by apply Hf.
Qed.

Lemma same_alter (G : list Q -> list Q) (g : rows Q) (y : nat) :
  (forall r, g !! y = Some r -> Forall2 Qeq (G r) r) ->
  same (alter G y g) g.
Proof.
  revert y. induction g as [|u g IH]; intros [|y] HG; cbn [alter list_alter].
  - constructor.
  - constructor.
  - constructor; [by apply HG | apply same_refl].
  - constructor.
    + apply Forall_Forall2_diag, Forall_forall. intros v _. reflexivity.
    + apply IH. intros r Hr. by apply HG.
Qed.

Lemma same_add_assign (g : rows Q) (y x : nat) (e : Q) :
  (e == 0)%Q -> same (add_assign g y x e) g.
Proof.
  intros He. unfold add_assign. apply same_alter. intros r _.
  apply same_row_alter. intros v _. rewrite He. ring.
Qed.

Lemma same_add_in_bounds (h w : nat) (g : rows Q) (y x : Z) (e : Q) :
  (e == 0)%Q -> same (add_in_bounds h w g y x e) g.
Proof.
  intros He. unfold add_in_bounds.
  destruct (in_bounds h w y x); [by apply same_add_assign | apply same_refl].
Qed.

Lemma same_row_insert (r : list Q) (x : nat) (v : Q) :
  (forall u, r !! x = Some u -> (v == u)%Q) ->
  Forall2 Qeq (<[x := v]> r) r.
Proof.
  revert x. induction r as [|u r IH]; intros [|x] Hf;
    cbn [insert list_insert].
  - constructor.
  - constructor.
  - constructor; [by apply Hf|].
    apply Forall_Forall2_diag, Forall_forall. intros t _. reflexivity.
  - constructor; [reflexivity|]. apply IH. intros t Ht. by apply Hf.
Qed.

Lemma same_assign (g : rows Q) (y x : nat) (v : Q) :
  (v == cell 0%Q g y x)%Q -> same (assign g y x v) g.
Proof.
  intros Hv. unfold assign. apply same_alter. intros r Hr.
  apply same_row_insert. intros u Hu.
  unfold cell in Hv. rewrite Hr in Hv. cbn [mbind option_bind] in Hv.
  by rewrite Hu in Hv.
Qed.

Lemma same_clamped (a b : rows Q) :
  same a b -> Forall (Forall (fun v => (0 <= v <= 1)%Q)) b ->
  same (map (map clamp01) a) b.
Proof.
  unfold same. induction 1 as [|r1 r2 a b Hr Hab IH]; intros Hb;
    [constructor|].
  apply Forall_cons in Hb as [Hr2 Hb]. cbn [map].
  constructor; [|by apply IH].
  clear -Hr Hr2. induction Hr as [|u v r1 r2 Huv Hr IH]; [constructor|].
  apply Forall_cons in Hr2 as [Hv Hr2]. cbn [map].
  constructor; [|by apply IH].
  rewrite clamp01_middle; [done|]. by rewrite Huv.
Qed.

Lemma round_integer (x : Q) (k : Z) : (x == inject_Z k)%Q -> round x = k.
Proof.
  intros Hx. unfold round. rewrite Hx.
  pose proof (Qfloor_le (inject_Z k + (1 # 2))) as H1.
  pose proof (Qlt_floor (inject_Z k + (1 # 2))) as H2.
  set (n := Qfloor (inject_Z k + (1 # 2))) in *.
  assert (inject_Z n < inject_Z (k + 1))%Q as Hlt
    by (rewrite inject_Z_plus; change (inject_Z 1) with 1%Q; lra).
  assert (inject_Z k < inject_Z (n + 1))%Q as Hgt by lra.
  rewrite <- Zlt_Qlt in Hlt, Hgt. lia.
Qed.

Lemma step_for_pos (levels : Z) : (0 < step_for levels)%Q.
Proof.
  unfold step_for. destruct (Z.ltb_spec 1 levels); [|reflexivity].
  apply Qlt_shift_div_l.
  - change 0%Q with (inject_Z 0). rewrite <- Zlt_Qlt. lia.
  - rewrite Qmult_0_l. reflexivity.
Qed.

Lemma level_range (levels k : Z) :
  0 <= k <= Z.max 1 (levels - 1) ->
  (0 <= inject_Z k * step_for levels <= 1)%Q.
Proof.
  intros Hk. unfold step_for. destruct (Z.ltb_spec 1 levels) as [Hl|Hl].
  - assert (0 < inject_Z (levels - 1))%Q as Hm
      by (change 0%Q with (inject_Z 0); rewrite <- Zlt_Qlt; lia).
    assert (inject_Z k * (1 / inject_Z (levels - 1))
            == inject_Z k / inject_Z (levels - 1))%Q as ->
      by (field; intros E; rewrite E in Hm; done).
    split.
    + apply Qle_shift_div_l; [done|]. rewrite Qmult_0_l.
      change 0%Q with (inject_Z 0). rewrite <- Zle_Qle. lia.
    + apply Qle_shift_div_r; [done|]. rewrite Qmult_1_l.
      rewrite <- Zle_Qle. lia.
  - rewrite Qmult_1_r. split.
    + change 0%Q with (inject_Z 0). rewrite <- Zle_Qle. lia.
    + change 1%Q with (inject_Z 1). rewrite <- Zle_Qle. lia.
Qed.

Lemma level_quantize (levels : Z) (v : Q) :
  level levels v -> (quantize (step_for levels) v == v)%Q.
Proof.
  intros (k & Hk & Hv). unfold quantize.
  pose proof (step_for_pos levels) as Hpos.
  assert (v / step_for levels == inject_Z k)%Q as Hdiv
    by (rewrite Hv; field; intros E; rewrite E in Hpos; done).
  rewrite (round_integer _ k Hdiv), clamp01_middle by (by apply level_range).
  by rewrite Hv.
Qed.

(** At a cell that holds a level the step changes no value. *)
Lemma diffuse_cell_same (levels : Z) (h w : nat) (g : rows Q)
    (c : nat * nat) :
  level levels (cell 0%Q g c.1 c.2) ->
  same (diffuse_cell h w (step_for levels) g c) g.
Proof.
  intros Hq%level_quantize. unfold diffuse_cell.
  set (old := cell 0%Q g c.1 c.2) in *.
  set (q := quantize (step_for levels) old) in *.
  assert (forall s, ((old - q) * s == 0)%Q) as Herr
    by (intros s; rewrite Hq; ring).
  repeat (eapply same_trans; [by apply same_add_in_bounds|]).
  by apply same_assign.
Qed.

(** X19. A grid whose cells all hold levels of the quantization, multiples
    [k * step] of the step with [k] from 0 to [levels - 1] (0 or 1 when
    [levels] is below 2), is a fixed point of [floydSteinberg]: no error
    arises, nothing is diffused, and every cell keeps its value. *)
Theorem floydSteinberg_fixed (gray : rows Q) (levels : Z) (h w : nat) :
  rect gray h w -> first_row_length gray = w ->
  (forall y x, (y < h)%nat -> (x < w)%nat ->
     exists k, 0 <= k <= Z.max 1 (levels - 1)
       /\ (cell 0%Q gray y x == inject_Z k * step_for levels)%Q) ->
  Forall2 (Forall2 Qeq) (floydSteinberg gray levels) gray.
Proof.
  intros Hrect Hw Hlevels.
  destruct (floydSteinberg_diffuse gray levels h w Hrect Hw) as [-> _].
  unfold diffuse. pose proof Hrect as [Hh Hrows]. rewrite Hw, Hh.
  assert (Hall : forall y x, level levels (cell 0%Q gray y x)).
  { intros y x.
    destruct (Nat.lt_ge_cases y h) as [Hy|Hy];
      [destruct (Nat.lt_ge_cases x w) as [Hx|Hx]|].
    - by apply Hlevels.
    - exists 0. split; [lia|]. unfold cell.
      destruct (rect_lookup gray h w y Hrect Hy) as (r & -> & Hr).
      cbn [mbind option_bind].
      rewrite (proj2 (lookup_ge_None r x)) by lia. cbn [default]. ring.
    - exists 0. split; [lia|]. unfold cell.
      rewrite (proj2 (lookup_ge_None gray y)) by lia. cbn [default mbind
        option_bind]. ring. }
  apply same_clamped.
  - apply (foldl_invariant (fun g => same g gray)); [apply same_refl|].
    intros g c Hg. apply same_trans with g; [|done].
    apply diffuse_cell_same.
    destruct (Hall c.1 c.2) as (k & Hk & Hv). exists k. split; [done|].
    by rewrite (same_cell g gray c.1 c.2 Hg).
  - apply Forall_lookup_2. intros y r Hr.
    apply Forall_lookup_2. intros x v Hv.
    destruct (Hall y x) as (k & Hk & Hcell).
    unfold cell in Hcell. rewrite Hr in Hcell.
    cbn [mbind option_bind] in Hcell. rewrite Hv in Hcell.
    cbn [default id] in Hcell. rewrite Hcell. by apply level_range.
Qed.

(** Three levels: 0, 1/2 and 1. *)
Definition three_levels : rows Q :=
  [[0%Q; (1 # 2)%Q; 1%Q]; [1%Q; (1 # 2)%Q; 0%Q]].

Lemma three_levels_cells (y x : nat) :
  (y < 2)%nat -> (x < 3)%nat ->
  exists k, 0 <= k <= Z.max 1 (3 - 1)
    /\ (cell 0%Q three_levels y x == inject_Z k * step_for 3)%Q.
Proof.
  intros Hy Hx.
  destruct y as [|[|y]]; [| |lia]; destruct x as [|[|[|x]]]; try lia.
  - by exists 0.
  - by exists 1.
  - by exists 2.
  - by exists 2.
  - by exists 1.
  - by exists 0.
Defined.

Lemma floydSteinberg_fixed_witness :
  rect three_levels 2 3 /\ first_row_length three_levels = 3%nat
  /\ Forall2 (Forall2 Qeq) (floydSteinberg three_levels 3) three_levels.
Proof.
  assert (Hrect : rect three_levels 2 3)
    by (split; [reflexivity | repeat constructor]).
  split; [exact Hrect|]. split; [reflexivity|].
  exact (floydSteinberg_fixed three_levels 3 2 3 Hrect eq_refl
           three_levels_cells).
Defined.

End DiffusionFacts.

(** ** gif-parser.js: compositing, frame by frame *)

Module CompositorFacts.
Import Js JsFacts CanvasFacts GifParser GifParserFacts.

(** The patch of a frame as an image. *)
Definition patch_image (f : Raw.frame) : Canvas.ImageData :=
  {| Canvas.width := Raw.width (Raw.dims f);
     Canvas.height := Raw.height (Raw.dims f);
     Canvas.data := Raw.patch f |}.

Lemma patch_image_sized (f : Raw.frame) :
  valid f ->
  sized (Raw.width (Raw.dims f)) (Raw.height (Raw.dims f)) (patch_image f).
Proof. intros (_ & _ & Hlen). by repeat split. Qed.

Section Drawing.
Variable blend : Canvas.pixel -> Canvas.pixel -> Canvas.pixel.

Lemma draw_patch_draws (c : Canvas.ImageData) (f : Raw.frame) :
  valid f ->
  draw_patch blend c f
  = Returns (Canvas.drawImage blend c (patch_image f)
               (Raw.left (Raw.dims f)) (Raw.top (Raw.dims f))).
Proof.
  intros Hf. pose proof Hf as (Hw & Hh & Hpatch).
  unfold draw_patch, Canvas.createImageData.
  destruct (Nat.eqb_spec (Raw.width (Raw.dims f)) 0); [lia|].
  destruct (Nat.eqb_spec (Raw.height (Raw.dims f)) 0); [lia|].
  cbn [orb mbind outcome_bind]. unfold TypedArray_set.
  destruct (render_sized (Raw.width (Raw.dims f)) (Raw.height (Raw.dims f))
              (fun _ _ => Canvas.transparent)) as (_ & _ & Hlen).
  rewrite Hlen, Hpatch, Nat.ltb_irrefl.
  rewrite drop_ge, app_nil_r by lia.
  cbn [Canvas.width Canvas.height Canvas.render mbind outcome_bind].
  fold (patch_image f).
  rewrite (putImageData_all (Raw.width (Raw.dims f))
             (Raw.height (Raw.dims f)));
    [done | apply render_sized | by apply patch_image_sized].
Qed.

Variables width height : nat.
Hypothesis width_pos : (0 < width)%nat.
Hypothesis height_pos : (0 < height)%nat.

(** X6. Every frame that [buildFullFrames] returns has the size of the
    canvas, and the frame returned for a raw frame [F] shows the canvas as
    it was before [F] with the patch drawn over it: a pixel inside the
    rectangle of [F] is the blend of the pixel of the patch with the pixel
    of the canvas, a pixel outside is the pixel of the canvas. *)
Theorem frame_is_patch_over_canvas (pre post : list Raw.frame)
    (F : Raw.frame) :
  Forall valid (pre ++ F :: post) ->
  exists before outs out,
    run blend width height pre = Returns before
    /\ buildFullFrames blend (pre ++ F :: post) width height = Returns outs
    /\ outs !! length pre = Some out
    /\ sized width height (Full.imageData out)
    /\ forall x y, (x < width)%nat -> (y < height)%nat ->
       Canvas.pixel_at (Full.imageData out) x y
       = if Canvas.inside (Raw.left (Raw.dims F)) (Raw.top (Raw.dims F))
              (Raw.width (Raw.dims F)) (Raw.height (Raw.dims F)) x y
         then blend
                (Canvas.pixel_at (patch_image F)
                   (x - Raw.left (Raw.dims F)) (y - Raw.top (Raw.dims F)))
                (Canvas.pixel_at (ctx before) x y)
         else Canvas.pixel_at (ctx before) x y.
Proof.
  intros Hvalid.
  destruct (turn_at blend width height width_pos height_pos pre post F Hvalid)
    as (before & drawn & after & outs & Hrun & [Hctx _] & _ & Hdraw & Hdrawn
        & _ & _ & Hbuild & _ & Hout).
  apply Forall_app in Hvalid as [_ [HF _]%Forall_cons].
  rewrite (draw_patch_draws _ _ HF) in Hdraw. injection Hdraw as <-.
  eexists before, outs, _.
  split; [done|]. split; [done|]. split; [exact Hout|]. split; [done|].
  intros x y Hx Hy. cbn [captured Full.imageData].
  unfold Canvas.drawImage. destruct Hctx as (-> & -> & _).
  by rewrite pixel_at_render.
Qed.

(** X7. For a frame whose disposal is neither 2 nor 3, the canvas that the
    next frame is drawn on is the frame just returned, and that frame is
    the snapshot from then on. *)
Theorem keep_leaves_canvas (pre post : list Raw.frame) (F : Raw.frame) :
  Forall valid (pre ++ F :: post) ->
  Raw.disposalType F <> 2 -> Raw.disposalType F <> 3 ->
  exists outs out after,
    buildFullFrames blend (pre ++ F :: post) width height = Returns outs
    /\ outs !! length pre = Some out
    /\ run blend width height (pre ++ [F]) = Returns after
    /\ ctx after = Full.imageData out
    /\ previousImageData after = Some (Full.imageData out).
Proof.
  intros Hvalid H2 H3.
  destruct (turn_at blend width height width_pos height_pos pre post F Hvalid)
    as (before & drawn & after & outs & Hrun & Hbefore & _ & Hdraw & Hdrawn
        & Hstep & Hrun' & Hbuild & _ & Hout).
  apply Forall_app in Hvalid as [_ [HF _]%Forall_cons].
  destruct (compose_returns blend width height width_pos height_pos
              before F HF Hbefore)
    as (drawn' & after' & Hdraw' & _ & Hstep' & _ & _ & _ & _ & Hkeep).
  rewrite Hdraw in Hdraw'. injection Hdraw' as <-.
  rewrite Hstep in Hstep'. injection Hstep' as <-.
  destruct (Hkeep (conj H2 H3)) as [Hctx Hsnap].
  exists outs, (captured drawn F), after. by repeat (split; [done|]).
Qed.

(** X8. The frames returned for the first frames of a sequence do not
    depend on the frames that follow: they are the first frames returned
    for the whole sequence. *)
Theorem frames_of_prefix (l1 l2 : list Raw.frame) :
  Forall valid (l1 ++ l2) ->
  exists outs1 outs2,
    buildFullFrames blend l1 width height = Returns outs1
    /\ buildFullFrames blend (l1 ++ l2) width height
       = Returns (outs1 ++ outs2)
    /\ length outs1 = length l1.
Proof.
  intros [H1 H2]%Forall_app.
  destruct (loop_returns blend width height width_pos height_pos l1 _
              (initial_consistent width height) H1)
    as (st1 & outs1 & Hrun1 & Hst1 & Hout1 & Hlen1 & _).
  destruct (loop_returns blend width height width_pos height_pos l2 st1
              Hst1 H2) as (st2 & outs2 & Hrun2 & _ & Hout2 & _ & _).
  cbn [initial fullFrames app] in Hout1.
  exists outs1, outs2. unfold buildFullFrames, run.
  rewrite for_of_app, Hrun1. cbn [mbind outcome_bind]. rewrite Hrun2.
  cbn [mbind outcome_bind]. by rewrite Hout2, Hout1.
Qed.

(** X9. A frame of zero width or height, or with a patch of more than
    [width * height * 4] bytes, makes [buildFullFrames] throw when the loop
    reaches it, whatever the frames returned for the frames before it:
    nothing is returned. *)
Theorem bad_frame_throws (pre post : list Raw.frame) (F : Raw.frame) :
  Forall valid pre ->
  ((Raw.width (Raw.dims F) = 0 \/ Raw.height (Raw.dims F) = 0)%nat ->
   buildFullFrames blend (pre ++ F :: post) width height
   = Throws IndexSizeError)
  /\ ((0 < Raw.width (Raw.dims F))%nat ->
      (0 < Raw.height (Raw.dims F))%nat ->
      (Raw.width (Raw.dims F) * Raw.height (Raw.dims F) * 4
       < length (Raw.patch F))%nat ->
      buildFullFrames blend (pre ++ F :: post) width height
      = Throws RangeError).
Proof.
  intros Hpre.
  destruct (loop_returns blend width height width_pos height_pos pre _
              (initial_consistent width height) Hpre)
    as (st & outs & Hrun & _).
  assert (Hstart : forall e,
            draw_patch blend (ctx st) F = Throws e ->
            buildFullFrames blend (pre ++ F :: post) width height
            = Throws e).
  { intros e He. unfold buildFullFrames, run.
    rewrite for_of_app, Hrun. cbn [mbind outcome_bind for_of].
    unfold compose. by rewrite He. }
  split.
  - intros Hzero. apply Hstart. unfold draw_patch, Canvas.createImageData.
    destruct (Nat.eqb_spec (Raw.width (Raw.dims F)) 0),
      (Nat.eqb_spec (Raw.height (Raw.dims F)) 0); try done; lia.
  - intros Hw Hh Hlong. apply Hstart.
    unfold draw_patch, Canvas.createImageData.
    destruct (Nat.eqb_spec (Raw.width (Raw.dims F)) 0); [lia|].
    destruct (Nat.eqb_spec (Raw.height (Raw.dims F)) 0); [lia|].
    cbn [orb mbind outcome_bind]. unfold TypedArray_set.
    destruct (render_sized (Raw.width (Raw.dims F)) (Raw.height (Raw.dims F))
                (fun _ _ => Canvas.transparent)) as (_ & _ & Hlen).
    rewrite Hlen. by destruct (Nat.ltb_spec
      (Raw.width (Raw.dims F) * Raw.height (Raw.dims F) * 4)
      (length (Raw.patch F))); [|lia].
Qed.

End Drawing.

Lemma frame_is_patch_over_canvas_witness :
  (0 < 4)%nat
  /\ Forall valid ([red_screen] ++ blue_square :: [])
  /\ exists outs out,
       buildFullFrames Canvas.over ([red_screen] ++ blue_square :: []) 4 4
       = Returns outs
       /\ outs !! 1%nat = Some out
       /\ sized 4 4 (Full.imageData out).
Proof.
  assert (H4 : (0 < 4)%nat) by lia.
  assert (Hvalid : Forall valid ([red_screen] ++ blue_square :: [])).
  { constructor; [exact red_screen_valid|].
    constructor; [exact blue_square_valid | constructor]. }
  split; [exact H4|]. split; [exact Hvalid|].
  destruct (frame_is_patch_over_canvas Canvas.over 4 4 H4 H4
              [red_screen] [] blue_square Hvalid)
    as (before & outs & out & _ & Hbuild & Hout & Hsized & _).
  exists outs, out. split; [exact Hbuild|]. split; [exact Hout|].
  exact Hsized.
Defined.

Lemma keep_leaves_canvas_witness :
  (0 < 4)%nat
  /\ Forall valid ([red_screen] ++ blue_square :: [])
  /\ Raw.disposalType blue_square <> 2
  /\ Raw.disposalType blue_square <> 3
  /\ exists out after,
       run Canvas.over 4 4 ([red_screen] ++ [blue_square]) = Returns after
       /\ ctx after = Full.imageData out
       /\ previousImageData after = Some (Full.imageData out).
Proof.
  assert (H4 : (0 < 4)%nat) by lia.
  assert (Hvalid : Forall valid ([red_screen] ++ blue_square :: [])).
  { constructor; [exact red_screen_valid|].
    constructor; [exact blue_square_valid | constructor]. }
  assert (H2 : Raw.disposalType blue_square <> 2) by (cbn; lia).
  assert (H3 : Raw.disposalType blue_square <> 3) by (cbn; lia).
  split; [exact H4|]. split; [exact Hvalid|].
  split; [exact H2|]. split; [exact H3|].
  destruct (keep_leaves_canvas Canvas.over 4 4 H4 H4
              [red_screen] [] blue_square Hvalid H2 H3)
    as (outs & out & after & _ & _ & Hrun & Hctx & Hsnap).
  exists out, after. split; [exact Hrun|]. split; [exact Hctx | exact Hsnap].
Defined.

Lemma frames_of_prefix_witness :
  (0 < 4)%nat
  /\ Forall valid ([red_screen] ++ [blue_square])
  /\ exists outs1 outs2,
       buildFullFrames Canvas.over [red_screen] 4 4 = Returns outs1
       /\ buildFullFrames Canvas.over ([red_screen] ++ [blue_square]) 4 4
          = Returns (outs1 ++ outs2).
Proof.
  assert (H4 : (0 < 4)%nat) by lia.
  assert (Hvalid : Forall valid ([red_screen] ++ [blue_square])).
  { constructor; [exact red_screen_valid|].
    constructor; [exact blue_square_valid | constructor]. }
  split; [exact H4|]. split; [exact Hvalid|].
  destruct (frames_of_prefix Canvas.over 4 4 H4 H4
              [red_screen] [blue_square] Hvalid)
    as (outs1 & outs2 & H1 & H12 & _).
  exists outs1, outs2. split; [exact H1 | exact H12].
Defined.

(** A frame whose patch is longer than its rectangle. *)
Definition overlong : Raw.frame :=
  {| Raw.dims := {| Raw.left := 0; Raw.top := 0;
                    Raw.width := 1; Raw.height := 1 |};
     Raw.patch := [255; 0; 0; 255; 0];
     Raw.delay := Some 10;
     Raw.disposalType := 0 |}.

Lemma bad_frame_throws_witness :
  (0 < 4)%nat
  /\ Forall valid [red_screen]
  /\ (0 < Raw.width (Raw.dims overlong))%nat
  /\ (Raw.width (Raw.dims overlong) * Raw.height (Raw.dims overlong) * 4
      < length (Raw.patch overlong))%nat
  /\ buildFullFrames Canvas.over ([red_screen] ++ overlong :: [blue_square])
       4 4
     = Throws RangeError.
Proof.
  assert (H4 : (0 < 4)%nat) by lia.
  assert (Hvalid : Forall valid [red_screen])
    by (constructor; [exact red_screen_valid | constructor]).
  assert (H1 : (0 < Raw.width (Raw.dims overlong))%nat) by (cbn; lia).
  assert (H2 : (0 < Raw.height (Raw.dims overlong))%nat) by (cbn; lia).
  assert (Hlong : (Raw.width (Raw.dims overlong)
                   * Raw.height (Raw.dims overlong) * 4
                   < length (Raw.patch overlong))%nat) by (cbn; lia).
  split; [exact H4|]. split; [exact Hvalid|]. split; [exact H1|].
  split; [exact Hlong|].
  exact (proj2 (bad_frame_throws Canvas.over 4 4 H4 H4
                  [red_screen] [blue_square] overlong Hvalid) H1 H2 Hlong).
Defined.

Section Parsing.
Variable blend : Canvas.pixel -> Canvas.pixel -> Canvas.pixel.
Variable parseGifBuffer : list Z -> outcome (list Raw.frame).

Lemma foldl_max (g : Raw.frame -> nat) (l : list Raw.frame) (m0 : nat) :
  let M := foldl (fun m f => Nat.max m (g f)) m0 l in
  (m0 <= M)%nat
  /\ Forall (fun f => (g f <= M)%nat) l
  /\ (M = m0 \/ Exists (fun f => g f = M) l).
Proof.
  revert m0; induction l as [|f l IH]; intros m0; cbn zeta; cbn [foldl].
  - split; [lia|]. split; [constructor | by left].
  - destruct (IH (Nat.max m0 (g f))) as (Hle & Hall & Hex). cbn zeta in *.
    split; [lia|]. split; [constructor; [lia | done]|].
    destruct Hex as [Hm|Hex]; [|right; by apply Exists_cons_tl].
    destruct (Nat.max_spec m0 (g f)) as [[_ E]|[_ E]].
    + right. apply Exists_cons_hd. rewrite Hm. lia.
    + left. rewrite Hm. lia.
Qed.

(** Every returned frame has the size of the canvas. *)
Lemma frames_sized (width height : nat) (rawFrames : list Raw.frame)
    (outs : list Full.frame) :
  (0 < width)%nat -> (0 < height)%nat -> Forall valid rawFrames ->
  buildFullFrames blend rawFrames width height = Returns outs ->
  length outs = length rawFrames
  /\ Forall (fun o => sized width height (Full.imageData o)) outs.
Proof.
  intros Hw Hh Hvalid Hbuild.
  destruct (loop_returns blend width height Hw Hh rawFrames _
              (initial_consistent width height) Hvalid)
    as (st & outs' & Hrun & _ & Hout & Hlen & _).
  cbn [initial fullFrames app] in Hout.
  assert (outs = outs') as <-.
  { unfold buildFullFrames, run in Hbuild. rewrite Hrun in Hbuild.
    cbn [mbind outcome_bind] in Hbuild. injection Hbuild as <-. done. }
  split; [done|]. apply Forall_lookup. intros i o Hi.
  assert (i < length rawFrames)%nat as Hlt
    by (rewrite <- Hlen; by apply lookup_lt_Some in Hi).
  destruct (lookup_lt_is_Some_2 rawFrames i Hlt) as [f Hf].
  pose proof (take_drop_middle _ _ _ Hf) as Hsplit.
  rewrite <- Hsplit in Hvalid.
  destruct (turn_at blend width height Hw Hh _ _ f Hvalid)
    as (_ & drawn & _ & outs2 & _ & _ & _ & _ & Hdrawn & _ & _ & Hbuild2 & _
        & Hout2).
  rewrite Hsplit, Hbuild in Hbuild2. injection Hbuild2 as <-.
  rewrite length_take, Nat.min_l in Hout2 by lia.
  rewrite Hi in Hout2. injection Hout2 as ->. done.
Qed.

(** X10. For a non-empty sequence of frames, [parseGifFromBuffer] returns
    one frame per raw frame together with the size of the canvas: the least
    width and height that hold the rectangle of every raw frame. Every
    returned frame has that size. *)
Theorem parseGifFromBuffer_canvas (buffer : list Z)
    (rawFrames : list Raw.frame) :
  parseGifBuffer buffer = Returns rawFrames ->
  rawFrames <> [] -> Forall valid rawFrames ->
  exists frames maxWidth maxHeight,
    parseGifFromBuffer blend parseGifBuffer buffer
    = Returns (frames, maxWidth, maxHeight)
    /\ length frames = length rawFrames
    /\ Forall (fun f =>
         (Raw.left (Raw.dims f) + Raw.width (Raw.dims f) <= maxWidth
          /\ Raw.top (Raw.dims f) + Raw.height (Raw.dims f) <= maxHeight)%nat)
         rawFrames
    /\ Exists (fun f =>
         (Raw.left (Raw.dims f) + Raw.width (Raw.dims f))%nat = maxWidth)
         rawFrames
    /\ Exists (fun f =>
         (Raw.top (Raw.dims f) + Raw.height (Raw.dims f))%nat = maxHeight)
         rawFrames
    /\ Forall (fun o => sized maxWidth maxHeight (Full.imageData o)) frames.
Proof.
  intros Hparse Hne Hvalid.
  destruct rawFrames as [|first rest]; [done|].
  set (rawFrames := first :: rest) in *.
  pose proof (foldl_max
    (fun f => (Raw.left (Raw.dims f) + Raw.width (Raw.dims f))%nat)
    rawFrames (Raw.width (Raw.dims first))) as (HW0 & HWall & HWex).
  pose proof (foldl_max
    (fun f => (Raw.top (Raw.dims f) + Raw.height (Raw.dims f))%nat)
    rawFrames (Raw.height (Raw.dims first))) as (HH0 & HHall & HHex).
  cbn zeta in *.
  set (maxWidth := foldl _ (Raw.width (Raw.dims first)) rawFrames) in *.
  set (maxHeight := foldl _ (Raw.height (Raw.dims first)) rawFrames) in *.
  assert (Hfirst : valid first) by (by apply Forall_cons in Hvalid as [? _]).
  destruct Hfirst as (Hw1 & Hh1 & _).
  assert (HWfirst : (Raw.left (Raw.dims first) + Raw.width (Raw.dims first)
                     <= maxWidth)%nat)
    by (by apply Forall_cons in HWall as [? _]).
  assert (HHfirst : (Raw.top (Raw.dims first) + Raw.height (Raw.dims first)
                     <= maxHeight)%nat)
    by (by apply Forall_cons in HHall as [? _]).
  destruct (loop_returns blend maxWidth maxHeight ltac:(lia) ltac:(lia)
              rawFrames _ (initial_consistent maxWidth maxHeight) Hvalid)
    as (st & outs & Hrun & _ & Hout & Hlen & _).
  cbn [initial fullFrames app] in Hout.
  assert (Hbuild : buildFullFrames blend rawFrames maxWidth maxHeight
                   = Returns outs).
  { unfold buildFullFrames, run. rewrite Hrun. cbn [mbind outcome_bind].
    by rewrite Hout. }
  exists outs, maxWidth, maxHeight.
  split.
  { unfold parseGifFromBuffer. rewrite Hparse. cbn [mbind outcome_bind].
    clear -Hbuild. subst maxWidth maxHeight rawFrames. cbv beta iota zeta.
    by rewrite Hbuild. }
  split; [done|].
  split.
  { apply Forall_forall. intros f Hf. rewrite Forall_forall in HWall, HHall.
    split; [by apply HWall | by apply HHall]. }
  split.
  { destruct HWex as [E|?]; [|done].
    apply Exists_cons_hd. lia. }
  split.
  { destruct HHex as [E|?]; [|done].
    apply Exists_cons_hd. lia. }
  by apply (frames_sized maxWidth maxHeight rawFrames); try lia.
Qed.

End Parsing.

Lemma parseGifFromBuffer_canvas_witness :
  (fun _ : list Z => Returns [red_dot; blue_square]) [71; 73; 70]
  = Returns [red_dot; blue_square]
  /\ [red_dot; blue_square] <> []
  /\ Forall valid [red_dot; blue_square]
  /\ exists frames,
       parseGifFromBuffer Canvas.over
         (fun _ => Returns [red_dot; blue_square]) [71; 73; 70]
       = Returns (frames, 3%nat, 3%nat).
Proof.
  assert (Hne : [red_dot; blue_square] <> []) by discriminate.
  assert (Hvalid : Forall valid [red_dot; blue_square]).
  { constructor; [exact red_dot_valid|].
    constructor; [exact blue_square_valid | constructor]. }
  split; [reflexivity|]. split; [exact Hne|]. split; [exact Hvalid|].
  destruct (parseGifFromBuffer_canvas Canvas.over
              (fun _ => Returns [red_dot; blue_square]) [71; 73; 70]
              [red_dot; blue_square] eq_refl Hne Hvalid)
    as (frames & W & H & Hret & _).
  exists frames. rewrite Hret.
  unfold parseGifFromBuffer in Hret. cbn [mbind outcome_bind foldl] in Hret.
  destruct (buildFullFrames _ _ _ _) as [fs|e]; [|discriminate Hret].
  cbn [mbind outcome_bind] in Hret. injection Hret as _ <- <-. reflexivity.
Defined.

Lemma fromCharCode_bytes (l : list Z) :
  Forall (fun b => 0 <= b < 256) l -> l ≫= fromCharCode = l.
Proof.
  induction 1 as [|b l Hb _ IH]; [done|].
  cbn [mbind list_bind app]. unfold fromCharCode at 1.
  rewrite Z.mod_small by lia. cbn [app]. by rewrite IH.
Qed.

(** X11. On a buffer of at least six bytes [isGifBuffer] returns whether the
    first six are "GIF87a" or "GIF89a"; on a shorter buffer it does not
    return false, it throws a [RangeError]. *)
Theorem isGifBuffer_magic (buffer : list Z) :
  Forall (fun b => 0 <= b < 256) buffer ->
  ((length buffer < 6)%nat -> isGifBuffer buffer = Throws RangeError)
  /\ ((6 <= length buffer)%nat ->
      exists b,
        isGifBuffer buffer = Returns b
        /\ (b = true <->
            take 6 buffer = units "GIF87a"
            \/ take 6 buffer = units "GIF89a")).
Proof.
  intros Hbytes. unfold isGifBuffer, Uint8Array_view. split.
  - intros Hshort.
    by destruct (Nat.ltb_spec (length buffer) (0 + 6)); [|lia].
  - intros Hlong.
    destruct (Nat.ltb_spec (length buffer) (0 + 6)); [lia|].
    cbn [mbind outcome_bind]. rewrite drop_0.
    rewrite fromCharCode_bytes by (by apply Forall_take).
    eexists. split; [reflexivity|].
    rewrite orb_true_iff, !bool_decide_eq_true. done.
Qed.

Lemma isGifBuffer_magic_witness :
  Forall (fun b => 0 <= b < 256) [71; 73; 70]
  /\ (length [71; 73; 70] < 6)%nat
  /\ isGifBuffer [71; 73; 70] = Throws RangeError.
Proof.
  assert (Hbytes : Forall (fun b => 0 <= b < 256) [71; 73; 70])
    by (repeat constructor; lia).
  assert (Hshort : (length [71; 73; 70] < 6)%nat) by (cbn; lia).
  split; [exact Hbytes|]. split; [exact Hshort|].
  exact (proj1 (isGifBuffer_magic [71; 73; 70] Hbytes) Hshort).
Defined.

End CompositorFacts.

(** ** processor.js: the stages of the pipeline *)

Module PipelineFacts.
Import Js JsFacts CanvasFacts DitherFacts CharsetsFacts Processor
  ProcessorFacts.

(** The loop [for y < a.length, for x < a[y].length: a[y][x] = f(a[y][x])],
    on rows of any lengths. *)
Lemma rows_loop {A} (f : A -> A) (d : A) (a : rows A) :
  foldl (fun a y =>
    foldl (fun a x => assign a y x (f (cell d a y x)))
      a (seq 0 (length (default [] (a !! y)))))
    a (seq 0 (length a))
  = map (map f) a.
Proof.
  rewrite (foldl_agree _ (fun a y => alter (fmap f) y a)).
  - apply foldl_alter_all.
  - intros a' y _.
    rewrite (foldl_agree _ (fun a x => alter (alter f x) y a))
      by (intros; apply assign_self).
    rewrite foldl_alter_at. apply list_alter_ext; [|done].
    intros r Hr. rewrite Hr. apply foldl_alter_all.
Qed.

Lemma inverted_map (gray : rows Q) :
  inverted gray = map (map (fun v => (1 - v)%Q)) gray.
Proof. apply (rows_loop (fun v => (1 - v)%Q)). Qed.

Definition inverted_color (c : Z * Z * Z) : Z * Z * Z :=
  let '(r, g, b) := c in (255 - r, 255 - g, 255 - b).

Lemma inverted_colors_map (colorSamples : rows (Z * Z * Z)) :
  inverted_colors colorSamples = map (map inverted_color) colorSamples.
Proof.
  rewrite <- (rows_loop inverted_color (0, 0, 0)). unfold inverted_colors.
  apply foldl_agree. intros a y _. apply foldl_agree. intros a' x _.
  unfold inverted_color. by destruct (cell (0, 0, 0) a' y x) as [[r g] b].
Qed.

Lemma map_indices {A B} (g : A -> B) (d : A) (row : list A) :
  map (fun x => g (default d (row !! x))) (seq 0 (length row)) = map g row.
Proof.
  apply list_eq. intros i. change map with (@fmap list _).
  rewrite !list_lookup_fmap.
  destruct (row !! i) as [v|] eqn:Hv.
  - rewrite lookup_seq_lt by (by apply lookup_lt_Some in Hv).
    cbn [fmap option_fmap option_map Nat.add]. by rewrite Hv.
  - rewrite lookup_seq_ge by (by apply lookup_ge_None in Hv). done.
Qed.

(** The bit of a thresholded cell. *)
Definition bit (v : Q) : Z := if greater v (1 # 2) then 1 else 0.

Lemma thresholded_map (gray : rows Q) : thresholded gray = map (map bit) gray.
Proof.
  unfold thresholded. apply map_ext. intros row.
  rewrite (foldl_insert_prefix
             (fun x => if greater (default 0%Q (row !! x)) (1 # 2)
                       then 1 else 0))
    by (by rewrite length_replicate).
  rewrite drop_replicate, Nat.sub_diag, app_nil_r.
  apply (map_indices bit).
Qed.

Lemma rect_map {A B} (f : A -> B) (a : rows A) (h w : nat) :
  rect a h w -> rect (map (map f) a) h w.
Proof.
  intros [Hh Hw]. split; [by rewrite length_map|].
  change (map (map f) a) with (map f <$> a). rewrite Forall_fmap.
  eapply Forall_impl; [exact Hw|]. intros r Hr. cbn. by rewrite length_map.
Qed.

Lemma rect_first {A} (a : rows A) (h w : nat) :
  rect a h w -> (0 < h)%nat -> first_row_length a = w.
Proof. apply rect_first_row. Qed.

Lemma toGrayscale_rect (imageData : Canvas.ImageData) :
  rect (toGrayscale imageData) (Canvas.height imageData)
    (Canvas.width imageData).
Proof.
  rewrite toGrayscale_rows. split; [by rewrite length_map, length_seq|].
  change (map ?f ?l) with (f <$> l). rewrite Forall_fmap.
  apply Forall_forall. intros y _. cbn. by rewrite length_map, length_seq.
Qed.

Lemma adjust_map (gray : rows Q) (brightness contrast : Z) (h w : nat) :
  rect gray h w -> first_row_length gray = w ->
  adjustBrightnessContrast gray brightness contrast
  = map (map (adjusted brightness contrast)) gray.
Proof.
  intros Hrect Hw. unfold adjustBrightnessContrast.
  pose proof Hrect as [Hh _]. rewrite Hw, Hh.
  by apply cellwise_loop.
Qed.

Lemma byte_range (d : list Z) (i : nat) :
  Forall (fun b => 0 <= b <= 255) d -> 0 <= Canvas.byte d i <= 255.
Proof.
  intros Hd. unfold Canvas.byte. destruct (d !! i) as [b|] eqn:Hb; [|cbn; lia].
  exact (Forall_lookup_1 _ _ _ _ Hd Hb).
Qed.

Lemma inject_Z_range (z : Z) :
  0 <= z <= 255 -> (0 <= inject_Z z <= 255)%Q.
Proof.
  intros [H0 H1]. split.
  - change 0%Q with (inject_Z 0). by rewrite <- Zle_Qle.
  - change 255%Q with (inject_Z 255). by rewrite <- Zle_Qle.
Qed.

Lemma luminance_range (r g b a : Z) :
  0 <= r <= 255 -> 0 <= g <= 255 -> 0 <= b <= 255 ->
  (0 <= luminance (r, g, b, a) <= 1)%Q.
Proof.
  intros Hr%inject_Z_range Hg%inject_Z_range Hb%inject_Z_range.
  unfold luminance. split.
  - apply Qle_shift_div_l; [reflexivity|]. lra.
  - apply Qle_shift_div_r; [reflexivity|]. lra.
Qed.

(** X12. The grayscale of an image of [w] by [h] pixels whose bytes are in
    0..255 is a grid of [h] rows of [w] cells, each in [0, 1]. *)
Theorem toGrayscale_range (imageData : Canvas.ImageData) (y x : nat) :
  Forall (fun b => 0 <= b <= 255) (Canvas.data imageData) ->
  (y < Canvas.height imageData)%nat -> (x < Canvas.width imageData)%nat ->
  rect (toGrayscale imageData) (Canvas.height imageData)
    (Canvas.width imageData)
  /\ exists v,
       (toGrayscale imageData !! y ≫= (.!! x)) = Some v
       /\ (0 <= v <= 1)%Q.
Proof.
  intros Hbytes Hy Hx. split; [apply toGrayscale_rect|].
  eexists. split.
  - rewrite toGrayscale_rows. change map with (@fmap list _).
    rewrite list_lookup_fmap, lookup_seq_lt by done.
    cbn [fmap option_fmap option_map mbind option_bind].
    rewrite list_lookup_fmap, lookup_seq_lt by done. reflexivity.
  - unfold Canvas.pixel_at. apply luminance_range; by apply byte_range.
Qed.

Lemma toGrayscale_range_witness :
  Forall (fun b => 0 <= b <= 255) (Canvas.data white_red)
  /\ (0 < Canvas.height white_red)%nat /\ (1 < Canvas.width white_red)%nat
  /\ exists v,
       (toGrayscale white_red !! 0%nat ≫= (.!! 1%nat)) = Some v
       /\ (0 <= v <= 1)%Q.
Proof.
  assert (Hbytes : Forall (fun b => 0 <= b <= 255) (Canvas.data white_red))
    by (repeat constructor; lia).
  assert (Hy : (0 < Canvas.height white_red)%nat) by (cbn; lia).
  assert (Hx : (1 < Canvas.width white_red)%nat) by (cbn; lia).
  split; [exact Hbytes|]. split; [exact Hy|]. split; [exact Hx|].
  exact (proj2 (toGrayscale_range white_red 0 1 Hbytes Hy Hx)).
Defined.

Lemma clamp01_mono (v1 v2 : Q) :
  (v1 <= v2)%Q -> (clamp01 v1 <= clamp01 v2)%Q.
Proof.
  intros Hv. unfold clamp01.
  by apply Q.max_le_compat_l, Q.min_le_compat_l.
Qed.

Lemma adjusted_mono (brightness contrast : Z) (v1 v2 : Q) :
  0 <= contrast -> (v1 <= v2)%Q ->
  (adjusted brightness contrast v1 <= adjusted brightness contrast v2)%Q.
Proof.
  intros Hc Hv. unfold adjusted. apply clamp01_mono.
  assert (0 <= inject_Z contrast / 100)%Q as Hf.
  { apply Qle_shift_div_l; [reflexivity|]. rewrite Qmult_0_l.
    change 0%Q with (inject_Z 0). by rewrite <- Zle_Qle. }
  set (factor := (inject_Z contrast / 100)%Q) in *.
  set (shift := (inject_Z brightness / 100)%Q).
  destruct (negb (brightness =? 0)), (negb (contrast =? 100));
    try done; try lra.
  - apply Qplus_le_l, Qmult_le_compat_r; [lra | done].
  - apply Qplus_le_l, Qmult_le_compat_r; [lra | done].
Qed.

Lemma adjusted_flat (brightness : Z) (v : Q) :
  (adjusted brightness 0 v == 1 # 2)%Q.
Proof.
  unfold adjusted. cbn [Z.eqb negb].
  rewrite clamp01_in_range.
  - unfold Qdiv. rewrite Qmult_0_l, Qmult_0_r. reflexivity.
  - unfold Qdiv. rewrite Qmult_0_l, Qmult_0_r. split; discriminate.
Qed.

(** X13. On a grid of [h] rows of [w] cells, the tone adjustment returns a
    grid of the same shape whose cells all lie in [0, 1], whatever the input
    values. For a contrast of 0 or more it keeps the order of any two cells,
    and for contrast 0 every cell becomes 1/2. *)
Theorem adjustBrightnessContrast_order (gray : rows Q)
    (brightness contrast : Z) (h w : nat) :
  rect gray h w -> first_row_length gray = w ->
  rect (adjustBrightnessContrast gray brightness contrast) h w
  /\ (forall y x v,
        (adjustBrightnessContrast gray brightness contrast !! y ≫= (.!! x))
        = Some v -> (0 <= v <= 1)%Q)
  /\ (0 <= contrast ->
      forall y1 x1 y2 x2 v1 v2,
        (gray !! y1 ≫= (.!! x1)) = Some v1 ->
        (gray !! y2 ≫= (.!! x2)) = Some v2 ->
        (v1 <= v2)%Q ->
        exists v1' v2',
          (adjustBrightnessContrast gray brightness contrast !! y1
             ≫= (.!! x1)) = Some v1'
          /\ (adjustBrightnessContrast gray brightness contrast !! y2
                ≫= (.!! x2)) = Some v2'
          /\ (v1' <= v2')%Q)
  /\ (contrast = 0 ->
      forall y x v,
        (adjustBrightnessContrast gray brightness contrast !! y ≫= (.!! x))
        = Some v -> (v == 1 # 2)%Q).
Proof.
  intros Hrect Hw. rewrite (adjust_map gray brightness contrast h w Hrect Hw).
  assert (Hcell : forall y x,
            (map (map (adjusted brightness contrast)) gray !! y ≫= (.!! x))
            = adjusted brightness contrast <$> (gray !! y ≫= (.!! x))).
  { intros y x. change map with (@fmap list _). rewrite list_lookup_fmap.
    destruct (gray !! y) as [r|]; [|done].
    cbn [fmap option_fmap option_map mbind option_bind].
    by rewrite list_lookup_fmap. }
  split; [by apply rect_map|]. split; [|split].
  - intros y x v. rewrite Hcell.
    destruct (gray !! y ≫= (.!! x)) as [u|]; [|done]. intros [= <-].
    unfold adjusted. apply clamp01_range.
  - intros Hc y1 x1 y2 x2 v1 v2 H1 H2 Hv.
    eexists _, _. rewrite !Hcell, H1, H2.
    split; [reflexivity|]. split; [reflexivity|]. by apply adjusted_mono.
  - intros -> y x v. rewrite Hcell.
    destruct (gray !! y ≫= (.!! x)) as [u|]; [|done]. intros [= <-].
    apply adjusted_flat.
Qed.

Lemma adjustBrightnessContrast_order_witness :
  rect two_cells 1 2 /\ first_row_length two_cells = 2%nat
  /\ rect (adjustBrightnessContrast two_cells 20 150) 1 2.
Proof.
  assert (Hrect : rect two_cells 1 2)
    by (split; [reflexivity | constructor; [reflexivity | constructor]]).
  split; [exact Hrect|]. split; [reflexivity|].
  exact (proj1 (adjustBrightnessContrast_order two_cells 20 150 1 2
                  Hrect eq_refl)).
Defined.

Lemma rect_rows {B} (f : nat -> nat -> B) (h w : nat) :
  rect (map (fun y => map (f y) (seq 0 w)) (seq 0 h)) h w.
Proof.
  split; [by rewrite length_map, length_seq|].
  change (map ?g ?l) with (g <$> l). rewrite Forall_fmap.
  apply Forall_forall. intros y _. cbn. by rewrite length_map, length_seq.
Qed.

Lemma rect_lines {A} (a : rows A) (h w : nat) :
  rect a h w -> length a = h /\ Forall (fun l => length l = w) a.
Proof. done. Qed.

Lemma mapArrayToChars_shape (charset : string) (chars : str) (g : rows Q)
    (h w : nat) :
  Charsets.CHARSETS charset = Some chars -> rect g h w ->
  exists lines,
    Charsets.mapArrayToChars charset g = Returns lines /\ rect lines h w.
Proof.
  intros Hset Hg. pose proof (CHARSETS_nonempty _ _ Hset) as Hlen.
  exists (map (map (ramp_char chars)) g). split; [|by apply rect_map].
  unfold Charsets.mapArrayToChars. rewrite Hset, foldl_push. cbn [app].
  f_equal. apply map_ext. intros r. by apply map_row.
Qed.

Lemma brailleFromArray_shape (binary : rows Z) (h w : nat) :
  rect binary (h * 4) (w * 2) -> (0 < h)%nat ->
  exists lines,
    Charsets.brailleFromArray binary = Returns lines /\ rect lines h w.
Proof.
  intros Hrect Hh.
  pose proof (rect_first_row _ _ _ Hrect ltac:(lia)) as Hw.
  destruct (BrailleFacts.padded_input_grid binary _ _ Hrect Hw)
    as (g & Hin & _).
  replace ((h * 4 + 3) / 4)%nat with h in Hin
    by (apply Nat.div_unique with (r := 3%nat); lia).
  replace ((w * 2 + 1) / 2)%nat with w in Hin
    by (apply Nat.div_unique with (r := 1%nat); lia).
  eexists. split.
  - unfold Charsets.brailleFromArray. rewrite Hin. cbn [mbind outcome_bind].
    rewrite encode_lines. reflexivity.
  - apply rect_rows.
Qed.

Lemma floydSteinberg_rect (g : rows Q) (levels : Z) (h w : nat) :
  rect g h w -> (0 < h)%nat -> rect (Dither.floydSteinberg g levels) h w.
Proof.
  intros Hg Hh.
  by destruct (floydSteinberg_diffuse g levels h w Hg
                 (rect_first_row _ _ _ Hg Hh)).
Qed.

Lemma foldl_grows {A B} (G : list B -> A -> list B) (l : list A)
    (init : list B) :
  (forall row x, length (G row x) = S (length row)) ->
  length (foldl G init l) = (length init + length l)%nat.
Proof.
  intros HG. revert init; induction l as [|a l IH]; intros init; cbn; [lia|].
  rewrite IH, HG. lia.
Qed.

(** Rows pushed one by one, each filled by pushing one entry per column. *)
Lemma pushed_rows {B} (G : nat -> list B -> nat -> list B) (h w : nat) :
  (forall y row x, length (G y row x) = S (length row)) ->
  rect (foldl (fun colors y => colors ++ [foldl (G y) [] (seq 0 w)])
          [] (seq 0 h)) h w.
Proof.
  intros HG. rewrite foldl_push. cbn [app].
  split; [by rewrite length_map, length_seq|].
  change (map ?g ?l) with (g <$> l). rewrite Forall_fmap.
  apply Forall_forall. intros y _. cbn.
  rewrite foldl_grows by apply HG. cbn. by rewrite length_seq.
Qed.

Section Pipeline.
Variable resample :
  Canvas.ImageData -> nat -> nat -> nat -> nat -> Canvas.pixel.

Lemma resize_returns (imageData : Canvas.ImageData) (w h : nat) :
  (0 < w)%nat -> (0 < h)%nat ->
  exists resized,
    resizeImageData resample imageData w h = Returns resized
    /\ sized w h resized.
Proof.
  intros Hw Hh. eexists. split.
  - unfold resizeImageData. apply getImageData_all; [done|done|].
    apply render_sized.
  - apply render_sized.
Qed.

Lemma resize_zero (imageData : Canvas.ImageData) (w h : nat) :
  (w = 0 \/ h = 0)%nat ->
  resizeImageData resample imageData w h = Throws IndexSizeError.
Proof.
  intros Hz. unfold resizeImageData, Canvas.getImageData.
  destruct (Nat.eqb_spec w 0), (Nat.eqb_spec h 0); try done; lia.
Qed.

(** The grid after grayscale, brightness/contrast and invert. *)
Lemma tone_rect (resized : Canvas.ImageData) (w h : nat)
    (brightness contrast : Z) (invert : bool) :
  sized w h resized -> (0 < h)%nat ->
  rect (if invert
        then inverted (adjustBrightnessContrast (toGrayscale resized)
                         brightness contrast)
        else adjustBrightnessContrast (toGrayscale resized)
               brightness contrast) h w.
Proof.
  intros (Hw & Hh & _) Hpos.
  pose proof (toGrayscale_rect resized) as Hg. rewrite Hw, Hh in Hg.
  rewrite (adjust_map _ brightness contrast h w Hg
             (rect_first_row _ _ _ Hg Hpos)).
  destruct invert; [rewrite inverted_map|]; by repeat apply rect_map.
Qed.

Lemma getColorSamples_shape (imageData : Canvas.ImageData) (w h : nat) :
  (0 < w)%nat -> (0 < h)%nat ->
  exists cs,
    getColorSamples resample imageData w h = Returns cs /\ rect cs h w.
Proof.
  intros Hw Hh. unfold getColorSamples.
  destruct (resize_returns imageData w h Hw Hh) as (resized & -> & _).
  cbn [mbind outcome_bind]. eexists. split; [reflexivity|].
  apply pushed_rows. intros y row x. rewrite length_app. cbn. lia.
Qed.

Lemma getBrailleColorSamples_shape (imageData : Canvas.ImageData)
    (w h : nat) :
  (0 < w)%nat -> (0 < h)%nat ->
  exists cs,
    getBrailleColorSamples resample imageData w h = Returns cs
    /\ rect cs h w.
Proof.
  intros Hw Hh. unfold getBrailleColorSamples.
  destruct (resize_returns imageData (w * 2) (h * 4) ltac:(lia) ltac:(lia))
    as (resized & -> & _).
  cbn [mbind outcome_bind]. eexists. split; [reflexivity|].
  apply pushed_rows. intros y row x.
  destruct (foldl _ (0, 0, 0) (seq 0 4)) as [[rSum gSum] bSum].
  rewrite length_app. cbn. lia.
Qed.

Lemma inverted_colors_rect (cs : rows (Z * Z * Z)) (h w : nat) (b : bool) :
  rect cs h w -> rect (if b then inverted_colors cs else cs) h w.
Proof.
  intros Hcs. destruct b; [|done].
  rewrite inverted_colors_map. by apply rect_map.
Qed.

(** The colour stage of [processFrame]. *)
Lemma colors_stage (imageData : Canvas.ImageData) (settings : Settings.t)
    (isBraille : bool) :
  (0 < Settings.width settings)%nat -> (0 < Settings.height settings)%nat ->
  exists colors,
    (if negb (String.eqb (Settings.colorMode settings) "none") then
       colorSamples ←
         (if isBraille
          then getBrailleColorSamples resample imageData
                 (Settings.width settings) (Settings.height settings)
          else getColorSamples resample imageData
                 (Settings.width settings) (Settings.height settings));
       Returns (Some (if Settings.invert settings
                      then inverted_colors colorSamples
                      else colorSamples))
     else Returns None) = Returns colors
    /\ (colors = None <-> Settings.colorMode settings = "none"%string)
    /\ (forall cs, colors = Some cs ->
        rect cs (Settings.height settings) (Settings.width settings)).
Proof.
  intros Hw Hh.
  destruct (String.eqb_spec (Settings.colorMode settings) "none")
    as [Hnone|Hsome]; cbn [negb].
  - exists None. by repeat split.
  - assert (exists cs,
      (if isBraille
       then getBrailleColorSamples resample imageData
              (Settings.width settings) (Settings.height settings)
       else getColorSamples resample imageData
              (Settings.width settings) (Settings.height settings))
      = Returns cs
      /\ rect cs (Settings.height settings) (Settings.width settings))
      as (cs & -> & Hcs).
    { destruct isBraille;
        [by apply getBrailleColorSamples_shape
        | by apply getColorSamples_shape]. }
    cbn [mbind outcome_bind]. eexists. split; [reflexivity|].
    split; [split; [done | by intros ?]|].
    intros cs' [= <-]. by apply inverted_colors_rect.
Qed.

(** X14. For a registered charset and a width and height of at least 1,
    [processFrame] returns [height] lines of [width] characters, for braille
    as for the ramps and with or without dithering and invert; the colours
    are null exactly for the colour mode "none", and otherwise a grid of
    [height] rows of [width] colours. *)
Theorem processFrame_shape (imageData : Canvas.ImageData)
    (settings : Settings.t) (chars : str) :
  (0 < Settings.width settings)%nat -> (0 < Settings.height settings)%nat ->
  Charsets.CHARSETS (Settings.charset settings) = Some chars ->
  exists r,
    processFrame resample imageData settings = Returns r
    /\ rect (Processed.lines r)
         (Settings.height settings) (Settings.width settings)
    /\ (Processed.colors r = None
        <-> Settings.colorMode settings = "none"%string)
    /\ (forall cs, Processed.colors r = Some cs ->
        rect cs (Settings.height settings) (Settings.width settings))
    /\ Processed.width r = Settings.width settings
    /\ Processed.height r = Settings.height settings.
Proof.
  intros Hw Hh Hset. unfold processFrame.
  set (w := Settings.width settings) in *.
  set (h := Settings.height settings) in *.
  set (isBraille := String.eqb (Settings.charset settings) "braille").
  destruct (colors_stage imageData settings isBraille Hw Hh)
    as (colors & Hcolors & Hnone & Hshape).
  fold w h in Hcolors, Hshape.
  assert (exists resized rw rh,
    resizeImageData resample imageData
      (if isBraille then (w * 2)%nat else w)
      (if isBraille then (h * 4)%nat else h) = Returns resized
    /\ sized rw rh resized /\ (0 < rh)%nat
    /\ rw = (if isBraille then (w * 2)%nat else w)
    /\ rh = (if isBraille then (h * 4)%nat else h))
    as (resized & rw & rh & -> & Hsized & Hrh & Hrw' & Hrh').
  { destruct isBraille.
    - destruct (resize_returns imageData (w * 2) (h * 4)
                  ltac:(lia) ltac:(lia)) as (resized & ? & ?).
      exists resized, (w * 2)%nat, (h * 4)%nat.
      split; [done|]. split; [done|]. split; [lia|]. by split.
    - destruct (resize_returns imageData w h Hw Hh) as (resized & ? & ?).
      exists resized, w, h.
      split; [done|]. split; [done|]. split; [lia|]. by split. }
  cbn [mbind outcome_bind].
  pose proof (tone_rect resized rw rh (Settings.brightness settings)
                (Settings.contrast settings) (Settings.invert settings)
                Hsized Hrh) as Hgray.
  set (gray := if Settings.invert settings then _ else _) in *.
  assert (exists lines,
    (if isBraille then
       Charsets.brailleFromArray
         (thresholded (if Settings.dither settings
                       then Dither.floydSteinberg gray 2 else gray))
     else
       gray' ←
         (if Settings.dither settings then
            match Charsets.CHARSETS (Settings.charset settings) with
            | None => Throws TypeError
            | Some chars =>
                Returns (Dither.floydSteinberg gray
                           (Z.of_nat (length chars)))
            end
          else Returns gray);
       Charsets.mapArrayToChars (Settings.charset settings) gray')
    = Returns lines /\ rect lines h w) as (lines & -> & Hlines).
  { destruct isBraille; subst rw rh.
    - apply brailleFromArray_shape; [|done].
      rewrite thresholded_map. apply rect_map.
      destruct (Settings.dither settings); [|done].
      apply floydSteinberg_rect; [done | lia].
    - rewrite Hset.
      destruct (Settings.dither settings); cbn [mbind outcome_bind].
      + apply (mapArrayToChars_shape _ chars); [done|].
        by apply floydSteinberg_rect.
      + by apply (mapArrayToChars_shape _ chars). }
  cbn [mbind outcome_bind]. rewrite Hcolors. cbn [mbind outcome_bind].
  eexists. split; [reflexivity|]. cbn [Processed.lines Processed.colors
    Processed.width Processed.height]. by repeat (split; [done|]).
Qed.

(** X15. A width or height of 0 makes [processFrame] throw an
    [IndexSizeError] at the first resize, before any line is produced. *)
Theorem processFrame_zero_size (imageData : Canvas.ImageData)
    (settings : Settings.t) :
  (Settings.width settings = 0 \/ Settings.height settings = 0)%nat ->
  processFrame resample imageData settings = Throws IndexSizeError.
Proof.
  intros Hz. unfold processFrame.
  rewrite resize_zero; [done|].
  destruct (String.eqb _ "braille"); lia.
Qed.

(** The settings with another value for invert. *)
Definition with_invert (b : bool) (s : Settings.t) : Settings.t :=
  {| Settings.charset := Settings.charset s;
     Settings.colorMode := Settings.colorMode s;
     Settings.dither := Settings.dither s;
     Settings.brightness := Settings.brightness s;
     Settings.contrast := Settings.contrast s;
     Settings.invert := b;
     Settings.width := Settings.width s;
     Settings.height := Settings.height s |}.

(** X16. Turning invert on replaces every channel [c] of every colour that
    [processFrame] returns by [255 - c], and changes nothing else about the
    colours. *)
Theorem processFrame_invert_colors (imageData : Canvas.ImageData)
    (settings : Settings.t) (plain flipped : Processed.t) :
  processFrame resample imageData (with_invert false settings)
  = Returns plain ->
  processFrame resample imageData (with_invert true settings)
  = Returns flipped ->
  Processed.colors flipped
  = map (map (fun '(r, g, b) => (255 - r, 255 - g, 255 - b)))
      <$> Processed.colors plain.
Proof.
  unfold processFrame.
  cbn [with_invert Settings.charset Settings.colorMode Settings.dither
       Settings.brightness Settings.contrast Settings.invert Settings.width
       Settings.height].
  destruct (resizeImageData resample imageData _ _) as [resized|e];
    cbn [mbind outcome_bind]; [|discriminate].
  match goal with
  | |- (?X ≫= _ = _) -> _ =>
      destruct X as [l1|e1]; cbn [mbind outcome_bind]; [|discriminate]
  end.
  intros Hplain.
  match goal with
  | |- (?X ≫= _ = _) -> _ =>
      destruct X as [l2|e2]; cbn [mbind outcome_bind]; [|discriminate]
  end.
  revert Hplain.
  destruct (negb (String.eqb (Settings.colorMode settings) "none")).
  - destruct (if String.eqb (Settings.charset settings) "braille" then _
              else _) as [cs|e]; cbn [mbind outcome_bind]; [|discriminate].
    intros [= <-] [= <-]. cbn [Processed.colors fmap option_fmap option_map].
    f_equal. rewrite inverted_colors_map. done.
  - cbn [mbind outcome_bind]. by intros [= <-] [= <-].
Qed.

End Pipeline.

(** A resampling to try the pipeline on: the nearest source pixel. *)
Definition nearest (src : Canvas.ImageData) (w h x y : nat) : Canvas.pixel :=
  Canvas.pixel_at src (x * Canvas.width src / w)%nat
    (y * Canvas.height src / h)%nat.

Definition gradient : Canvas.ImageData :=
  Canvas.render 2 2 (fun x y =>
    (Z.of_nat (100 * x), Z.of_nat (100 * y), 50, 255)).

Definition two_by_one (charset : string) : Settings.t :=
  {| Settings.charset := charset;
     Settings.colorMode := "truecolor";
     Settings.dither := true;
     Settings.brightness := 10;
     Settings.contrast := 120;
     Settings.invert := false;
     Settings.width := 2;
     Settings.height := 1 |}.

Definition zero_wide : Settings.t :=
  {| Settings.charset := "simple";
     Settings.colorMode := "none";
     Settings.dither := false;
     Settings.brightness := 0;
     Settings.contrast := 100;
     Settings.invert := false;
     Settings.width := 0;
     Settings.height := 24 |}.

Lemma processFrame_shape_witness :
  (0 < Settings.width (two_by_one "braille"))%nat
  /\ (0 < Settings.height (two_by_one "braille"))%nat
  /\ Charsets.CHARSETS (Settings.charset (two_by_one "braille"))
     = Some [0x2800; 0x2801]
  /\ exists r,
       processFrame nearest gradient (two_by_one "braille") = Returns r
       /\ rect (Processed.lines r) 1 2.
Proof.
  assert (Hw : (0 < Settings.width (two_by_one "braille"))%nat) by (cbn; lia).
  assert (Hh : (0 < Settings.height (two_by_one "braille"))%nat)
    by (cbn; lia).
  split; [exact Hw|]. split; [exact Hh|]. split; [reflexivity|].
  destruct (processFrame_shape nearest gradient (two_by_one "braille") _
              Hw Hh eq_refl) as (r & Hr & Hlines & _).
  exists r. split; [exact Hr | exact Hlines].
Defined.

Lemma processFrame_zero_size_witness :
  (Settings.width zero_wide = 0 \/ Settings.height zero_wide = 0)%nat
  /\ processFrame nearest gradient zero_wide = Throws IndexSizeError.
Proof.
  assert (Hz : (Settings.width zero_wide = 0
                \/ Settings.height zero_wide = 0)%nat) by (left; reflexivity).
  split; [exact Hz|].
  exact (processFrame_zero_size nearest gradient zero_wide Hz).
Defined.

Lemma processFrame_invert_colors_witness :
  exists plain flipped,
    processFrame nearest gradient (with_invert false (two_by_one "simple"))
    = Returns plain
    /\ processFrame nearest gradient (with_invert true (two_by_one "simple"))
       = Returns flipped
    /\ Processed.colors plain = Some [[(0, 0, 50); (100, 0, 50)]]
    /\ Processed.colors flipped = Some [[(255, 255, 205); (155, 255, 205)]].
Proof.
  eexists _, _.
  assert (Hplain : processFrame nearest gradient
                     (with_invert false (two_by_one "simple")) = Returns _)
    by (vm_compute; reflexivity).
  assert (Hflipped : processFrame nearest gradient
                       (with_invert true (two_by_one "simple")) = Returns _)
    by (vm_compute; reflexivity).
  split; [exact Hplain|]. split; [exact Hflipped|]. split; [reflexivity|].
  rewrite (processFrame_invert_colors nearest gradient (two_by_one "simple")
             _ _ Hplain Hflipped).
  reflexivity.
Defined.

End PipelineFacts.

(** ** processor.js: the characters and the colours of the ramp charsets *)

Module ColourFacts.
Import Js JsFacts CanvasFacts CharsetsFacts BrailleFacts Processor
  ProcessorFacts PipelineFacts.


Definition grid {B} (h w : nat) (f : nat -> nat -> B) : rows B :=
  map (fun y => map (fun x => f x y) (seq 0 w)) (seq 0 h).














Section Cells.
Variable resample :
  Canvas.ImageData -> nat -> nat -> nat -> nat -> Canvas.pixel.













End Cells.






End ColourFacts.
